(** * The image gallery: its IndexedDB service (src/services/db.ts), the
      context provider that calls it and the handlers of the components

    A shallow embedding of the persistence layer: the two record types, the
    connection function [openDB], the group operations and the image
    operations, over an explicit model of the browser's IndexedDB engine
    (object stores with an in-line key and a key generator, transactions
    that commit or abort as a whole, requests that the engine may fail).
    On top of it, the React context provider (its state, its two loads, its
    two effects, its seven actions) and the handlers of the components that
    check the input before they call an action.

    What is code of db.ts is translated from it, function by function, with
    the same names.  What belongs to the browser is kept in [Module IDB] and
    in the environment fields of [World]:
    - a promise is a function of the world that returns how it settled and
      the world it left; [await] is sequencing;
    - the engine decides the outcome of every request, [indexedDB.open]
      included; the decisions are read from a schedule ([outcomes]), one
      entry per request, so that a theorem about all worlds covers every
      pattern of engine failures (quota, input-output errors, a blocked or
      refused open); an exhausted schedule means success;
    - a request that fails fires an error event; no handler of db.ts cancels
      it, so the transaction of the request is aborted and its writes are
      dropped; a transaction all of whose requests succeeded commits;
    - [new Date()] reads a clock that the environment advances between two
      readings ([ticks], the milliseconds elapsed before each reading); a
      timestamp is the time value in milliseconds, of which the stored
      ISO-8601 string is an injective rendering;
    - ids are integers, as keys and in messages;
    - [txlog] records, for every [db.transaction] call, its connection, scope
      and mode; no operation reads it. *)

From stdpp Require Import base option list gmap strings pretty sorting.

Local Open Scope Z_scope.

(** ** Type definitions (db.ts, lines 26-64) *)

Definition Timestamp := Z.

Module Blob.
Record t := mk { bytes : list Byte.byte; type : string }.
End Blob.

Module ImageGroup.
Record t := mk {
  id : Z;
  name : string;
  createdAt : Timestamp;
  updatedAt : Timestamp
}.
End ImageGroup.

Module StoredImage.
Record t := mk {
  id : Z;
  groupId : Z;
  name : string;
  blob : Blob.t;
  createdAt : Timestamp
}.
End StoredImage.

(** [Omit<ImageGroup, 'id'>] *)
Module GroupInput.
Record t := mk {
  name : string;
  createdAt : Timestamp;
  updatedAt : Timestamp
}.
End GroupInput.

(** [Omit<StoredImage, 'id'>] *)
Module ImageInput.
Record t := mk {
  groupId : Z;
  name : string;
  blob : Blob.t;
  createdAt : Timestamp
}.
End ImageInput.

(** ** Constants (lines 70-71) *)

Definition DB_NAME : string := "ImageGalleryDB".
Definition DB_VERSION : nat := 1.

(** ** The engine: object stores with an in-line key and a key generator *)

Module IDB.

(** An object store created with [{ keyPath: 'id', autoIncrement: true }]:
    the records by primary key, and the current number of the key
    generator. *)
Record ObjectStore (V : Type) := mkStore {
  records : gmap Z V;
  keyGenerator : Z
}.
Arguments mkStore {V} _ _.
Arguments records {V} _.
Arguments keyGenerator {V} _.

(** [db.createObjectStore(name, { keyPath, autoIncrement })]: no record,
    generator at 1. *)
Definition createObjectStore {V} : ObjectStore V := mkStore ∅ 1.

(** the order of primary keys, on the entries of a store *)
Definition key_le {V} (a b : Z * V) : Prop := a.1 ≤ b.1.

#[global] Instance key_le_dec {V} (a b : Z * V) : Decision (key_le a b) :=
  Z_le_dec a.1 b.1.

Section store.
Context {I V : Type}.
(** the value's property at the key path *)
Variable keyPath : V → Z.
(** storing the generated key at the key path of a value that has none *)
Variable inject : Z → I → V.

(** [store.add(value)] for a value without a key: the generator's
    current number becomes the key, is stored in the value at the key
    path, and the generator moves on.  The request's result is the
    key. *)
Definition add (value : I) (s : ObjectStore V) : Z * ObjectStore V :=
  let key := keyGenerator s in
  (key, mkStore (<[key := inject key value]> (records s)) (key + 1)).

(** [store.put(value)] for a value that carries its key: the record at
    that key is replaced (or created), and a generator that is not
    above the key is moved above it. *)
Definition put (value : V) (s : ObjectStore V) : Z * ObjectStore V :=
  let key := keyPath value in
  (key, mkStore (<[key := value]> (records s))
                (Z.max (keyGenerator s) (key + 1))).

(** [store.get(key)]: the record, or [undefined]. *)
Definition get (key : Z) (s : ObjectStore V) : option V * ObjectStore V :=
  (records s !! key, s).

(** [store.delete(key)]: the record is removed when there is one; the
    result is [undefined] either way. *)
Definition delete (key : Z) (s : ObjectStore V) : unit * ObjectStore V :=
  (tt, mkStore (base.delete key (records s)) (keyGenerator s)).

(** The store after the records of a list of keys were deleted one by
    one. *)
Definition delete_keys (range : list Z) (s : ObjectStore V)
  : ObjectStore V :=
  foldl (λ s key, (delete key s).2) s range.

(** The records in ascending order of primary key, the order in which
    the engine enumerates a store or the entries of one index key. *)
Definition entries (s : ObjectStore V) : list (Z * V) :=
  merge_sort key_le (map_to_list (records s)).

(** [store.getAll()] *)
Definition getAll (s : ObjectStore V) : list V * ObjectStore V :=
  ((entries s).*2, s).

Section index.
(** an index over the property [indexPath] of the records *)
Variable indexPath : V → Z.

Definition matching (key : Z) (s : ObjectStore V) : list (Z * V) :=
  filter (λ e : Z * V, indexPath e.2 = key) (entries s).

(** [index.getAll(key)] *)
Definition index_getAll (key : Z) (s : ObjectStore V)
  : list V * ObjectStore V :=
  ((matching key s).*2, s).

(** [index.openCursor(key)]: the cursor ranges over the primary keys of
    the records whose index key is [key], in ascending order.  The
    transaction is isolated and the only writes made while the cursor
    is open delete the record under it, so the range is the one found
    when the cursor is opened. *)
Definition index_openCursor (key : Z) (s : ObjectStore V)
  : list Z * ObjectStore V :=
  ((matching key s).*1, s).
End index.

(** [cursor.delete()]: the record under the cursor is deleted. *)
Definition cursor_delete (primaryKey : Z) (s : ObjectStore V)
  : unit * ObjectStore V :=
  delete primaryKey s.

(** [cursor.continue()]: the cursor moves to the next key of its range; the
    store is not changed. *)
Definition cursor_continue (s : ObjectStore V) : unit * ObjectStore V :=
  (tt, s).
End store.

(** The outcome the engine gives a request: success, or an error whose
    message may be missing. *)
Inductive Outcome :=
| Success
| Failure (message : option string).

Inductive Mode := ReadOnly | ReadWrite.

End IDB.

Import IDB.

(** ** The world: database, connections, clock, engine schedule *)

Record Database := mkDatabase {
  groups : option (ObjectStore ImageGroup.t);
  images : option (ObjectStore StoredImage.t)
}.

(** A connection handle; [indexedDB.open] numbers the connections it makes. *)
Definition IDBDatabase := nat.

(** What [db.transaction([scope], mode)] was called with, and on which
    connection. *)
Record TxRecord := mkTx {
  connection : IDBDatabase;
  scope : string;
  mode : Mode
}.

Record World := mkWorld {
  (** [None]: no database of name [DB_NAME] exists yet (version 0);
      [Some db]: it exists at version [DB_VERSION] *)
  database : option Database;
  (** how many connections [indexedDB.open] has made so far *)
  opened : nat;
  (** the transactions started so far, latest first *)
  txlog : list TxRecord;
  (** the clock: the last reading, and the milliseconds that elapse before
      each of the next readings *)
  now : Z;
  ticks : list nat;
  (** the engine's outcome for each of the next requests *)
  outcomes : list Outcome
}.

Definition version (w : World) : nat :=
  match database w with Some _ => DB_VERSION | None => 0%nat end.

Definition stores (w : World) : Database :=
  default (mkDatabase None None) (database w).

Definition set_database (db : Database) (w : World) : World :=
  mkWorld (Some db) (opened w) (txlog w) (now w) (ticks w) (outcomes w).

Definition groupRecords (w : World) : gmap Z ImageGroup.t :=
  match groups (stores w) with Some s => records s | None => ∅ end.

Definition imageRecords (w : World) : gmap Z StoredImage.t :=
  match images (stores w) with Some s => records s | None => ∅ end.

(** The engine takes the outcome of the next request from the head of the
    schedule; an exhausted schedule gives [Success]. *)
Definition next_outcome (w : World) : Outcome * World :=
  (hd Success (outcomes w),
   mkWorld (database w) (opened w) (txlog w) (now w) (ticks w)
           (tl (outcomes w))).

(** [new Date().toISOString()]: the clock after the time that elapsed since
    the last reading (none when [ticks] is exhausted). *)
Definition new_Date (w : World) : Timestamp * World :=
  let t := now w + Z.of_nat (hd 0%nat (ticks w)) in
  (t, mkWorld (database w) (opened w) (txlog w) t (tl (ticks w)) (outcomes w)).

(** ** Promises *)

Inductive JsError :=
| Error (message : string)
| DOMException (name : string).

Inductive Settled (A : Type) :=
| Resolved (value : A)
| Rejected (reason : JsError).
Arguments Resolved {A} _.
Arguments Rejected {A} _.

Definition Promise (A : Type) : Type := World → Settled A * World.

(** [const x = await p; k] inside an [async] function *)
Definition andThen {A B} (p : Promise A) (k : A → Promise B) : Promise B :=
  λ w, match p w with
       | (Resolved a, w') => k a w'
       | (Rejected e, w') => (Rejected e, w')
       end.

Notation "'await' x ← p ;; k" := (andThen p (λ x, k))
  (at level 100, x name, p at next level, right associativity,
   format "'await'  x  ←  p  ;;  '/' k").

(** [request.error?.message || 'Unknown error'] *)
Definition error_message (m : option string) : string :=
  match m with
  | Some s => if decide (s = EmptyString) then "Unknown error" else s
  | None => "Unknown error"
  end.

(** ** Transactions

    The code of a transaction works on the store as the transaction sees
    it.  It ends in one of two ways: every request succeeded, the promise
    was settled and the transaction commits; or a request failed, its error
    handler rejected the promise and, as no handler of db.ts cancels the
    error event, the engine aborts the transaction and drops its writes. *)

Inductive TxEnd (V A : Type) :=
| Commit (settled : Settled A) (store : ObjectStore V)
| Abort (reason : JsError).
Arguments Commit {V A} _ _.
Arguments Abort {V A} _.

Definition Tx (V A : Type) : Type := ObjectStore V → World → TxEnd V A * World.

(** [resolve(a)] or [reject(e)] with no request left pending *)
Definition settle {V A} (s : Settled A) : Tx V A :=
  λ store w, (Commit s store, w).

(** A request with its [onsuccess] and [onerror] handlers.  [onerror] gives
    the error the handler rejects with, from the message of
    [request.error]. *)
Definition request {V A B}
    (r : ObjectStore V → A * ObjectStore V)
    (onsuccess : A → Tx V B)
    (onerror : option string → JsError) : Tx V B :=
  λ store w,
    let '(o, w1) := next_outcome w in
    match o with
    | Success => let '(a, store') := r store in onsuccess a store' w1
    | Failure m => (Abort (onerror m), w1)
    end.

(** a clock reading taken by the code of a transaction *)
Definition reading {V A} (k : Timestamp → Tx V A) : Tx V A :=
  λ store w, let '(t, w1) := new_Date w in k t store w1.

(** The object store a transaction is scoped to. *)
Record StoreRef (V : Type) := mkRef {
  storeName : string;
  get_store : Database → option (ObjectStore V);
  set_store : ObjectStore V → Database → Database
}.
Arguments storeName {V} _.
Arguments get_store {V} _ _.
Arguments set_store {V} _ _ _.

Definition groupsRef : StoreRef ImageGroup.t :=
  mkRef _ "groups" groups (λ s db, mkDatabase (Some s) (images db)).

Definition imagesRef : StoreRef StoredImage.t :=
  mkRef _ "images" images (λ s db, mkDatabase (groups db) (Some s)).

Definition log_transaction (tx : TxRecord) (w : World) : World :=
  mkWorld (database w) (opened w) (tx :: txlog w) (now w) (ticks w)
          (outcomes w).

(** [db.transaction([name], mode)] with [transaction.objectStore(name)] and
    the code that runs in it.  A missing store makes [db.transaction] throw
    inside the promise's executor, which rejects the promise.  Only a
    read-write transaction that commits changes the store. *)
Definition transaction {V A} (db : IDBDatabase) (ref : StoreRef V)
    (mode : Mode) (body : Tx V A) : Promise A :=
  λ w,
    match get_store ref (stores w) with
    | None => (Rejected (DOMException "NotFoundError"), w)
    | Some store =>
        match body store (log_transaction (mkTx db (storeName ref) mode) w) with
        | (Commit s store', w') =>
            (s, match mode with
                | ReadWrite => set_database (set_store ref store' (stores w')) w'
                | ReadOnly => w'
                end)
        | (Abort e, w') => (Rejected e, w')
        end
    end.

(** ** Database connection (lines 88-125) *)

(** [request.onupgradeneeded]: each store is created unless the database
    has it.  The indexes ('name' on groups, 'groupId' on images) hold no
    data of their own; [IDB.matching] computes their entries from the
    records. *)
Definition onupgradeneeded (db : Database) : Database :=
  let db1 :=
    if groups db is Some _ then db
    else mkDatabase (Some createObjectStore) (images db) in
  if images db1 is Some _ then db1
  else mkDatabase (groups db1) (Some createObjectStore).

(** [indexedDB.open(DB_NAME, DB_VERSION)]: the engine upgrades a database
    whose version is below [DB_VERSION], and makes a new connection. *)
Definition openDB : Promise IDBDatabase :=
  λ w,
    let '(o, w1) := next_outcome w in
    match o with
    | Failure m =>
        (Rejected (Error ("Database failed to open: " +:+ error_message m)), w1)
    | Success =>
        let db :=
          if (version w1 <? DB_VERSION)%nat
          then onupgradeneeded (stores w1) else stores w1 in
        (Resolved (opened w1),
         mkWorld (Some db) (S (opened w1)) (txlog w1) (now w1) (ticks w1)
                 (outcomes w1))
    end.

(** ** Group operations (lines 147-323) *)

Definition group_with_key (key : Z) (g : GroupInput.t) : ImageGroup.t :=
  ImageGroup.mk key (GroupInput.name g) (GroupInput.createdAt g)
                (GroupInput.updatedAt g).

Definition createGroup (name : string) : Promise Z :=
  await db ← openDB ;;
  transaction db groupsRef ReadWrite
    (reading (λ createdAt,
     reading (λ updatedAt,
       let group := GroupInput.mk name createdAt updatedAt in
       request (add group_with_key group)
         (λ result, settle (Resolved result))
         (λ m, Error ("Failed to create group: " +:+ error_message m))))).

Definition getAllGroups : Promise (list ImageGroup.t) :=
  await db ← openDB ;;
  transaction db groupsRef ReadOnly
    (request getAll
       (λ result, settle (Resolved result))
       (λ m, Error ("Failed to get groups: " +:+ error_message m))).

(** The result is [null] ([None]) when there is no record. *)
Definition getGroup (id : Z) : Promise (option ImageGroup.t) :=
  await db ← openDB ;;
  transaction db groupsRef ReadOnly
    (request (get id)
       (λ result, settle (Resolved result))
       (λ m, Error ("Failed to get group: " +:+ error_message m))).

Definition renameGroup (groupId : Z) (newName : string) : Promise unit :=
  await db ← openDB ;;
  transaction db groupsRef ReadWrite
    (request (get groupId)
       (λ group,
          match group with
          | None =>
              settle (Rejected
                (Error ("Group with ID " +:+ pretty groupId +:+ " not found")))
          | Some group =>
              reading (λ updatedAt,
                let group :=
                  ImageGroup.mk (ImageGroup.id group) newName
                                (ImageGroup.createdAt group) updatedAt in
                request (put ImageGroup.id group)
                  (λ _, settle (Resolved tt))
                  (λ m, Error ("Failed to rename group: " +:+ error_message m)))
          end)
       (λ m, Error ("Failed to get group: " +:+ error_message m))).

(** ** Image operations (lines 348-528) *)

Definition image_with_key (key : Z) (i : ImageInput.t) : StoredImage.t :=
  StoredImage.mk key (ImageInput.groupId i) (ImageInput.name i)
                 (ImageInput.blob i) (ImageInput.createdAt i).

Definition addImage (groupId : Z) (name : string) (blob : Blob.t)
  : Promise Z :=
  await db ← openDB ;;
  transaction db imagesRef ReadWrite
    (reading (λ createdAt,
       let image := ImageInput.mk groupId name blob createdAt in
       request (add image_with_key image)
         (λ result, settle (Resolved result))
         (λ m, Error ("Failed to add image: " +:+ error_message m)))).

Definition getImagesByGroup (groupId : Z) : Promise (list StoredImage.t) :=
  await db ← openDB ;;
  transaction db imagesRef ReadOnly
    (request (index_getAll StoredImage.groupId groupId)
       (λ result, settle (Resolved result))
       (λ m, Error ("Failed to get images: " +:+ error_message m))).

Definition renameImage (imageId : Z) (newName : string) : Promise unit :=
  await db ← openDB ;;
  transaction db imagesRef ReadWrite
    (request (get imageId)
       (λ image,
          match image with
          | None =>
              settle (Rejected
                (Error ("Image with ID " +:+ pretty imageId +:+ " not found")))
          | Some image =>
              let image :=
                StoredImage.mk (StoredImage.id image) (StoredImage.groupId image)
                               newName (StoredImage.blob image)
                               (StoredImage.createdAt image) in
              request (put StoredImage.id image)
                (λ _, settle (Resolved tt))
                (λ m, Error ("Failed to rename image: " +:+ error_message m))
          end)
       (λ m, Error ("Failed to get image: " +:+ error_message m))).

Definition deleteImage (imageId : Z) : Promise unit :=
  await db ← openDB ;;
  transaction db imagesRef ReadWrite
    (request (delete imageId)
       (λ _, settle (Resolved tt))
       (λ m, Error ("Failed to delete image: " +:+ error_message m))).

(** The [onsuccess] handler of the cursor request, once per position of the
    cursor: [cursor.delete(); cursor.continue()] while there is a record,
    [resolve()] when the cursor is [null].  [cursor.delete()] is a request
    without handlers: when it fails, the engine aborts the transaction and
    gives the pending cursor request the error, which [onerror] receives. *)
Fixpoint cursor_onsuccess (onerror : option string → JsError)
    (range : list Z) : Tx StoredImage.t unit :=
  match range with
  | [] => settle (Resolved tt)
  | primaryKey :: rest =>
      request (cursor_delete primaryKey)
        (λ _, request cursor_continue
                (λ _, cursor_onsuccess onerror rest)
                onerror)
        onerror
  end.

Definition deleteImagesByGroup (groupId : Z) : Promise unit :=
  await db ← openDB ;;
  let onerror m := Error ("Failed to delete images: " +:+ error_message m) in
  transaction db imagesRef ReadWrite
    (request (index_openCursor StoredImage.groupId groupId)
       (cursor_onsuccess onerror)
       onerror).

(** [deleteGroup] is declared before the image operations in db.ts
    (lines 303-323).  [deleteGroupRow] is the promise it returns at lines
    310-322, once the images are deleted: the delete of the group's row, on
    the connection opened at line 304. *)
Definition deleteGroupRow (db : IDBDatabase) (groupId : Z) : Promise unit :=
  transaction db groupsRef ReadWrite
    (request (delete groupId)
       (λ _, settle (Resolved tt))
       (λ m, Error ("Failed to delete group: " +:+ error_message m))).

Definition deleteGroup (groupId : Z) : Promise unit :=
  await db ← openDB ;;
  await _ ← deleteImagesByGroup groupId ;;
  deleteGroupRow db groupId.

(** ** The interface exposed to the UI layer *)

Inductive Call :=
| CreateGroup (name : string)
| GetAllGroups
| GetGroup (id : Z)
| RenameGroup (groupId : Z) (newName : string)
| DeleteGroup (groupId : Z)
| AddImage (groupId : Z) (name : string) (blob : Blob.t)
| GetImagesByGroup (groupId : Z)
| RenameImage (imageId : Z) (newName : string)
| DeleteImage (imageId : Z).

(** ** Worlds to run the operations in *)

(** A fresh browser profile: no database, no connection, an engine that
    fails nothing, a clock that stands still at 0. *)
Definition fresh : World := mkWorld None 0 [] 0 [] [].

Definition run {A} (p : Promise A) (w : World) : World := (p w).2.
Definition result {A} (p : Promise A) (w : World) : Settled A := (p w).1.

(** The world after a call, whatever its result. *)
Definition perform (c : Call) : World → World :=
  match c with
  | CreateGroup name => run (createGroup name)
  | GetAllGroups => run getAllGroups
  | GetGroup id => run (getGroup id)
  | RenameGroup groupId newName => run (renameGroup groupId newName)
  | DeleteGroup groupId => run (deleteGroup groupId)
  | AddImage groupId name blob => run (addImage groupId name blob)
  | GetImagesByGroup groupId => run (getImagesByGroup groupId)
  | RenameImage imageId newName => run (renameImage imageId newName)
  | DeleteImage imageId => run (deleteImage imageId)
  end.

(** The worlds the interface can be in: it starts without a database, calls
    are made, and between calls the environment changes the clock and the
    engine's schedule, not the database. *)
Inductive reachable : World → Prop :=
| reachable_start w : database w = None → reachable w
| reachable_call c w : reachable w → reachable (perform c w)
| reachable_env w w' : reachable w → database w' = database w → reachable w'.

(** A call that respects what the UI layer is expected to check: an image
    is added under the id of an existing group. *)
Definition expected_call (w : World) (c : Call) : Prop :=
  match c with
  | AddImage groupId _ _ => is_Some (groupRecords w !! groupId)
  | _ => True
  end.

Definition jpeg : Blob.t := Blob.mk [] "image/jpeg".

(** Scenario A of the specification: group "Trip" with images "a.jpg" and
    "b.jpg", made in a fresh profile. *)
Definition trip : World :=
  Eval vm_compute in
    perform (AddImage 1 "b.jpg" jpeg)
      (perform (AddImage 1 "a.jpg" jpeg)
         (perform (CreateGroup "Trip") fresh)).

(** The same world with an engine that fails the [n]-th request to come
    (counted from 0), without a message. *)
Definition failing (n : nat) (w : World) : World :=
  mkWorld (database w) (opened w) (txlog w) (now w) (ticks w)
          (replicate n Success ++ [Failure None]).

(** The same world with a clock that advances by the given milliseconds
    before its next readings. *)
Definition ticking (elapsed : list nat) (w : World) : World :=
  mkWorld (database w) (opened w) (txlog w) (now w) elapsed (outcomes w).

(** The world after the engine took [n] outcomes from the schedule. *)
Definition consume (n : nat) (w : World) : World :=
  mkWorld (database w) (opened w) (txlog w) (now w) (ticks w)
          (drop n (outcomes w)).

(** ** Well-formed worlds

    What the engine maintains in a store with an in-line key and a key
    generator: a record holds its primary key at the key path, and the
    generator is above every key in use.  The database, once it exists, has
    both stores: the only code that creates it is [onupgradeneeded]. *)

Definition store_wf {V} (keyPath : V → Z) (s : ObjectStore V) : Prop :=
  map_Forall (λ k v, keyPath v = k ∧ k < keyGenerator s) (records s).

Definition Database_wf (db : Database) : Prop :=
  match groups db, images db with
  | Some g, Some i => store_wf ImageGroup.id g ∧ store_wf StoredImage.id i
  | _, _ => False
  end.

Definition World_wf (w : World) : Prop :=
  match database w with
  | Some db => Database_wf db
  | None => True
  end.

(** The invariant of the data model: the [groupId] of every image is the
    key of a group. *)
Definition refers (gs : gmap Z ImageGroup.t) (ims : gmap Z StoredImage.t)
  : Prop :=
  map_Forall (λ _ image, is_Some (gs !! StoredImage.groupId image)) ims.

Definition referential_integrity (w : World) : Prop :=
  refers (groupRecords w) (imageRecords w).

(** The engine fails none of the requests to come. *)
Definition healthy (w : World) : Prop := Forall (eq Success) (outcomes w).

#[global] Instance Outcome_eq_dec : EqDecision Outcome.
Proof. solve_decision. Defined.

#[global] Instance store_wf_dec {V} (keyPath : V → Z) (s : ObjectStore V) :
  Decision (store_wf keyPath s).
Proof. unfold store_wf. apply _. Defined.

#[global] Instance Database_wf_dec (db : Database) : Decision (Database_wf db).
Proof.
  unfold Database_wf. destruct (groups db), (images db); apply _.
Defined.

#[global] Instance World_wf_dec (w : World) : Decision (World_wf w).
Proof. unfold World_wf. destruct (database w); apply _. Defined.

#[global] Instance healthy_dec (w : World) : Decision (healthy w).
Proof. unfold healthy. apply _. Defined.

#[global] Instance referential_integrity_dec (w : World) :
  Decision (referential_integrity w).
Proof. unfold referential_integrity, refers. apply _. Defined.

(** ** The context provider (contexts/ImageGalleryContext.tsx)

    The provider keeps six pieces of React state and gives the components
    seven actions that call the service.  An action is a function of the
    provider's state and the world; [setX(v)] replaces a piece of state.  An
    action is run from a settled render, with no other action under way, so
    the state an action's closure captured is the state it starts in. *)

Module Context.
Record State := mkState {
  groups : list ImageGroup.t;
  selectedGroupId : option Z;
  images : list StoredImage.t;
  isLoadingGroups : bool;
  isLoadingImages : bool;
  error : option string
}.
End Context.

(** The arguments of the six [useState] (lines 601-606 of the file that
    holds the provider). *)
Definition initialState : Context.State :=
  Context.mkState [] None [] false false None.

Definition setGroups (v : list ImageGroup.t) (st : Context.State)
  : Context.State :=
  Context.mkState v (Context.selectedGroupId st) (Context.images st)
    (Context.isLoadingGroups st) (Context.isLoadingImages st)
    (Context.error st).

Definition setSelectedGroupId (v : option Z) (st : Context.State)
  : Context.State :=
  Context.mkState (Context.groups st) v (Context.images st)
    (Context.isLoadingGroups st) (Context.isLoadingImages st)
    (Context.error st).

Definition setImages (v : list StoredImage.t) (st : Context.State)
  : Context.State :=
  Context.mkState (Context.groups st) (Context.selectedGroupId st) v
    (Context.isLoadingGroups st) (Context.isLoadingImages st)
    (Context.error st).

Definition setIsLoadingGroups (v : bool) (st : Context.State)
  : Context.State :=
  Context.mkState (Context.groups st) (Context.selectedGroupId st)
    (Context.images st) v (Context.isLoadingImages st) (Context.error st).

Definition setIsLoadingImages (v : bool) (st : Context.State)
  : Context.State :=
  Context.mkState (Context.groups st) (Context.selectedGroupId st)
    (Context.images st) (Context.isLoadingGroups st) v (Context.error st).

Definition setError (v : option string) (st : Context.State)
  : Context.State :=
  Context.mkState (Context.groups st) (Context.selectedGroupId st)
    (Context.images st) (Context.isLoadingGroups st)
    (Context.isLoadingImages st) v.

(** An [async] function of the provider: how its promise settles, the state
    and the world it leaves. *)
Definition Action (A : Type) : Type :=
  Context.State → World → Settled A * Context.State * World.

Definition pure {A} (a : A) : Action A := λ st w, (Resolved a, st, w).

(** [throw err] *)
Definition throw {A} (err : JsError) : Action A :=
  λ st w, (Rejected err, st, w).

(** a call of a [setX] *)
Definition update (f : Context.State → Context.State) : Action unit :=
  λ st w, (Resolved tt, f st, w).

(** [await p] for a promise of the service *)
Definition service {A} (p : Promise A) : Action A :=
  λ st w, let '(r, w') := p w in (r, st, w').

Definition andAfter {A B} (a : Action A) (k : A → Action B) : Action B :=
  λ st w,
    match a st w with
    | (Resolved x, st', w') => k x st' w'
    | (Rejected err, st', w') => (Rejected err, st', w')
    end.

Notation "'after' x ← a ;; k" := (andAfter a (λ x, k))
  (at level 100, x name, a at next level, right associativity,
   format "'after'  x  ←  a  ;;  '/' k").

(** [try { body } catch (err) { handler }] *)
Definition try_catch {A} (body : Action A) (handler : JsError → Action A)
  : Action A :=
  λ st w,
    match body st w with
    | (Resolved x, st', w') => (Resolved x, st', w')
    | (Rejected err, st', w') => handler err st' w'
    end.

(** [try { body } finally { last }] *)
Definition try_finally {A} (body : Action A) (last : Action unit)
  : Action A :=
  λ st w,
    let '(r, st', w') := body st w in
    match last st' w' with
    | (Resolved _, st'', w'') => (r, st'', w'')
    | (Rejected err, st'', w'') => (Rejected err, st'', w'')
    end.

Section provider.
(** the message the browser gives a [DOMException] of a given name *)
Variable exceptionMessage : string → string.

(** [err instanceof Error ? err.message : fallback].  Every value the
    service rejects with is an instance of [Error], a [DOMException]
    included. *)
Definition errorMessage (err : JsError) (fallback : string) : string :=
  match err with
  | Error message => message
  | DOMException name => exceptionMessage name
  end.

(** lines 611-624; [console.error] leaves no trace in the state *)
Definition loadGroups : Action unit :=
  after _ ← update (setIsLoadingGroups true) ;;
  after _ ← update (setError None) ;;
  try_finally
    (try_catch
       (after allGroups ← service getAllGroups ;;
        update (setGroups allGroups))
       (λ err,
          update (setError (Some (errorMessage err "Failed to load groups")))))
    (update (setIsLoadingGroups false)).

(** lines 629-642 *)
Definition loadImages (groupId : Z) : Action unit :=
  after _ ← update (setIsLoadingImages true) ;;
  after _ ← update (setError None) ;;
  try_finally
    (try_catch
       (after groupImages ← service (getImagesByGroup groupId) ;;
        update (setImages groupImages))
       (λ err,
          update (setError (Some (errorMessage err "Failed to load images")))))
    (update (setIsLoadingImages false)).

(** The effect on mount (lines 647-649). *)
Definition mountEffect : Action unit := loadGroups.

(** The effect that runs when [selectedGroupId] has changed (lines
    654-660). *)
Definition selectionEffect : Action unit :=
  λ st,
    match Context.selectedGroupId st with
    | Some selectedGroupId => loadImages selectedGroupId st
    | None => update (setImages []) st
    end.

(** lines 665-667 *)
Definition selectGroup (groupId : option Z) : Action unit :=
  update (setSelectedGroupId groupId).

(** lines 672-684 *)
Definition createNewGroup (name : string) : Action unit :=
  after _ ← update (setError None) ;;
  try_catch
    (after newGroupId ← service (createGroup name) ;;
     after _ ← loadGroups ;;
     update (setSelectedGroupId (Some newGroupId)))
    (λ err,
       after _ ← update
         (setError (Some (errorMessage err "Failed to create group"))) ;;
       throw err).

(** lines 689-699 *)
Definition renameExistingGroup (groupId : Z) (newName : string)
  : Action unit :=
  after _ ← update (setError None) ;;
  try_catch
    (after _ ← service (renameGroup groupId newName) ;;
     loadGroups)
    (λ err,
       after _ ← update
         (setError (Some (errorMessage err "Failed to rename group"))) ;;
       throw err).

(** lines 704-719; [selectedGroupId] is the one of the render that made the
    callback *)
Definition deleteExistingGroup (groupId : Z) : Action unit :=
  λ st,
    let selectedGroupId := Context.selectedGroupId st in
    (after _ ← update (setError None) ;;
     try_catch
       (after _ ← service (deleteGroup groupId) ;;
        after _ ← loadGroups ;;
        if decide (selectedGroupId = Some groupId)
        then update (setSelectedGroupId None)
        else pure tt)
       (λ err,
          after _ ← update
            (setError (Some (errorMessage err "Failed to delete group"))) ;;
          throw err)) st.

(** lines 724-734 *)
Definition addImageToGroup (groupId : Z) (name : string) (blob : Blob.t)
  : Action unit :=
  after _ ← update (setError None) ;;
  try_catch
    (after _ ← service (addImage groupId name blob) ;;
     loadImages groupId)
    (λ err,
       after _ ← update
         (setError (Some (errorMessage err "Failed to add image"))) ;;
       throw err).

(** lines 739-751 *)
Definition renameExistingImage (imageId : Z) (newName : string)
  : Action unit :=
  λ st,
    let selectedGroupId := Context.selectedGroupId st in
    (after _ ← update (setError None) ;;
     try_catch
       (after _ ← service (renameImage imageId newName) ;;
        match selectedGroupId with
        | Some selectedGroupId => loadImages selectedGroupId
        | None => pure tt
        end)
       (λ err,
          after _ ← update
            (setError (Some (errorMessage err "Failed to rename image"))) ;;
          throw err)) st.

(** lines 756-768 *)
Definition deleteExistingImage (imageId : Z) : Action unit :=
  λ st,
    let selectedGroupId := Context.selectedGroupId st in
    (after _ ← update (setError None) ;;
     try_catch
       (after _ ← service (deleteImage imageId) ;;
        match selectedGroupId with
        | Some selectedGroupId => loadImages selectedGroupId
        | None => pure tt
        end)
       (λ err,
          after _ ← update
            (setError (Some (errorMessage err "Failed to delete image"))) ;;
          throw err)) st.

(** An action followed by the effect it triggers: React runs
    [selectionEffect] after an action that changed [selectedGroupId]. *)
Definition withEffects {A} (a : Action A) : Action A :=
  λ st w,
    let '(r, st1, w1) := a st w in
    if decide (Context.selectedGroupId st1 = Context.selectedGroupId st)
    then (r, st1, w1)
    else let '(_, st2, w2) := selectionEffect st1 w1 in (r, st2, w2).

(** The provider once mounted: both effects have run, once each. *)
Definition mounted (w : World) : Context.State * World :=
  let '(_, st1, w1) := mountEffect initialState w in
  let '(_, st2, w2) := selectionEffect st1 w1 in
  (st2, w2).
End provider.

(** The actions the provider gives the components. *)
Inductive Event :=
| SelectGroup (groupId : option Z)
| CreateNewGroup (name : string)
| RenameExistingGroup (groupId : Z) (newName : string)
| DeleteExistingGroup (groupId : Z)
| AddImageToGroup (groupId : Z) (name : string) (blob : Blob.t)
| RenameExistingImage (imageId : Z) (newName : string)
| DeleteExistingImage (imageId : Z).

Definition action (exceptionMessage : string → string) (ev : Event)
  : Action unit :=
  match ev with
  | SelectGroup groupId => selectGroup groupId
  | CreateNewGroup name => createNewGroup exceptionMessage name
  | RenameExistingGroup groupId newName =>
      renameExistingGroup exceptionMessage groupId newName
  | DeleteExistingGroup groupId =>
      deleteExistingGroup exceptionMessage groupId
  | AddImageToGroup groupId name blob =>
      addImageToGroup exceptionMessage groupId name blob
  | RenameExistingImage imageId newName =>
      renameExistingImage exceptionMessage imageId newName
  | DeleteExistingImage imageId =>
      deleteExistingImage exceptionMessage imageId
  end.

(** The state and the world once an action and its effect are over. *)
Definition dispatch (exceptionMessage : string → string) (ev : Event)
    (st : Context.State) (w : World) : Context.State * World :=
  let '(_, st', w') :=
    withEffects exceptionMessage (action exceptionMessage ev) st w in
  (st', w').

(** ** Observations on a world and on a call *)

(** The key the next [add] to a store will generate; a store that does not
    exist yet will be created with its generator at 1. *)
Definition nextGroupId (w : World) : Z :=
  match groups (stores w) with Some s => keyGenerator s | None => 1 end.

Definition nextImageId (w : World) : Z :=
  match images (stores w) with Some s => keyGenerator s | None => 1 end.

(** Calls made one after the other. *)
Definition perform_all (calls : list Call) (w : World) : World :=
  foldl (λ w c, perform c w) w calls.

(** Every call of a sequence is an [expected_call] in the world it is made
    in. *)
Fixpoint expected_calls (w : World) (calls : list Call) : Prop :=
  match calls with
  | [] => True
  | c :: calls => expected_call w c ∧ expected_calls (perform c w) calls
  end.

Definition reason_of {A} (s : Settled A) : option JsError :=
  match s with
  | Resolved _ => None
  | Rejected e => Some e
  end.

(** The error a call rejects with, if it rejects. *)
Definition rejection (c : Call) (w : World) : option JsError :=
  match c with
  | CreateGroup name => reason_of (result (createGroup name) w)
  | GetAllGroups => reason_of (result getAllGroups w)
  | GetGroup id => reason_of (result (getGroup id) w)
  | RenameGroup groupId newName =>
      reason_of (result (renameGroup groupId newName) w)
  | DeleteGroup groupId => reason_of (result (deleteGroup groupId) w)
  | AddImage groupId name blob =>
      reason_of (result (addImage groupId name blob) w)
  | GetImagesByGroup groupId =>
      reason_of (result (getImagesByGroup groupId) w)
  | RenameImage imageId newName =>
      reason_of (result (renameImage imageId newName) w)
  | DeleteImage imageId => reason_of (result (deleteImage imageId) w)
  end.

(** The texts that the [onerror] handlers of a call put before the engine's
    message. *)
Definition failure_prefixes (c : Call) : list string :=
  match c with
  | CreateGroup _ => ["Failed to create group: "]
  | GetAllGroups => ["Failed to get groups: "]
  | GetGroup _ => ["Failed to get group: "]
  | RenameGroup _ _ => ["Failed to get group: "; "Failed to rename group: "]
  | DeleteGroup _ => ["Failed to delete images: "; "Failed to delete group: "]
  | AddImage _ _ _ => ["Failed to add image: "]
  | GetImagesByGroup _ => ["Failed to get images: "]
  | RenameImage _ _ => ["Failed to get image: "; "Failed to rename image: "]
  | DeleteImage _ => ["Failed to delete image: "]
  end.

(** The error of a rename whose record is missing. *)
Definition not_found (c : Call) (w : World) : option JsError :=
  match c with
  | RenameGroup groupId _ =>
      if groupRecords w !! groupId is None
      then Some (Error ("Group with ID " +:+ pretty groupId +:+ " not found"))
      else None
  | RenameImage imageId _ =>
      if imageRecords w !! imageId is None
      then Some (Error ("Image with ID " +:+ pretty imageId +:+ " not found"))
      else None
  | _ => None
  end.

(** The calls that only read. *)
Definition reads_only (c : Call) : bool :=
  match c with
  | GetAllGroups | GetGroup _ | GetImagesByGroup _ => true
  | _ => false
  end.

(** The calls that work on the images store alone. *)
Definition on_images (c : Call) : bool :=
  match c with
  | AddImage _ _ _ | GetImagesByGroup _ | RenameImage _ _ | DeleteImage _ =>
      true
  | _ => false
  end.

(** The calls that work on the groups store alone. *)
Definition on_groups (c : Call) : bool :=
  match c with
  | CreateGroup _ | GetAllGroups | GetGroup _ | RenameGroup _ _ => true
  | _ => false
  end.

(** What [index.getAll(groupId)] returns on an images store with the given
    records: the images of the group, in ascending order of id. *)
Definition listed (groupId : Z) (ims : gmap Z StoredImage.t)
  : list StoredImage.t :=
  (index_getAll StoredImage.groupId groupId (mkStore ims 1)).1.

(** An image under a new name, as [renameImage] writes it. *)
Definition renamed (newName : string) (image : StoredImage.t)
  : StoredImage.t :=
  StoredImage.mk (StoredImage.id image) (StoredImage.groupId image) newName
                 (StoredImage.blob image) (StoredImage.createdAt image).

(** Keys start at 1: every id in use, and every id to come, is positive. *)
Definition positive_ids (w : World) : Prop :=
  1 ≤ nextGroupId w ∧ 1 ≤ nextImageId w
  ∧ map_Forall (λ k _, 1 ≤ k) (groupRecords w)
  ∧ map_Forall (λ k _, 1 ≤ k) (imageRecords w).

(** What [store.getAll()] returns on a groups store with the given records:
    the groups in ascending order of id. *)
Definition listedGroups (gs : gmap Z ImageGroup.t) : list ImageGroup.t :=
  (getAll (mkStore gs 1)).1.

(** The provider's state shows what the database holds: all the groups,
    and the images of the selected group. *)
Definition mirrors (st : Context.State) (w : World) : Prop :=
  Context.groups st = listedGroups (groupRecords w)
  ∧ Context.images st
    = match Context.selectedGroupId st with
      | Some selectedGroupId => listed selectedGroupId (imageRecords w)
      | None => []
      end.

(** The state and the world after a sequence of actions, each one over,
    with its effect, before the next starts. *)
Definition dispatch_all (exceptionMessage : string → string)
    (evs : list Event) (p : Context.State * World) : Context.State * World :=
  foldl (λ p ev, dispatch exceptionMessage ev p.1 p.2) p evs.

(** An image is added to the group that is selected. *)
Definition adds_to_selection (ev : Event) (st : Context.State) : Prop :=
  match ev with
  | AddImageToGroup groupId _ _ => Context.selectedGroupId st = Some groupId
  | _ => True
  end.

(** Along a sequence of actions, every image is added to the group that is
    selected when it is added. *)
Fixpoint adds_to_selected (exceptionMessage : string → string)
    (evs : list Event) (p : Context.State * World) : Prop :=
  match evs with
  | [] => True
  | ev :: evs =>
      adds_to_selection ev p.1
      ∧ adds_to_selected exceptionMessage evs
          (dispatch exceptionMessage ev p.1 p.2)
  end.

(** ** The components (components/GroupList.tsx, components/ImageGallery.tsx)

    The handlers of the components that validate what the user typed or
    dropped before they call an action of the provider.  A handler is run
    from a settled render, like an action; [alert] shows a text and changes
    nothing. *)
Module GroupList.
Record State := mkState {
  isExpanded : bool;
  newGroupName : string;
  isCreating : bool;
  previewGroupId : option Z;
  previewImages : list StoredImage.t
}.
End GroupList.

Module GroupCard.
Record State := mkState {
  isRenaming : bool;
  newName : string
}.
End GroupCard.

(** What a handler of a component leaves: the state of the component, the
    alerts it has shown, the state of the provider and the world. *)
Definition Handled (S : Type) : Type :=
  S * list string * Context.State * World.

Section components.
Variable exceptionMessage : string → string.
(** [String.prototype.trim] *)
Variable trim : string → string.

(** [handleCreateGroup] of GroupList.tsx (lines 55-71); [!trimmedName] holds
    of the empty string only. *)
Definition handleCreateGroup (c : GroupList.State) (st : Context.State)
    (w : World) : Handled GroupList.State :=
  let trimmedName := trim (GroupList.newGroupName c) in
  if decide (trimmedName = EmptyString)
  then (c, ["Please enter a group name"], st, w)
  else
    match withEffects exceptionMessage
            (createNewGroup exceptionMessage trimmedName) st w with
    | (Resolved _, st', w') =>
        (GroupList.mkState (GroupList.isExpanded c) EmptyString false
           (GroupList.previewGroupId c) (GroupList.previewImages c),
         [], st', w')
    | (Rejected error, st', w') =>
        (c,
         ["Failed to create group: "
          +:+ errorMessage exceptionMessage error EmptyString],
         st', w')
    end.

(** [handleRename] of [GroupCard] (GroupList.tsx, lines 300-322), with the
    [onRename] that [GroupList] gives the card of [group] (line 232). *)
Definition handleRename (group : ImageGroup.t) (c : GroupCard.State)
    (st : Context.State) (w : World) : Handled GroupCard.State :=
  let trimmedName := trim (GroupCard.newName c) in
  if decide (trimmedName = EmptyString)
  then (c, ["Please enter a group name"], st, w)
  else if decide (trimmedName = ImageGroup.name group)
  then (GroupCard.mkState false (GroupCard.newName c), [], st, w)
  else
    match withEffects exceptionMessage
            (renameExistingGroup exceptionMessage (ImageGroup.id group)
               trimmedName) st w with
    | (Resolved _, st', w') =>
        (GroupCard.mkState false (GroupCard.newName c), [], st', w')
    | (Rejected error, st', w') =>
        (GroupCard.mkState (GroupCard.isRenaming c) (ImageGroup.name group),
         ["Failed to rename group: "
          +:+ errorMessage exceptionMessage error EmptyString],
         st', w')
    end.

(** [handleImageFile] of ImageGallery.tsx (lines 81-99); [groupId] is the
    [selectedGroupId] of the provider, and [!groupId] holds of [null] and
    of 0.  [fileName] is the name of the file when it is a [File]. *)
Definition handleImageFile (file : Blob.t) (fileName : option string)
    (customName : option string) (st : Context.State) (w : World)
  : Handled unit :=
  match Context.selectedGroupId st with
  | None => (tt, ["Please select a group first"], st, w)
  | Some groupId =>
      if decide (groupId = 0)
      then (tt, ["Please select a group first"], st, w)
      else if negb (String.prefix "image/" (Blob.type file))
      then (tt, ["Please select a valid image file"], st, w)
      else
        let name :=
          match customName with
          | Some custom =>
              if decide (custom = EmptyString)
              then default "image.jpg" fileName
              else custom
          | None => default "image.jpg" fileName
          end in
        match withEffects exceptionMessage
                (addImageToGroup exceptionMessage groupId name file) st w with
        | (Resolved _, st', w') => (tt, [], st', w')
        | (Rejected error, st', w') =>
            (tt,
             ["Failed to add image: "
              +:+ errorMessage exceptionMessage error EmptyString],
             st', w')
        end
  end.
End components.

(** Every group has a name. *)
Definition named (w : World) : Prop :=
  map_Forall (λ _ group, ImageGroup.name group ≠ EmptyString)
             (groupRecords w).

(** The names that an action writes are not empty. *)
Definition names_given (ev : Event) : Prop :=
  match ev with
  | CreateNewGroup name => name ≠ EmptyString
  | RenameExistingGroup _ newName => newName ≠ EmptyString
  | _ => True
  end.

(** For the examples: a browser whose exceptions carry their name as
    message, and a [trim] that removes the blanks of ASCII. *)
Definition browserMessage (name : string) : string := name.

Definition isBlank (a : Ascii.ascii) : bool :=
  let n := Ascii.nat_of_ascii a in
  ((n =? 32) || ((9 <=? n) && (n <=? 13)))%nat.

Fixpoint trimStart (s : string) : string :=
  match s with
  | String a s' => if isBlank a then trimStart s' else s
  | EmptyString => EmptyString
  end.

Definition trimBlanks (s : string) : string :=
  String.rev (trimStart (String.rev (trimStart s))).

(** * Properties *)

(** ** The engine's enumeration of a store *)

Lemma StronglySorted_filter {A} (R : relation A) (P : A → Prop)
    `{!∀ x, Decision (P x)} (l : list A) :
  StronglySorted R l → StronglySorted R (filter P l).
Proof.
  induction 1 as [|a l Hl IH Ha]; [constructor|].
  rewrite filter_cons. case_decide; [|done].
  constructor; [done|]. rewrite Forall_forall in Ha |- *.
  intros x [_ Hx]%list_elem_of_filter. by apply Ha.
Qed.

Section store_facts.
Context {V : Type}.
Implicit Types (s : ObjectStore V) (k key : Z) (v : V).

Lemma elem_of_entries s k v :
  (k, v) ∈ entries s ↔ records s !! k = Some v.
Proof.
  unfold entries. rewrite merge_sort_Permutation.
  apply elem_of_map_to_list.
Qed.

Lemma NoDup_entries s : NoDup (entries s).*1.
Proof.
  unfold entries. rewrite merge_sort_Permutation.
  apply NoDup_fst_map_to_list.
Qed.

#[local] Instance key_le_total : Total (@key_le V).
Proof. intros a b. unfold key_le. lia. Qed.

#[local] Instance key_le_trans : Transitive (@key_le V).
Proof. intros a b c. unfold key_le. lia. Qed.

(** The enumeration is in ascending order of primary key. *)
Lemma entries_ascending s : StronglySorted key_le (entries s).
Proof. apply StronglySorted_merge_sort; apply _. Qed.

Section index_facts.
Variable indexPath : V → Z.

Lemma elem_of_matching key s k v :
  (k, v) ∈ matching indexPath key s
  ↔ records s !! k = Some v ∧ indexPath v = key.
Proof.
  unfold matching. rewrite list_elem_of_filter, elem_of_entries.
  simpl. tauto.
Qed.

Lemma NoDup_matching key s : NoDup (matching indexPath key s).*1.
Proof.
  apply (sublist_NoDup _ (entries s).*1).
  - apply NoDup_entries.
  - apply fmap_sublist, sublist_filter.
Qed.

Lemma matching_ascending key s :
  StronglySorted key_le (matching indexPath key s).
Proof. apply StronglySorted_filter, entries_ascending. Qed.

Lemma elem_of_index_getAll key s v :
  v ∈ (index_getAll indexPath key s).1
  ↔ ∃ k, records s !! k = Some v ∧ indexPath v = key.
Proof.
  simpl. rewrite list_elem_of_fmap. split.
  - intros ([k v'] & -> & Hin). apply elem_of_matching in Hin. eauto.
  - intros (k & Hk & Hv). exists (k, v). split; [done|].
    by apply elem_of_matching.
Qed.

Lemma elem_of_index_openCursor key s k :
  k ∈ (index_openCursor indexPath key s).1
  ↔ ∃ v, records s !! k = Some v ∧ indexPath v = key.
Proof.
  simpl. rewrite list_elem_of_fmap. split.
  - intros ([k' v] & -> & Hin). apply elem_of_matching in Hin. eauto.
  - intros (v & Hk & Hv). exists (k, v). split; [done|].
    by apply elem_of_matching.
Qed.

Lemma index_getAll_nil key s :
  (∀ k v, records s !! k = Some v → indexPath v ≠ key) →
  (index_getAll indexPath key s).1 = [].
Proof.
  intros Hno. destruct (index_getAll indexPath key s).1 as [|v l] eqn:E;
    [done|].
  assert (v ∈ (index_getAll indexPath key s).1) as Hin
    by (rewrite E; left).
  apply elem_of_index_getAll in Hin as (k & Hk & Hv).
  by destruct (Hno k v Hk).
Qed.
End index_facts.

Lemma keyGenerator_delete_keys range s :
  keyGenerator (delete_keys range s) = keyGenerator s.
Proof.
  revert s. induction range as [|key range IH]; intros s; [done|].
  simpl. by rewrite IH.
Qed.

Lemma lookup_delete_keys range s k :
  records (delete_keys range s) !! k
  = if decide (k ∈ range) then None else records s !! k.
Proof.
  revert s. induction range as [|key range IH]; intros s.
  - rewrite decide_False by apply not_elem_of_nil. done.
  - change (delete_keys (key :: range) s)
      with (delete_keys range (delete key s).2).
    rewrite IH. simpl. destruct (decide (k = key)) as [->|Hne].
    + rewrite lookup_delete_eq.
      rewrite (decide_True (P := key ∈ key :: range)) by left.
      by destruct (decide (key ∈ range)).
    + rewrite lookup_delete_ne by done.
      destruct (decide (k ∈ range)) as [Hin|Hin].
      * rewrite decide_True by (by right). done.
      * rewrite decide_False; [done|].
        intros [?|?]%elem_of_cons; done.
Qed.

(** Deleting the range of an index cursor leaves the records with another
    index key. *)
Lemma records_delete_index_range (indexPath : V → Z) key s :
  records (delete_keys (index_openCursor indexPath key s).1 s)
  = filter (λ e : Z * V, indexPath e.2 ≠ key) (records s).
Proof.
  apply map_eq. intros k. rewrite lookup_delete_keys.
  destruct (records s !! k) as [v|] eqn:Hk.
  - destruct (decide (indexPath v = key)) as [Hv|Hv].
    + rewrite decide_True
        by (apply elem_of_index_openCursor; eauto).
      symmetry. apply map_lookup_filter_None. right.
      intros v' Hk'. simpl. congruence.
    + rewrite decide_False.
      * symmetry. by apply map_lookup_filter_Some.
      * intros Hin. apply elem_of_index_openCursor in Hin as (v' & Hk' & Hv').
        congruence.
  - case_decide; symmetry; apply map_lookup_filter_None; by left.
Qed.
End store_facts.

(** ** Running the operations *)

Ltac unfold_ops :=
  unfold createGroup, getAllGroups, getGroup, renameGroup, deleteGroup,
    addImage, getImagesByGroup, renameImage, deleteImage,
    deleteImagesByGroup, deleteGroupRow, andThen, openDB, transaction,
    request, reading,
    settle, next_outcome, new_Date, log_transaction, set_database,
    groupRecords, imageRecords, stores, version, result, run in *.

Ltac by_outcomes :=
  repeat match goal with
  | |- context [match hd Success ?l with Success => _ | Failure _ => _ end] =>
      let E := fresh "Houtcome" in destruct (hd Success l) eqn:E; cbn
  end.

Lemma drop_tail {A} (n : nat) (l : list A) : drop n (tail l) = drop (S n) l.
Proof. destruct l; simpl; [by destruct n | done]. Qed.

Lemma elem_of_tail {A} (x : A) (l : list A) : x ∈ tail l → x ∈ l.
Proof. destruct l; [done | by right]. Qed.

Lemma hd_Failure_elem_of m (l : list Outcome) :
  hd Success l = Failure m → Failure m ∈ l.
Proof. destruct l as [|o l]; simpl; [done | intros ->; left]. Qed.

Lemma healthy_hd (l : list Outcome) :
  Forall (eq Success) l → hd Success l = Success.
Proof. destruct 1; done. Qed.

Lemma healthy_tail (l : list Outcome) :
  Forall (eq Success) l → Forall (eq Success) (tail l).
Proof. destruct 1; [constructor | done]. Qed.

Lemma healthy_no_Failure m (l : list Outcome) :
  Forall (eq Success) l → Failure m ∉ l.
Proof.
  intros Hl Hin. rewrite Forall_forall in Hl. by specialize (Hl _ Hin).
Qed.

(** The cursor loop either deletes the whole range and resolves, or stops at
    a request that the engine fails. *)
Lemma cursor_onsuccess_end onerror range store w :
  ∃ n,
    cursor_onsuccess onerror range store w
    = (Commit (Resolved tt) (delete_keys range store), consume n w)
    ∨ ∃ m, Failure m ∈ outcomes w
           ∧ cursor_onsuccess onerror range store w
             = (Abort (onerror m), consume n w).
Proof.
  revert store w. induction range as [|key range IH]; intros store w.
  - exists 0%nat. left. by destruct w.
  - destruct w as [db o l t tk oc]. simpl. unfold request, next_outcome.
    cbn. destruct (hd Success oc) eqn:E1.
    2:{ exists 1%nat. right. eexists. split; [by apply hd_Failure_elem_of|].
        unfold consume. cbn. by rewrite <- drop_tail, drop_0. }
    destruct (hd Success (tail oc)) eqn:E2.
    2:{ exists 2%nat. right. eexists.
        split; [by apply elem_of_tail, hd_Failure_elem_of|].
        unfold consume. cbn. by rewrite <- !drop_tail, drop_0. }
    destruct (IH (delete key store).2
                 (mkWorld db o l t tk (tail (tail oc)))) as [n [H|(m & Hm & H)]];
      cbn in H.
    + exists (S (S n)). left. rewrite H. unfold consume. cbn.
      by rewrite !drop_tail.
    + exists (S (S n)). right. exists m. split.
      * by apply elem_of_tail, elem_of_tail.
      * rewrite H. unfold consume. cbn. by rewrite !drop_tail.
Qed.

Lemma elem_of_drop {A} (x : A) n (l : list A) : x ∈ drop n l → x ∈ l.
Proof. apply subseteq_drop. Qed.

Ltac use_cursor_loop :=
  match goal with
  | |- context [cursor_onsuccess ?e ?range ?s ?w] =>
      let Hm := fresh "Hfailure" in
      let Heq := fresh "Hloop" in
      destruct (cursor_onsuccess_end e range s w)
        as [? [Heq | (? & Hm & Heq)]]; cbn in Heq; rewrite Heq; clear Heq;
      cbn in *
  end.

Ltac conj_split := repeat match goal with |- _ ∧ _ => split end.

(** A request that failed had its failure in the schedule. *)
Ltac failure_scheduled :=
  match goal with
  | H : hd Success _ = Failure ?m |- _ =>
      apply hd_Failure_elem_of in H;
      repeat first [apply elem_of_tail in H | apply elem_of_drop in H];
      by eauto
  | H : Failure ?m ∈ _ |- _ =>
      repeat first [apply elem_of_tail in H | apply elem_of_drop in H];
      by eauto
  end.

(** ** Well-formedness of the stores *)

Section store_wf_facts.
Context {I V : Type} (keyPath : V → Z) (inject : Z → I → V).
Implicit Types (s : ObjectStore V).

Lemma store_wf_createObjectStore : store_wf keyPath createObjectStore.
Proof. apply map_Forall_empty. Qed.

Lemma store_wf_delete key s :
  store_wf keyPath s →
  store_wf keyPath (mkStore (base.delete key (records s)) (keyGenerator s)).
Proof.
  unfold store_wf. rewrite !map_Forall_lookup. intros Hs k v. simpl.
  intros [_ Hk]%lookup_delete_Some. by apply Hs.
Qed.

Lemma store_wf_delete_keys range s :
  store_wf keyPath s → store_wf keyPath (delete_keys range s).
Proof.
  unfold store_wf. rewrite !map_Forall_lookup. intros Hs k v.
  rewrite lookup_delete_keys, keyGenerator_delete_keys.
  case_decide; [done | apply Hs].
Qed.

Lemma store_wf_add value s :
  (∀ k i, keyPath (inject k i) = k) →
  store_wf keyPath s →
  store_wf keyPath
    (mkStore (<[keyGenerator s := inject (keyGenerator s) value]> (records s))
             (keyGenerator s + 1)).
Proof.
  unfold store_wf. rewrite !map_Forall_lookup. intros Hinj Hs k v. simpl.
  destruct (decide (keyGenerator s = k)) as [<-|Hne].
  - rewrite lookup_insert_eq. intros [= <-]. split; [apply Hinj | lia].
  - rewrite lookup_insert_ne by done. intros Hk.
    destruct (Hs k v Hk). split; [done | lia].
Qed.

Lemma store_wf_put value s :
  store_wf keyPath s →
  store_wf keyPath
    (mkStore (<[keyPath value := value]> (records s))
             (Z.max (keyGenerator s) (keyPath value + 1))).
Proof.
  unfold store_wf. rewrite !map_Forall_lookup. intros Hs k v. simpl.
  destruct (decide (keyPath value = k)) as [<-|Hne].
  - rewrite lookup_insert_eq. intros [= <-]. split; [done | lia].
  - rewrite lookup_insert_ne by done. intros Hk.
    destruct (Hs k v Hk). split; [done | lia].
Qed.

(** The key that [add] generates is not in use. *)
Lemma store_wf_fresh s :
  store_wf keyPath s → records s !! keyGenerator s = None.
Proof.
  unfold store_wf. rewrite map_Forall_lookup. intros Hs.
  destruct (records s !! keyGenerator s) as [v|] eqn:Hk; [|done].
  destruct (Hs _ _ Hk). lia.
Qed.

Lemma store_wf_key s k v :
  store_wf keyPath s → records s !! k = Some v → keyPath v = k.
Proof.
  unfold store_wf. rewrite map_Forall_lookup. intros Hs Hk.
  by destruct (Hs _ _ Hk).
Qed.
End store_wf_facts.

(** In a well-formed world a record holds its key. *)
Lemma World_wf_group_id w k g :
  World_wf w → groupRecords w !! k = Some g → ImageGroup.id g = k.
Proof.
  unfold World_wf, Database_wf, groupRecords, stores.
  destruct (database w) as [[[gs|] [im|]]|]; simpl; try done.
  intros [Hg _]. by apply store_wf_key.
Qed.

Lemma World_wf_image_id w k i :
  World_wf w → imageRecords w !! k = Some i → StoredImage.id i = k.
Proof.
  unfold World_wf, Database_wf, imageRecords, stores.
  destruct (database w) as [[[gs|] [im|]]|]; simpl; try done.
  intros [_ Hi]. by apply store_wf_key.
Qed.

Lemma World_wf_fresh : World_wf fresh.
Proof. done. Qed.

Lemma healthy_resolves {A} (r : Settled A) w :
  healthy w →
  match r with
  | Resolved _ => True
  | Rejected _ => ∃ m, Failure m ∈ outcomes w
  end →
  ∃ a, r = Resolved a.
Proof.
  intros Hw. destruct r as [a|e]; [by eauto|].
  intros [m Hm]. by destruct (healthy_no_Failure m _ Hw).
Qed.

Create HintDb engine discriminated.

#[local] Hint Resolve healthy_tail healthy_hd
  store_wf_createObjectStore store_wf_delete store_wf_delete_keys
  store_wf_put : engine.
#[local] Hint Extern 1 (records (delete_keys _ _) = filter _ _) =>
  apply (records_delete_index_range StoredImage.groupId) : engine.
#[local] Hint Extern 1 (Forall _ (drop _ _)) => apply Forall_drop : engine.
#[local] Hint Extern 1 (store_wf _ (mkStore (<[keyGenerator _ := _]> _) _)) =>
  apply store_wf_add; [done|] : engine.

#[local] Hint Extern 1 (store_wf _ (mkStore (<[1 := _]> ∅) _)) =>
  apply (store_wf_add _ _ _ createObjectStore);
    [done | apply store_wf_createObjectStore] : engine.
#[local] Hint Extern 1 (records _ !! keyGenerator _ = None) =>
  eapply store_wf_fresh; eassumption : engine.

#[local] Hint Extern 1
  (store_wf ?kp (mkStore (<[_ := ?v]> (records ?s)) (Z.max _ _))) =>
  apply (store_wf_put kp v s) : engine.

Ltac wf_preserved :=
  match goal with
  | |- _ ∧ _ → _ => intros [? ?]; conj_split; eauto with engine
  | |- True → _ => intros _; conj_split; eauto with engine
  end.

(** Case analysis on the database, the stores and the outcome of every
    request of an operation, then the routine goals. *)
Ltac run_cases w :=
  unfold_ops; unfold World_wf, Database_wf, healthy;
  destruct w as [[[[gs|] [im|]]|] o l n t oc]; cbn; by_outcomes;
  try use_cursor_loop; by_outcomes.

Ltac settle_cases :=
  conj_split; try done; eauto 8 with engine;
  try (intros; failure_scheduled);
  try wf_preserved.

(** ** The bulk delete and the cascade *)

Lemma deleteImagesByGroup_spec groupId w r w' :
  deleteImagesByGroup groupId w = (r, w') →
  groupRecords w' = groupRecords w
  ∧ (World_wf w → World_wf w')
  ∧ (healthy w → healthy w')
  ∧ match r with
    | Resolved _ =>
        imageRecords w'
        = filter (λ e, StoredImage.groupId e.2 ≠ groupId) (imageRecords w)
        ∧ txlog w' = mkTx (opened w) "images" ReadWrite :: txlog w
    | Rejected e =>
        imageRecords w' = imageRecords w
        ∧ (txlog w' = txlog w
           ∨ txlog w' = mkTx (opened w) "images" ReadWrite :: txlog w)
        ∧ (World_wf w → ∃ m, Failure m ∈ outcomes w)
    end.
Proof.
  run_cases w; intros [= <- <-]; cbn; settle_cases.
Qed.

Lemma deleteGroupRow_spec db groupId w r w' :
  deleteGroupRow db groupId w = (r, w') →
  imageRecords w' = imageRecords w
  ∧ (txlog w' = mkTx db "groups" ReadWrite :: txlog w ∨ txlog w' = txlog w)
  ∧ match r with
    | Resolved _ => groupRecords w' = base.delete groupId (groupRecords w)
    | Rejected e =>
        groupRecords w' = groupRecords w
        ∧ (World_wf w → is_Some (database w) → ∃ m, Failure m ∈ outcomes w)
    end.
Proof.
  run_cases w; intros [= <- <-]; cbn; settle_cases.
  all: by intros _ [? [=]].
Qed.

Lemma deleteGroup_spec groupId w r w' :
  deleteGroup groupId w = (r, w') →
  (World_wf w → World_wf w')
  ∧ (healthy w → healthy w')
  ∧ match r with
    | Resolved _ =>
        groupRecords w' = base.delete groupId (groupRecords w)
        ∧ imageRecords w'
          = filter (λ e, StoredImage.groupId e.2 ≠ groupId) (imageRecords w)
    | Rejected e =>
        groupRecords w' = groupRecords w
        ∧ (imageRecords w' = imageRecords w
           ∨ imageRecords w'
             = filter (λ e, StoredImage.groupId e.2 ≠ groupId) (imageRecords w))
        ∧ (World_wf w → ∃ m, Failure m ∈ outcomes w)
    end.
Proof.
  run_cases w; intros [= <- <-]; cbn; settle_cases.
  all: first [by left | right; eauto with engine].
Qed.

(** ** The connection *)

Lemma openDB_spec w r w' :
  openDB w = (r, w') →
  groupRecords w' = groupRecords w
  ∧ imageRecords w' = imageRecords w
  ∧ txlog w' = txlog w
  ∧ (World_wf w → World_wf w')
  ∧ (healthy w → healthy w')
  ∧ match r with
    | Resolved db => db = opened w ∧ opened w' = S (opened w)
    | Rejected e =>
        opened w' = opened w
        ∧ ∃ m, Failure m ∈ outcomes w
               ∧ e = Error ("Database failed to open: " +:+ error_message m)
    end.
Proof.
  run_cases w; intros [= <- <-]; cbn; settle_cases.
  all: eexists; split; [by apply hd_Failure_elem_of | done].
Qed.

(** ** Group operations *)

Lemma createGroup_spec name w r w' :
  createGroup name w = (r, w') →
  imageRecords w' = imageRecords w
  ∧ (World_wf w → World_wf w')
  ∧ (healthy w → healthy w')
  ∧ match r with
    | Resolved key =>
        let createdAt := now w + Z.of_nat (hd 0%nat (ticks w)) in
        let updatedAt := createdAt + Z.of_nat (hd 0%nat (tail (ticks w))) in
        groupRecords w'
        = <[key := ImageGroup.mk key name createdAt updatedAt]> (groupRecords w)
        ∧ (World_wf w → groupRecords w !! key = None)
    | Rejected e =>
        groupRecords w' = groupRecords w
        ∧ (World_wf w → ∃ m, Failure m ∈ outcomes w)
    end.
Proof.
  run_cases w; intros [= <- <-]; cbn; settle_cases.
Qed.

Lemma getAllGroups_spec w r w' :
  getAllGroups w = (r, w') →
  groupRecords w' = groupRecords w
  ∧ imageRecords w' = imageRecords w
  ∧ (World_wf w → World_wf w')
  ∧ (healthy w → healthy w')
  ∧ match r with
    | Resolved result =>
        ∀ group, group ∈ result ↔ ∃ k, groupRecords w !! k = Some group
    | Rejected e => World_wf w → ∃ m, Failure m ∈ outcomes w
    end.
Proof.
  run_cases w; intros [= <- <-]; cbn; settle_cases.
  all: intros group; rewrite list_elem_of_fmap; split;
    [ intros ([k v] & -> & Hin%elem_of_entries); eauto
    | intros [k Hk]; exists (k, group); split; [done|];
      by apply elem_of_entries ].
Qed.

Lemma getGroup_spec id w r w' :
  getGroup id w = (r, w') →
  groupRecords w' = groupRecords w
  ∧ imageRecords w' = imageRecords w
  ∧ (World_wf w → World_wf w')
  ∧ (healthy w → healthy w')
  ∧ match r with
    | Resolved group => group = groupRecords w !! id
    | Rejected e => World_wf w → ∃ m, Failure m ∈ outcomes w
    end.
Proof.
  run_cases w; intros [= <- <-]; cbn; settle_cases.
Qed.

Ltac by_lookup :=
  match goal with
  | |- context [match records ?s !! ?k with Some _ => _ | None => _ end] =>
      let E := fresh "Hlookup" in destruct (records s !! k) eqn:E; cbn
  end.

Lemma renameGroup_spec groupId newName w r w' :
  renameGroup groupId newName w = (r, w') →
  imageRecords w' = imageRecords w
  ∧ (World_wf w → World_wf w')
  ∧ (healthy w → healthy w')
  ∧ match r with
    | Resolved _ =>
        ∃ group,
          groupRecords w !! groupId = Some group
          ∧ groupRecords w'
            = <[ImageGroup.id group :=
                  ImageGroup.mk (ImageGroup.id group) newName
                    (ImageGroup.createdAt group)
                    (now w + Z.of_nat (hd 0%nat (ticks w)))]> (groupRecords w)
          ∧ now w' = now w + Z.of_nat (hd 0%nat (ticks w))
    | Rejected e =>
        groupRecords w' = groupRecords w
        ∧ (World_wf w →
           (groupRecords w !! groupId = None
            ∧ e = Error ("Group with ID " +:+ pretty groupId +:+ " not found"))
           ∨ ∃ m, Failure m ∈ outcomes w)
    end.
Proof.
  run_cases w; rewrite ?lookup_empty; cbn; try by_lookup; by_outcomes;
    intros [= <- <-]; cbn; settle_cases.
  all: try (intros; right; failure_scheduled).
  all: intros; left; done.
Qed.

(** ** Image operations *)

Lemma addImage_spec groupId name blob w r w' :
  addImage groupId name blob w = (r, w') →
  groupRecords w' = groupRecords w
  ∧ (World_wf w → World_wf w')
  ∧ (healthy w → healthy w')
  ∧ match r with
    | Resolved key =>
        imageRecords w'
        = <[key := StoredImage.mk key groupId name blob
                     (now w + Z.of_nat (hd 0%nat (ticks w)))]> (imageRecords w)
        ∧ (World_wf w → imageRecords w !! key = None)
    | Rejected e =>
        imageRecords w' = imageRecords w
        ∧ (World_wf w → ∃ m, Failure m ∈ outcomes w)
    end.
Proof.
  run_cases w; intros [= <- <-]; cbn; settle_cases.
Qed.

Lemma getImagesByGroup_spec groupId w r w' :
  getImagesByGroup groupId w = (r, w') →
  groupRecords w' = groupRecords w
  ∧ imageRecords w' = imageRecords w
  ∧ (World_wf w → World_wf w')
  ∧ (healthy w → healthy w')
  ∧ match r with
    | Resolved result =>
        ∃ found : list (Z * StoredImage.t),
          result = found.*2
          ∧ NoDup found.*1
          ∧ StronglySorted key_le found
          ∧ ∀ k image,
              (k, image) ∈ found
              ↔ imageRecords w !! k = Some image
                ∧ StoredImage.groupId image = groupId
    | Rejected e => World_wf w → ∃ m, Failure m ∈ outcomes w
    end.
Proof.
  run_cases w; intros [= <- <-]; cbn; settle_cases.
  all: eexists; split; [done|];
    split; [apply NoDup_matching|];
    split; [apply matching_ascending|];
    intros k image; apply elem_of_matching.
Qed.

Lemma renameImage_spec imageId newName w r w' :
  renameImage imageId newName w = (r, w') →
  groupRecords w' = groupRecords w
  ∧ (World_wf w → World_wf w')
  ∧ (healthy w → healthy w')
  ∧ match r with
    | Resolved _ =>
        ∃ image,
          imageRecords w !! imageId = Some image
          ∧ imageRecords w'
            = <[StoredImage.id image :=
                  StoredImage.mk (StoredImage.id image)
                    (StoredImage.groupId image) newName
                    (StoredImage.blob image) (StoredImage.createdAt image)]>
                (imageRecords w)
    | Rejected e =>
        imageRecords w' = imageRecords w
        ∧ (World_wf w →
           (imageRecords w !! imageId = None
            ∧ e = Error ("Image with ID " +:+ pretty imageId +:+ " not found"))
           ∨ ∃ m, Failure m ∈ outcomes w)
    end.
Proof.
  run_cases w; rewrite ?lookup_empty; cbn; try by_lookup; by_outcomes;
    intros [= <- <-]; cbn; settle_cases.
  all: try (intros; right; failure_scheduled).
  all: intros; left; done.
Qed.

Lemma deleteImage_spec imageId w r w' :
  deleteImage imageId w = (r, w') →
  groupRecords w' = groupRecords w
  ∧ (World_wf w → World_wf w')
  ∧ (healthy w → healthy w')
  ∧ match r with
    | Resolved _ => imageRecords w' = base.delete imageId (imageRecords w)
    | Rejected e =>
        imageRecords w' = imageRecords w
        ∧ (World_wf w → ∃ m, Failure m ∈ outcomes w)
    end.
Proof.
  run_cases w; intros [= <- <-]; cbn; settle_cases.
Qed.

(** ** Invariants of the interface *)

(** Every call keeps the stores well formed. *)
Lemma World_wf_perform c w : World_wf w → World_wf (perform c w).
Proof.
  destruct c; cbn [perform]; unfold run.
  - destruct (createGroup name w) eqn:E. by apply (createGroup_spec _ _ _ _ E).
  - destruct (getAllGroups w) eqn:E. by apply (getAllGroups_spec _ _ _ E).
  - destruct (getGroup id w) eqn:E. by apply (getGroup_spec _ _ _ _ E).
  - destruct (renameGroup groupId newName w) eqn:E.
    by apply (renameGroup_spec _ _ _ _ _ E).
  - destruct (deleteGroup groupId w) eqn:E.
    by apply (deleteGroup_spec _ _ _ _ E).
  - destruct (addImage groupId name blob w) eqn:E.
    by apply (addImage_spec _ _ _ _ _ _ E).
  - destruct (getImagesByGroup groupId w) eqn:E.
    by apply (getImagesByGroup_spec _ _ _ _ E).
  - destruct (renameImage imageId newName w) eqn:E.
    by apply (renameImage_spec _ _ _ _ _ E).
  - destruct (deleteImage imageId w) eqn:E.
    by apply (deleteImage_spec _ _ _ _ E).
Qed.

(** The stores are well formed in every world the interface can be in. *)
Lemma reachable_wf w : reachable w → World_wf w.
Proof.
  induction 1 as [w Hnone|c w _ IH|w w' _ IH Hdb].
  - unfold World_wf. by rewrite Hnone.
  - by apply World_wf_perform.
  - unfold World_wf in *. by rewrite Hdb.
Qed.

(** With an engine that fails no request, the operations that do not need
    an existing record resolve. *)
Lemma healthy_calls_resolve w :
  World_wf w → healthy w →
  (∀ name, ∃ key, result (createGroup name) w = Resolved key)
  ∧ (∃ all, result getAllGroups w = Resolved all)
  ∧ (∀ groupId, result (deleteGroup groupId) w = Resolved tt)
  ∧ (∀ groupId name blob,
       ∃ key, result (addImage groupId name blob) w = Resolved key)
  ∧ (∀ imageId, result (deleteImage imageId) w = Resolved tt).
Proof.
  intros Hwf Hw. unfold result. conj_split.
  - intros name. destruct (createGroup name w) as [r w'] eqn:E. simpl.
    apply (healthy_resolves r w Hw).
    destruct (createGroup_spec _ _ _ _ E) as (_ & _ & _ & Hr).
    destruct r; [done|]. by apply Hr.
  - destruct (getAllGroups w) as [r w'] eqn:E. simpl.
    apply (healthy_resolves r w Hw).
    destruct (getAllGroups_spec _ _ _ E) as (_ & _ & _ & _ & Hr).
    destruct r; [done|]. by apply Hr.
  - intros groupId. destruct (deleteGroup groupId w) as [r w'] eqn:E. simpl.
    destruct (healthy_resolves r w Hw) as [[] ->]; [|done].
    destruct (deleteGroup_spec _ _ _ _ E) as (_ & _ & Hr).
    destruct r; [done|]. by apply Hr.
  - intros groupId name blob.
    destruct (addImage groupId name blob w) as [r w'] eqn:E. simpl.
    apply (healthy_resolves r w Hw).
    destruct (addImage_spec _ _ _ _ _ _ E) as (_ & _ & _ & Hr).
    destruct r; [done|]. by apply Hr.
  - intros imageId. destruct (deleteImage imageId w) as [r w'] eqn:E. simpl.
    destruct (healthy_resolves r w Hw) as [[] ->]; [|done].
    destruct (deleteImage_spec _ _ _ _ E) as (_ & _ & _ & Hr).
    destruct r; [done|]. by apply Hr.
Qed.

Section refers_facts.
Implicit Types (gs : gmap Z ImageGroup.t) (ims : gmap Z StoredImage.t).

Lemma refers_insert_group gs ims k group :
  refers gs ims → refers (<[k := group]> gs) ims.
Proof.
  unfold refers. rewrite !map_Forall_lookup. intros H i image Hi.
  rewrite lookup_insert_is_Some. destruct (decide (k = StoredImage.groupId image));
    [by left | right; split; [done | by eapply H]].
Qed.

Lemma refers_fewer_images gs ims ims' :
  (∀ k image, ims' !! k = Some image → ims !! k = Some image) →
  refers gs ims → refers gs ims'.
Proof.
  unfold refers. rewrite !map_Forall_lookup. intros Hsub H i image Hi.
  eapply H, Hsub, Hi.
Qed.

Lemma refers_insert_image gs ims k image :
  is_Some (gs !! StoredImage.groupId image) →
  refers gs ims → refers gs (<[k := image]> ims).
Proof. intros Hgroup H. by apply map_Forall_insert_2. Qed.

Lemma refers_delete_group gs ims G :
  refers gs ims →
  refers (base.delete G gs)
         (filter (λ e : Z * StoredImage.t, StoredImage.groupId e.2 ≠ G) ims).
Proof.
  unfold refers. rewrite !map_Forall_lookup. intros H i image.
  intros [Hi Hne]%map_lookup_filter_Some. simpl in Hne.
  rewrite lookup_delete_ne by done. by eapply H.
Qed.
End refers_facts.

(** The calls keep the invariant of the data model, as long as images are
    added under existing groups: a group is deleted with its images, and
    when the cascade fails between its two phases the images are gone and
    the group is still there. *)
Lemma referential_integrity_perform c w :
  World_wf w → referential_integrity w → expected_call w c →
  referential_integrity (perform c w).
Proof.
  unfold referential_integrity. intros Hwf Hri Hc.
  destruct c; cbn [perform]; unfold run.
  - destruct (createGroup name w) as [[key|e] w'] eqn:E; simpl;
      destruct (createGroup_spec _ _ _ _ E) as (-> & _ & _ & -> & _);
      [by apply refers_insert_group | done].
  - destruct (getAllGroups w) as [r w'] eqn:E; simpl.
    by destruct (getAllGroups_spec _ _ _ E) as (-> & -> & _).
  - destruct (getGroup id w) as [r w'] eqn:E; simpl.
    by destruct (getGroup_spec _ _ _ _ E) as (-> & -> & _).
  - destruct (renameGroup groupId newName w) as [[[]|e] w'] eqn:E; simpl;
      destruct (renameGroup_spec _ _ _ _ _ E) as (-> & _ & _ & Hr).
    + destruct Hr as (group & _ & -> & _). by apply refers_insert_group.
    + by destruct Hr as [-> _].
  - destruct (deleteGroup groupId w) as [[[]|e] w'] eqn:E; simpl;
      destruct (deleteGroup_spec _ _ _ _ E) as (_ & _ & Hr).
    + destruct Hr as [-> ->]. by apply refers_delete_group.
    + destruct Hr as (-> & [-> | ->] & _); [done|].
      eapply refers_fewer_images; [|done].
      by intros k image [? _]%map_lookup_filter_Some.
  - destruct (addImage groupId name blob w) as [[key|e] w'] eqn:E; simpl;
      destruct (addImage_spec _ _ _ _ _ _ E) as (-> & _ & _ & -> & _);
      [by apply refers_insert_image | done].
  - destruct (getImagesByGroup groupId w) as [r w'] eqn:E; simpl.
    by destruct (getImagesByGroup_spec _ _ _ _ E) as (-> & -> & _).
  - destruct (renameImage imageId newName w) as [[[]|e] w'] eqn:E; simpl;
      destruct (renameImage_spec _ _ _ _ _ E) as (-> & _ & _ & Hr).
    + destruct Hr as (image & Himage & ->).
      apply refers_insert_image; [|done]. simpl.
      unfold refers in Hri. rewrite map_Forall_lookup in Hri.
      by eapply Hri.
    + by destruct Hr as [-> _].
  - destruct (deleteImage imageId w) as [[[]|e] w'] eqn:E; simpl;
      destruct (deleteImage_spec _ _ _ _ E) as (-> & _ & _ & Hr).
    + rewrite Hr. eapply refers_fewer_images; [|done].
      by intros k image [_ ?]%lookup_delete_Some.
    + by destruct Hr as [-> _].
Qed.

(** * The claims of the specification *)

(** ** Cascade delete *)

(** C1 (cascade completeness).  After a successful [deleteGroup G] the store
    holds no image record with [groupId = G] and no group record with
    [id = G] (none at key [G], and none whose [id] field is [G]); the records
    of other groups, and the images of other groups, are as they were. *)
Theorem deleteGroup_cascade_complete (G : Z) (w : World) :
  World_wf w →
  result (deleteGroup G) w = Resolved tt →
  let w' := run (deleteGroup G) w in
  (∀ k image,
     imageRecords w' !! k = Some image → StoredImage.groupId image ≠ G)
  ∧ groupRecords w' !! G = None
  ∧ (∀ k group, groupRecords w' !! k = Some group → ImageGroup.id group ≠ G)
  ∧ (∀ k image,
       imageRecords w !! k = Some image → StoredImage.groupId image ≠ G →
       imageRecords w' !! k = Some image)
  ∧ (∀ k, k ≠ G → groupRecords w' !! k = groupRecords w !! k).
Proof.
  intros Hwf Hres. cbv zeta. unfold result, run in *.
  destruct (deleteGroup G w) as [r w'] eqn:Hrun. simpl in *. subst r.
  destruct (deleteGroup_spec _ _ _ _ Hrun) as (Hwf' & _ & Hgroups & Himages).
  specialize (Hwf' Hwf). conj_split.
  - intros k image. rewrite Himages.
    intros [_ Hne]%map_lookup_filter_Some. done.
  - rewrite Hgroups. apply lookup_delete_eq.
  - intros k group Hk Hid.
    assert (k = G) as -> by (by rewrite <- (World_wf_group_id _ _ _ Hwf' Hk)).
    rewrite Hgroups, lookup_delete_eq in Hk. done.
  - intros k image Hk Hne. rewrite Himages.
    by apply map_lookup_filter_Some.
  - intros k Hne. rewrite Hgroups. by apply lookup_delete_ne.
Qed.

Lemma World_wf_trip : World_wf trip.
Proof. apply (bool_decide_unpack _). vm_compute. exact I. Defined.

Lemma deleteGroup_cascade_complete_witness :
  let w' := run (deleteGroup 1) trip in
  (∀ k image,
     imageRecords w' !! k = Some image → StoredImage.groupId image ≠ 1)
  ∧ groupRecords w' !! 1 = None
  ∧ (∀ k group, groupRecords w' !! k = Some group → ImageGroup.id group ≠ 1)
  ∧ (∀ k image,
       imageRecords trip !! k = Some image → StoredImage.groupId image ≠ 1 →
       imageRecords w' !! k = Some image)
  ∧ (∀ k, k ≠ 1 → groupRecords w' !! k = groupRecords trip !! k).
Proof.
  apply (deleteGroup_cascade_complete 1 trip).
  - apply World_wf_trip.
  - vm_compute. reflexivity.
Defined.

(** Scenario A, run: both images are listed, and after the cascade the
    group and its images are gone. *)
Example scenario_A :
  result (getImagesByGroup 1) trip
  = Resolved [StoredImage.mk 1 1 "a.jpg" jpeg 0;
              StoredImage.mk 2 1 "b.jpg" jpeg 0]
  ∧ result getAllGroups (run (deleteGroup 1) trip) = Resolved []
  ∧ result (getImagesByGroup 1) (run (deleteGroup 1) trip) = Resolved [].
Proof. vm_compute. done. Qed.

(** Scenario B, run: deleting the empty group 2 leaves group 1 and its
    image. *)
Example scenario_B :
  let w :=
    perform (AddImage 1 "a.jpg" jpeg)
      (perform (CreateGroup "B") (perform (CreateGroup "A") fresh)) in
  result (deleteGroup 2) w = Resolved tt
  ∧ result getAllGroups (run (deleteGroup 2) w)
    = Resolved [ImageGroup.mk 1 "A" 0 0]
  ∧ result (getImagesByGroup 1) (run (deleteGroup 2) w)
    = Resolved [StoredImage.mk 1 1 "a.jpg" jpeg 0].
Proof. vm_compute. done. Qed.

(** C2 (order of the two phases).  Once the connection is open,
    [deleteGroup] runs the bulk image deletion to its end.  If that phase
    fails, [deleteGroup] fails with the same error, the group records are
    unchanged and no transaction on the groups store was started.  If it
    succeeds, the images of the group are gone and only then the group's row
    is deleted: [deleteGroup] continues as [deleteGroupRow] from the world
    the first phase left. *)
Theorem deleteGroup_phases (groupId : Z) (w : World) :
  match openDB w with
  | (Rejected e, w1) =>
      deleteGroup groupId w = (Rejected e, w1)
      ∧ groupRecords w1 = groupRecords w
  | (Resolved db, w1) =>
      match deleteImagesByGroup groupId w1 with
      | (Rejected e, w2) =>
          deleteGroup groupId w = (Rejected e, w2)
          ∧ groupRecords w2 = groupRecords w
          ∧ ∀ tx, tx ∈ txlog w2 → tx ∈ txlog w ∨ scope tx = "images"
      | (Resolved _, w2) =>
          deleteGroup groupId w = deleteGroupRow db groupId w2
          ∧ groupRecords w2 = groupRecords w
          ∧ imageRecords w2
            = filter (λ e, StoredImage.groupId e.2 ≠ groupId) (imageRecords w)
          ∧ (txlog (run (deleteGroupRow db groupId) w2)
             = mkTx db "groups" ReadWrite
                 :: mkTx (opened w1) "images" ReadWrite :: txlog w
             ∨ txlog (run (deleteGroupRow db groupId) w2)
               = mkTx (opened w1) "images" ReadWrite :: txlog w)
      end
  end.
Proof.
  unfold deleteGroup, andThen.
  destruct (openDB w) as [[db|e] w1] eqn:Hopen; [|split; [done|]].
  2:{ by destruct (openDB_spec _ _ _ Hopen) as (? & _). }
  destruct (openDB_spec _ _ _ Hopen) as (Hg1 & Hi1 & Hlog1 & _).
  destruct (deleteImagesByGroup groupId w1) as [[[]|e] w2] eqn:Himages.
  - destruct (deleteImagesByGroup_spec _ _ _ _ Himages)
      as (Hg2 & _ & _ & Hi2 & Hlog2).
    conj_split; [done | congruence | congruence | ].
    unfold run.
    destruct (deleteGroupRow db groupId w2) as [r w3] eqn:Hrow. simpl.
    destruct (deleteGroupRow_spec _ _ _ _ _ Hrow) as (_ & [Hlog3|Hlog3] & _);
      rewrite Hlog3, Hlog2, Hlog1; [by left | by right].
  - destruct (deleteImagesByGroup_spec _ _ _ _ Himages)
      as (Hg2 & _ & _ & Hi2 & Hlog2 & _).
    conj_split; [done | congruence |].
    intros tx. rewrite <- Hlog1.
    destruct Hlog2 as [->| ->]; [by left|].
    intros [->|?]%elem_of_cons; [by right | by left].
Qed.

(** C10 (the bulk delete is all-or-nothing).  [deleteImagesByGroup] starts
    at most one transaction, a read-write transaction on the images store,
    and makes every delete in it.  When it resolves, exactly the images with
    the given [groupId] are gone; when it rejects, the images store is
    unchanged.  The groups are untouched either way. *)
Theorem deleteImagesByGroup_all_or_nothing (groupId : Z) (w : World) :
  let w' := run (deleteImagesByGroup groupId) w in
  groupRecords w' = groupRecords w
  ∧ match result (deleteImagesByGroup groupId) w with
    | Resolved _ =>
        imageRecords w'
        = filter (λ e, StoredImage.groupId e.2 ≠ groupId) (imageRecords w)
        ∧ txlog w' = mkTx (opened w) "images" ReadWrite :: txlog w
    | Rejected _ =>
        imageRecords w' = imageRecords w
        ∧ (txlog w' = txlog w
           ∨ txlog w' = mkTx (opened w) "images" ReadWrite :: txlog w)
    end.
Proof.
  cbv zeta. unfold result, run.
  destruct (deleteImagesByGroup groupId w) as [r w'] eqn:Hrun. simpl.
  destruct (deleteImagesByGroup_spec _ _ _ _ Hrun) as (Hg & _ & _ & Hi).
  split; [done|]. destruct r; tauto.
Qed.

(** The engine fails the second [cursor.delete()] (its request 4), after
    the first image was deleted in the transaction: the promise rejects and
    both images are still in the store. *)
Example deleteImagesByGroup_aborted :
  let w := failing 4 trip in
  result (deleteImagesByGroup 1) w
  = Rejected (Error "Failed to delete images: Unknown error")
  ∧ imageRecords (run (deleteImagesByGroup 1) w) = imageRecords trip
  ∧ size (imageRecords trip) = 2%nat.
Proof. vm_compute. done. Qed.

(** The same failure inside [deleteGroup]: it rejects, and the group and
    its images remain. *)
Example deleteGroup_aborted :
  let w := failing 5 trip in
  result (deleteGroup 1) w
  = Rejected (Error "Failed to delete images: Unknown error")
  ∧ groupRecords (run (deleteGroup 1) w) = groupRecords trip
  ∧ imageRecords (run (deleteGroup 1) w) = imageRecords trip.
Proof. vm_compute. done. Qed.

(** ** Deleting what is not there *)

(** C3 (idempotent delete).  With an engine that fails no request,
    [deleteImage id], [deleteGroup id] and the delete of the group's row
    inside it resolve when no record has that id, and leave the records as
    they are; after a first delete, the same delete resolves again.  With any
    engine, a delete that rejects had an engine failure in its schedule: a
    missing record is never the reason. *)
Theorem delete_missing_is_no_error (id : Z) (w : World) :
  World_wf w →
  (healthy w →
     (imageRecords w !! id = None →
        result (deleteImage id) w = Resolved tt
        ∧ imageRecords (run (deleteImage id) w) = imageRecords w)
     ∧ (groupRecords w !! id = None →
          result (deleteGroup id) w = Resolved tt
          ∧ groupRecords (run (deleteGroup id) w) = groupRecords w)
     ∧ (∀ db, groupRecords w !! id = None → is_Some (database w) →
          result (deleteGroupRow db id) w = Resolved tt
          ∧ groupRecords (run (deleteGroupRow db id) w) = groupRecords w)
     ∧ result (deleteImage id) (run (deleteImage id) w) = Resolved tt
     ∧ result (deleteGroup id) (run (deleteGroup id) w) = Resolved tt)
  ∧ (∀ e, result (deleteImage id) w = Rejected e →
          ∃ m, Failure m ∈ outcomes w)
  ∧ (∀ e, result (deleteGroup id) w = Rejected e →
          ∃ m, Failure m ∈ outcomes w).
Proof.
  intros Hwf. unfold result, run.
  destruct (deleteImage id w) as [ri wi] eqn:Hi.
  destruct (deleteGroup id w) as [rg wg] eqn:Hg. simpl.
  destruct (deleteImage_spec _ _ _ _ Hi) as (_ & Hwfi & Hhi & Hri).
  destruct (deleteGroup_spec _ _ _ _ Hg) as (Hwfg & Hhg & Hrg).
  split; [intros Hw; conj_split|split].
  3:{ intros db Hnone Hdb.
      destruct (deleteGroupRow db id w) as [rr wr] eqn:Hr. simpl.
      destruct (deleteGroupRow_spec _ _ _ _ _ Hr) as (_ & _ & Hrr).
      destruct (healthy_resolves rr w Hw) as [[] ->].
      { destruct rr; [done|]. by apply Hrr. }
      split; [done|]. rewrite Hrr. by apply delete_id. }
  - intros Hnone.
    destruct (healthy_resolves ri w Hw) as [[] ->].
    { destruct ri; [done|]. by apply Hri. }
    split; [done|]. rewrite Hri. by apply delete_id.
  - intros Hnone.
    destruct (healthy_resolves rg w Hw) as [[] ->].
    { destruct rg; [done|]. by apply Hrg. }
    split; [done|]. destruct Hrg as [-> _]. by apply delete_id.
  - destruct (deleteImage id wi) as [ri' wi'] eqn:Hi'. simpl.
    destruct (deleteImage_spec _ _ _ _ Hi') as (_ & _ & _ & Hri').
    destruct (healthy_resolves ri' wi (Hhi Hw)) as [[] ->]; [|done].
    destruct ri'; [done|]. apply Hri'. auto.
  - destruct (deleteGroup id wg) as [rg' wg'] eqn:Hg'. simpl.
    destruct (deleteGroup_spec _ _ _ _ Hg') as (_ & _ & Hrg').
    destruct (healthy_resolves rg' wg (Hhg Hw)) as [[] ->]; [|done].
    destruct rg'; [done|]. apply Hrg'. auto.
  - intros e ->. by apply Hri.
  - intros e ->. by apply Hrg.
Qed.

Lemma healthy_trip : healthy trip.
Proof. apply (bool_decide_unpack _). vm_compute. exact I. Defined.

Lemma delete_missing_is_no_error_witness :
  (result (deleteImage 7) trip = Resolved tt
   ∧ imageRecords (run (deleteImage 7) trip) = imageRecords trip)
  ∧ (result (deleteGroup 7) trip = Resolved tt
     ∧ groupRecords (run (deleteGroup 7) trip) = groupRecords trip)
  ∧ result (deleteImage 7) (run (deleteImage 7) trip) = Resolved tt
  ∧ result (deleteGroup 7) (run (deleteGroup 7) trip) = Resolved tt.
Proof.
  destruct (delete_missing_is_no_error 7 trip World_wf_trip) as [H _].
  destruct (H healthy_trip) as (Hi & Hg & _ & Hi2 & Hg2).
  split; [apply Hi; reflexivity|].
  split; [apply Hg; reflexivity|].
  split; assumption.
Defined.

(** Deleting twice what was there: image 1, then group 1, of the scenario. *)
Example delete_twice :
  result (deleteImage 1) trip = Resolved tt
  ∧ result (deleteImage 1) (run (deleteImage 1) trip) = Resolved tt
  ∧ result (deleteGroup 1) trip = Resolved tt
  ∧ result (deleteGroup 1) (run (deleteGroup 1) trip) = Resolved tt.
Proof. vm_compute. done. Qed.

(** ** Renaming *)

(** C4 (rename preserves identity).  A [renameGroup id newName] that
    resolves on an existing group leaves at key [id] a record with the same
    [id] and [createdAt], the new name, and an [updatedAt] read from the
    clock; every other group and every image is unchanged.  A
    [renameImage id newName] that resolves on an existing image leaves at
    key [id] a record with the same [id], [groupId], [blob] and [createdAt]
    and the new name; every other image and every group is unchanged.  With
    an engine that fails no request, both do resolve. *)
Theorem rename_preserves_identity (id : Z) (newName : string) (w : World) :
  World_wf w →
  (∀ group,
     groupRecords w !! id = Some group →
     (healthy w → result (renameGroup id newName) w = Resolved tt)
     ∧ (result (renameGroup id newName) w = Resolved tt →
        let w' := run (renameGroup id newName) w in
        (∃ group',
           groupRecords w' !! id = Some group'
           ∧ ImageGroup.id group' = ImageGroup.id group
           ∧ ImageGroup.createdAt group' = ImageGroup.createdAt group
           ∧ ImageGroup.name group' = newName
           ∧ ImageGroup.updatedAt group' = now w')
        ∧ (∀ k, k ≠ id → groupRecords w' !! k = groupRecords w !! k)
        ∧ imageRecords w' = imageRecords w))
  ∧ (∀ image,
       imageRecords w !! id = Some image →
       (healthy w → result (renameImage id newName) w = Resolved tt)
       ∧ (result (renameImage id newName) w = Resolved tt →
          let w' := run (renameImage id newName) w in
          (∃ image',
             imageRecords w' !! id = Some image'
             ∧ StoredImage.id image' = StoredImage.id image
             ∧ StoredImage.groupId image' = StoredImage.groupId image
             ∧ StoredImage.blob image' = StoredImage.blob image
             ∧ StoredImage.createdAt image' = StoredImage.createdAt image
             ∧ StoredImage.name image' = newName)
          ∧ (∀ k, k ≠ id → imageRecords w' !! k = imageRecords w !! k)
          ∧ groupRecords w' = groupRecords w)).
Proof.
  intros Hwf. split.
  - intros group Hgroup. unfold result, run. cbv zeta.
    destruct (renameGroup id newName w) as [r w'] eqn:Hrun. simpl.
    destruct (renameGroup_spec _ _ _ _ _ Hrun) as (Hi & _ & _ & Hr).
    split.
    + intros Hw. destruct (healthy_resolves r w Hw) as [[] ->]; [|done].
      destruct r; [done|]. destruct Hr as [_ Hr].
      destruct (Hr Hwf) as [[Hnone _]|?]; [congruence | done].
    + intros ->. destruct Hr as (group0 & Hgroup0 & Hg & Hnow).
      assert (group0 = group) as -> by congruence.
      rewrite (World_wf_group_id _ _ _ Hwf Hgroup) in Hg.
      conj_split; [|intros k Hk; rewrite Hg; by apply lookup_insert_ne|done].
      eexists. rewrite Hg, lookup_insert_eq. conj_split; try done.
      simpl. symmetry. by eapply World_wf_group_id.
  - intros image Himage. unfold result, run. cbv zeta.
    destruct (renameImage id newName w) as [r w'] eqn:Hrun. simpl.
    destruct (renameImage_spec _ _ _ _ _ Hrun) as (Hg & _ & _ & Hr).
    split.
    + intros Hw. destruct (healthy_resolves r w Hw) as [[] ->]; [|done].
      destruct r; [done|]. destruct Hr as [_ Hr].
      destruct (Hr Hwf) as [[Hnone _]|?]; [congruence | done].
    + intros ->. destruct Hr as (image0 & Himage0 & Hi).
      assert (image0 = image) as -> by congruence.
      rewrite (World_wf_image_id _ _ _ Hwf Himage) in Hi.
      conj_split; [|intros k Hk; rewrite Hi; by apply lookup_insert_ne|done].
      eexists. rewrite Hi, lookup_insert_eq. conj_split; try done.
      simpl. symmetry. by eapply World_wf_image_id.
Qed.

Lemma World_wf_ticking elapsed w : World_wf w → World_wf (ticking elapsed w).
Proof. intros H. exact H. Qed.

Lemma healthy_ticking elapsed w : healthy w → healthy (ticking elapsed w).
Proof. intros H. exact H. Qed.

Lemma rename_preserves_identity_witness :
  let w := ticking [5%nat] trip in
  (result (renameGroup 1 "Holiday") w = Resolved tt
   ∧ ∃ group',
       groupRecords (run (renameGroup 1 "Holiday") w) !! 1 = Some group'
       ∧ ImageGroup.id group' = 1
       ∧ ImageGroup.createdAt group' = 0
       ∧ ImageGroup.name group' = "Holiday"
       ∧ ImageGroup.updatedAt group' = 5)
  ∧ (result (renameImage 1 "sea.jpg") w = Resolved tt
     ∧ ∃ image',
         imageRecords (run (renameImage 1 "sea.jpg") w) !! 1 = Some image'
         ∧ StoredImage.id image' = 1
         ∧ StoredImage.groupId image' = 1
         ∧ StoredImage.blob image' = jpeg
         ∧ StoredImage.createdAt image' = 0
         ∧ StoredImage.name image' = "sea.jpg").
Proof.
  cbv zeta.
  pose proof (World_wf_ticking [5%nat] trip World_wf_trip) as Hwf.
  pose proof (healthy_ticking [5%nat] trip healthy_trip) as Hw.
  split.
  - destruct (rename_preserves_identity 1 "Holiday" _ Hwf) as [H _].
    destruct (H (ImageGroup.mk 1 "Trip" 0 0)) as [Hres Hrun];
      [vm_compute; reflexivity|].
    split; [exact (Hres Hw)|].
    destruct (Hrun (Hres Hw)) as [(group' & H1 & H2 & H3 & H4 & H5) _].
    exists group'.
    split; [exact H1|]. split; [exact H2|]. split; [exact H3|].
    split; [exact H4|]. rewrite H5. vm_compute. reflexivity.
  - destruct (rename_preserves_identity 1 "sea.jpg" _ Hwf) as [_ H].
    destruct (H (StoredImage.mk 1 1 "a.jpg" jpeg 0)) as [Hres Hrun];
      [vm_compute; reflexivity|].
    split; [exact (Hres Hw)|].
    destruct (Hrun (Hres Hw)) as [(image' & H1 & H2 & H3 & H4 & H5 & H6) _].
    exists image'.
    split; [exact H1|]. split; [exact H2|]. split; [exact H3|].
    split; [exact H4|]. split; [exact H5|]. exact H6.
Defined.

(** ** Missing records *)

(** C5 (missing-record semantics).  For an id with no group record and an
    engine that fails no request, [getGroup id] resolves with [null], while
    [renameGroup id newName] rejects with the not-found error of the
    repository ("Group with ID <id> not found"); [renameImage] on an id with
    no image record rejects with "Image with ID <id> not found".  With any
    engine, a rename of a missing record never resolves and leaves the
    store as it is. *)
Theorem missing_record_semantics (id : Z) (newName : string) (w : World) :
  World_wf w →
  (groupRecords w !! id = None →
     (healthy w →
        result (getGroup id) w = Resolved None
        ∧ result (renameGroup id newName) w
          = Rejected (Error ("Group with ID " +:+ pretty id +:+ " not found")))
     ∧ result (renameGroup id newName) w ≠ Resolved tt
     ∧ groupRecords (run (renameGroup id newName) w) = groupRecords w)
  ∧ (imageRecords w !! id = None →
       (healthy w →
          result (renameImage id newName) w
          = Rejected (Error ("Image with ID " +:+ pretty id +:+ " not found")))
       ∧ result (renameImage id newName) w ≠ Resolved tt
       ∧ imageRecords (run (renameImage id newName) w) = imageRecords w).
Proof.
  intros Hwf. unfold result, run. split; intros Hnone.
  - destruct (getGroup id w) as [rg wg] eqn:Hget.
    destruct (renameGroup id newName w) as [rr wr] eqn:Hren. simpl.
    destruct (getGroup_spec _ _ _ _ Hget) as (_ & _ & _ & _ & Hrg).
    destruct (renameGroup_spec _ _ _ _ _ Hren) as (_ & _ & _ & Hrr).
    destruct rr as [[]|e].
    { destruct Hrr as (group & Hgroup & _). congruence. }
    destruct Hrr as [Hsame Hrr]. conj_split; [|done|done].
    intros Hw. split.
    + destruct (healthy_resolves rg w Hw) as [group ->].
      { destruct rg; [done|]. by apply Hrg. }
      congruence.
    + destruct (Hrr Hwf) as [[_ ->]|[m Hm]]; [done|].
      by destruct (healthy_no_Failure m _ Hw).
  - destruct (renameImage id newName w) as [rr wr] eqn:Hren. simpl.
    destruct (renameImage_spec _ _ _ _ _ Hren) as (_ & _ & _ & Hrr).
    destruct rr as [[]|e].
    { destruct Hrr as (image & Himage & _). congruence. }
    destruct Hrr as [Hsame Hrr]. conj_split; [|done|done].
    intros Hw. destruct (Hrr Hwf) as [[_ ->]|[m Hm]]; [done|].
    by destruct (healthy_no_Failure m _ Hw).
Qed.

Lemma missing_record_semantics_witness :
  (result (getGroup 7) trip = Resolved None
   ∧ result (renameGroup 7 "X") trip
     = Rejected (Error "Group with ID 7 not found"))
  ∧ result (renameImage 7 "X") trip
    = Rejected (Error "Image with ID 7 not found").
Proof.
  destruct (missing_record_semantics 7 "X" trip World_wf_trip) as [Hg Hi].
  split.
  - destruct Hg as [Hg _]; [vm_compute; reflexivity|].
    destruct (Hg healthy_trip) as [Hget Hrename]. split; [exact Hget|].
    rewrite Hrename. vm_compute. reflexivity.
  - destruct Hi as [Hi _]; [vm_compute; reflexivity|].
    rewrite (Hi healthy_trip). vm_compute. reflexivity.
Defined.

(** ** The index on [groupId] *)

Lemma fmap_key_of_entries {V} (keyPath : V → Z) (l : list (Z * V)) :
  (∀ k v, (k, v) ∈ l → keyPath v = k) → keyPath <$> l.*2 = l.*1.
Proof.
  induction l as [|[k v] l IH]; intros Hl; [done|]. simpl. f_equal.
  - apply Hl. left.
  - apply IH. intros k' v' Hin. apply Hl. by right.
Qed.

(** C6 (index correctness), as the code has it.  A [getImagesByGroup G]
    that resolves returns the image records whose [groupId] is [G], each
    once, and no other; it changes nothing; the sequence is empty exactly
    when no image has [groupId = G].  With an engine that fails no request
    it resolves, so that a group without images gives the empty sequence and
    not an error.  Whether there is a group of id [G] plays no part:
    [addImage] does not look at the groups, and an image added under [G] is
    in the sequence returned afterwards, with the images listed before,
    while the groups are as they were. *)
Theorem getImagesByGroup_index_correct (G : Z) (w : World) :
  World_wf w →
  (∀ images,
     result (getImagesByGroup G) w = Resolved images →
     (∀ image,
        image ∈ images
        ↔ ∃ k, imageRecords w !! k = Some image
               ∧ StoredImage.groupId image = G)
     ∧ NoDup (StoredImage.id <$> images)
     ∧ imageRecords (run (getImagesByGroup G) w) = imageRecords w
     ∧ (images = []
        ↔ ∀ k image,
            imageRecords w !! k = Some image →
            StoredImage.groupId image ≠ G))
  ∧ (healthy w →
     (∃ images, result (getImagesByGroup G) w = Resolved images)
     ∧ ((∀ k image,
           imageRecords w !! k = Some image →
           StoredImage.groupId image ≠ G) →
        result (getImagesByGroup G) w = Resolved []))
  ∧ (healthy w →
     ∀ name blob key,
       result (addImage G name blob) w = Resolved key →
       groupRecords (run (addImage G name blob) w) = groupRecords w
       ∧ ∃ images image,
           result (getImagesByGroup G) (run (addImage G name blob) w)
           = Resolved images
           ∧ image ∈ images
           ∧ StoredImage.id image = key
           ∧ StoredImage.groupId image = G
           ∧ StoredImage.name image = name
           ∧ StoredImage.blob image = blob
           ∧ ∀ image' k,
               imageRecords w !! k = Some image' →
               StoredImage.groupId image' = G →
               image' ∈ images).
Proof.
  intros Hwf. unfold result, run.
  destruct (getImagesByGroup G w) as [r w'] eqn:Hget. simpl.
  destruct (getImagesByGroup_spec _ _ _ _ Hget) as (_ & Hsame & _ & _ & Hr).
  assert (∀ images, r = Resolved images →
            ∀ image, image ∈ images
                     ↔ ∃ k, imageRecords w !! k = Some image
                            ∧ StoredImage.groupId image = G) as Hmem.
  { intros images ->. destruct Hr as (found & -> & _ & _ & Hfound).
    intros image. rewrite list_elem_of_fmap. split.
    - intros ([k v] & -> & Hin). exists k. by apply Hfound.
    - intros (k & Hk). exists (k, image). split; [done|]. by apply Hfound. }
  assert (∀ images, r = Resolved images →
            (images = []
             ↔ ∀ k image, imageRecords w !! k = Some image →
                          StoredImage.groupId image ≠ G)) as Hnil.
  { intros images Hres. split.
    - intros -> k image Hk HG.
      assert (image ∈ @nil StoredImage.t) as Hin
        by (apply (Hmem _ Hres); eauto).
      by apply elem_of_nil in Hin.
    - intros Hno. destruct images as [|image images]; [done|].
      destruct (proj1 (Hmem _ Hres image)) as (k & Hk & HG); [left|].
      by destruct (Hno k image Hk). }
  conj_split.
  - intros images Hres. split; [by apply Hmem|]. split; [|split].
    + subst r. destruct Hr as (found & -> & Hnodup & _ & Hfound).
      rewrite (fmap_key_of_entries StoredImage.id); [done|].
      intros k v [Hk _]%Hfound. by eapply World_wf_image_id.
    + done.
    + by apply Hnil.
  - intros Hw. destruct (healthy_resolves r w Hw) as [images Hres].
    { destruct r; [done|]. by apply Hr. }
    split; [by exists images|]. intros Hno. rewrite Hres. f_equal.
    by apply (Hnil images Hres).
  - intros Hw name blob key.
    destruct (addImage G name blob w) as [ra wa] eqn:Hadd. simpl.
    intros ->.
    destruct (addImage_spec _ _ _ _ _ _ Hadd)
      as (Hgroups & Hwfa & Hha & Ha & Hfresh).
    split; [exact Hgroups|].
    destruct (getImagesByGroup G wa) as [r2 w2] eqn:Hget2. simpl.
    destruct (getImagesByGroup_spec _ _ _ _ Hget2) as (_ & _ & _ & _ & Hr2).
    destruct (healthy_resolves r2 wa (Hha Hw)) as [images ->].
    { destruct r2; [done|]. apply Hr2. auto. }
    destruct Hr2 as (found & -> & _ & _ & Hfound). rewrite Ha in Hfound.
    eexists _, _. split; [done|]. conj_split.
    + apply list_elem_of_fmap. eexists (key, _). split; [done|].
      apply Hfound. by rewrite lookup_insert_eq.
    + done.
    + done.
    + done.
    + done.
    + intros image' k Hk HG. apply list_elem_of_fmap.
      exists (k, image'). split; [done|]. apply Hfound. split; [|done].
      rewrite lookup_insert_ne; [done|].
      intros ->. rewrite (Hfresh Hwf) in Hk. done.
Qed.

Lemma getImagesByGroup_index_correct_witness :
  (∃ images,
     result (getImagesByGroup 1) trip = Resolved images
     ∧ (∀ image,
          image ∈ images
          ↔ ∃ k, imageRecords trip !! k = Some image
                 ∧ StoredImage.groupId image = 1)
     ∧ NoDup (StoredImage.id <$> images))
  ∧ result (getImagesByGroup 2) trip = Resolved []
  ∧ groupRecords (run (addImage 9 "x.jpg" jpeg) trip) = groupRecords trip
  ∧ ∃ images image,
      result (getImagesByGroup 9) (run (addImage 9 "x.jpg" jpeg) trip)
      = Resolved images
      ∧ image ∈ images
      ∧ StoredImage.groupId image = 9.
Proof.
  split; [|split].
  - destruct (getImagesByGroup_index_correct 1 trip World_wf_trip)
      as (Hexact & Hresolves & _).
    destruct (Hresolves healthy_trip) as ((images & Hres) & _).
    exists images. split; [exact Hres|].
    destruct (Hexact images Hres) as (Hmem & Hnodup & _). by split.
  - destruct (getImagesByGroup_index_correct 2 trip World_wf_trip)
      as (_ & Hresolves & _).
    destruct (Hresolves healthy_trip) as (_ & Hnil).
    apply Hnil. apply (bool_decide_unpack _). vm_compute. exact I.
  - destruct (getImagesByGroup_index_correct 9 trip World_wf_trip)
      as (_ & _ & Hadded).
    destruct (Hadded healthy_trip "x.jpg" jpeg 3) as (Hgroups & Hlisted).
    { vm_compute. reflexivity. }
    split; [exact Hgroups|].
    destruct Hlisted as (images & image & Hres & Hin & _ & HG & _).
    by exists images, image.
Defined.

(** C6 as the specification states it fails for a group that does not
    exist.  After [addImage] under the id 9 in a fresh profile, a world the
    interface can be in, well formed and with an engine that fails nothing,
    there is no group 9 and [getImagesByGroup 9] is not the empty
    sequence. *)
Lemma getImagesByGroup_missing_group_not_empty :
  let w := perform (AddImage 9 "x.jpg" jpeg) fresh in
  reachable w ∧ World_wf w ∧ healthy w
  ∧ groupRecords w !! 9 = None
  ∧ result (getGroup 9) w = Resolved None
  ∧ result (getImagesByGroup 9) w
    = Resolved [StoredImage.mk 1 9 "x.jpg" jpeg 0]
  ∧ result (getImagesByGroup 9) w ≠ Resolved [].
Proof.
  cbv zeta. conj_split.
  - apply reachable_call, reachable_start. reflexivity.
  - apply (bool_decide_unpack _). vm_compute. exact I.
  - apply (bool_decide_unpack _). vm_compute. exact I.
  - vm_compute. reflexivity.
  - vm_compute. reflexivity.
  - vm_compute. reflexivity.
  - vm_compute. discriminate.
Qed.

(** [addImage] does not look at the groups: an image added under an id
    that is no group's is stored, and listed under that id. *)
Example orphan_image_listed :
  let w := perform (AddImage 9 "x.jpg" jpeg) fresh in
  result (getGroup 9) w = Resolved None
  ∧ result (getImagesByGroup 9) w
    = Resolved [StoredImage.mk 1 9 "x.jpg" jpeg 0].
Proof. vm_compute. done. Qed.

(** ** Names *)

(** C7, as the code has it.  [renameGroup] does not look at the name it is
    given: on an existing group, with an engine that fails no request, it
    resolves for every [newName], the empty string included, and the stored
    name becomes [newName].  When [renameGroup] is rejected, the group
    records, hence the stored name, are as before. *)
Theorem renameGroup_name_unchecked (id : Z) (newName : string) (w : World) :
  World_wf w →
  (healthy w → is_Some (groupRecords w !! id) →
     result (renameGroup id newName) w = Resolved tt
     ∧ ImageGroup.name <$> groupRecords (run (renameGroup id newName) w) !! id
       = Some newName)
  ∧ (∀ e, result (renameGroup id newName) w = Rejected e →
          groupRecords (run (renameGroup id newName) w) = groupRecords w).
Proof.
  intros Hwf. unfold result, run.
  destruct (renameGroup id newName w) as [r w'] eqn:Hrun. simpl.
  destruct (renameGroup_spec _ _ _ _ _ Hrun) as (_ & _ & _ & Hr).
  split.
  - intros Hw [group Hgroup].
    destruct (healthy_resolves r w Hw) as [[] ->].
    { destruct r; [done|]. destruct Hr as [_ Hr].
      destruct (Hr Hwf) as [[Hnone _]|?]; [congruence | done]. }
    split; [done|]. destruct Hr as (group0 & Hgroup0 & -> & _).
    assert (group0 = group) as -> by congruence.
    rewrite (World_wf_group_id _ _ _ Hwf Hgroup).
    by rewrite lookup_insert_eq.
  - intros e ->. by destruct Hr.
Qed.

Lemma renameGroup_name_unchecked_witness :
  result (renameGroup 1 EmptyString) trip = Resolved tt
  ∧ ImageGroup.name
      <$> groupRecords (run (renameGroup 1 EmptyString) trip) !! 1
    = Some EmptyString.
Proof.
  destruct (renameGroup_name_unchecked 1 EmptyString trip World_wf_trip)
    as [H _].
  apply H; [exact healthy_trip|].
  exists (ImageGroup.mk 1 "Trip" 0 0). vm_compute. reflexivity.
Defined.

(** C7 as the specification states it fails: [renameGroup 1 ""] on the
    group "Trip" of the scenario is not rejected, and the stored name is
    empty afterwards. *)
Lemma renameGroup_empty_name_accepted :
  ¬ (∃ e, result (renameGroup 1 EmptyString) trip = Rejected e)
  ∧ ImageGroup.name <$> groupRecords trip !! 1 = Some "Trip"
  ∧ ImageGroup.name <$> groupRecords (run (renameGroup 1 EmptyString) trip) !! 1
    ≠ ImageGroup.name <$> groupRecords trip !! 1.
Proof.
  assert (result (renameGroup 1 EmptyString) trip = Resolved tt) as Hres
    by (vm_compute; reflexivity).
  split; [|split].
  - intros [e He]. rewrite Hres in He. discriminate He.
  - vm_compute. reflexivity.
  - vm_compute. discriminate.
Qed.

(** ** Creation *)

(** What [createGroup] does when it resolves: one record is added, at the
    key the store generated, which is the result; [createdAt] and
    [updatedAt] are two readings of the clock, the second after the first;
    nothing else changes. *)
Lemma createGroup_inserts_one (name : string) (w : World) (key : Z) :
  World_wf w →
  result (createGroup name) w = Resolved key →
  let w' := run (createGroup name) w in
  groupRecords w !! key = None
  ∧ (∃ group,
       groupRecords w' = <[key := group]> (groupRecords w)
       ∧ ImageGroup.id group = key
       ∧ ImageGroup.name group = name
       ∧ ImageGroup.createdAt group = now w + Z.of_nat (hd 0%nat (ticks w))
       ∧ ImageGroup.updatedAt group
         = ImageGroup.createdAt group + Z.of_nat (hd 0%nat (tail (ticks w))))
  ∧ size (groupRecords w') = S (size (groupRecords w))
  ∧ imageRecords w' = imageRecords w.
Proof.
  intros Hwf. unfold result, run. cbv zeta.
  destruct (createGroup name w) as [r w'] eqn:Hrun. simpl. intros ->.
  destruct (createGroup_spec _ _ _ _ Hrun) as (Hi & _ & _ & Hg & Hfresh).
  specialize (Hfresh Hwf). conj_split; [done| |idtac|done].
  - eexists. split; [exact Hg|]. by conj_split.
  - rewrite Hg. by apply map_size_insert_None.
Qed.

(** With a clock that stands still between the two readings, the two
    fields are equal. *)
Lemma createGroup_still_clock (name : string) (w : World) (key : Z) group :
  World_wf w →
  hd 0%nat (tail (ticks w)) = 0%nat →
  result (createGroup name) w = Resolved key →
  groupRecords (run (createGroup name) w) !! key = Some group →
  ImageGroup.createdAt group = ImageGroup.updatedAt group.
Proof.
  intros Hwf Hstill Hres.
  destruct (createGroup_inserts_one name w key Hwf Hres)
    as (_ & (group' & -> & _ & _ & _ & Hupd) & _).
  rewrite lookup_insert_eq. intros [= <-]. rewrite Hupd, Hstill. simpl. lia.
Qed.

(** C8 at the failing input: the clock advances by a millisecond between
    the two [new Date()] of [createGroup]; the record is created with
    [createdAt = 0] and [updatedAt = 1]. *)
Theorem createGroup_two_clock_readings :
  let w := ticking [0%nat; 1%nat] fresh in
  result (createGroup "Trip") w = Resolved 1
  ∧ groupRecords (run (createGroup "Trip") w) !! 1
    = Some (ImageGroup.mk 1 "Trip" 0 1)
  ∧ ∃ group,
      groupRecords (run (createGroup "Trip") w) !! 1 = Some group
      ∧ ImageGroup.createdAt group ≠ ImageGroup.updatedAt group.
Proof.
  cbv zeta. split; [vm_compute; reflexivity|].
  split; [vm_compute; reflexivity|].
  exists (ImageGroup.mk 1 "Trip" 0 1). split; [vm_compute; reflexivity|].
  simpl. lia.
Qed.

(** ** Connections *)

Ltac new_transactions :=
  let tx := fresh "tx" in
  let Hin := fresh "Hin" in
  intros tx Hin; cbn in Hin;
  repeat (apply elem_of_cons in Hin as [->|Hin]);
  [right; cbn; lia .. | by left].

(** C9, as the code has it.  Every call of the interface opens the database
    anew: when its [indexedDB.open] request succeeds, a connection is made
    that did not exist before the call, and every transaction the call
    starts is on a connection made during the call.  No connection is kept
    from one call to the next. *)
Theorem connection_per_call (c : Call) (w : World) :
  let w' := perform c w in
  (hd Success (outcomes w) = Success → (opened w < opened w')%nat)
  ∧ ∀ tx, tx ∈ txlog w' →
          tx ∈ txlog w ∨ (opened w ≤ connection tx < opened w')%nat.
Proof.
  destruct c; cbn [perform]; run_cases w; rewrite ?lookup_empty; cbn;
    try by_lookup; by_outcomes.
  all: split; [first [done | cbn; lia] | new_transactions].
Qed.

Lemma connection_per_call_witness :
  let w' := perform (GetGroup 1) trip in
  (opened trip < opened w')%nat
  ∧ ∀ tx, tx ∈ txlog w' →
          tx ∈ txlog trip ∨ (opened trip ≤ connection tx < opened w')%nat.
Proof.
  destruct (connection_per_call (GetGroup 1) trip) as [Hopened Hlog].
  split; [apply Hopened; reflexivity | exact Hlog].
Defined.

(** C9 as the specification states it fails: the two calls that follow a
    fresh start run their transactions on two connections, and two
    connections were opened. *)
Lemma connection_not_reused :
  let w := perform (GetGroup 1) (perform (CreateGroup "Trip") fresh) in
  opened fresh = 0%nat
  ∧ txlog w = [mkTx 1%nat "groups" ReadOnly; mkTx 0%nat "groups" ReadWrite]
  ∧ opened w = 2%nat
  ∧ ¬ (∃ db, ∀ tx, tx ∈ txlog w → connection tx = db).
Proof.
  cbv zeta.
  assert (txlog (perform (GetGroup 1) (perform (CreateGroup "Trip") fresh))
          = [mkTx 1%nat "groups" ReadOnly; mkTx 0%nat "groups" ReadWrite])
    as Hlog by (vm_compute; reflexivity).
  split; [reflexivity|]. split; [exact Hlog|].
  split; [vm_compute; reflexivity|].
  rewrite Hlog. intros [db Hdb].
  pose proof (Hdb _ (list_elem_of_here _ _)) as H1.
  pose proof (Hdb _ (list_elem_of_further _ _ _ (list_elem_of_here _ _))) as H0.
  simpl in H1, H0. congruence.
Qed.

(** * Further properties of the service *)

(** ** Listing the groups *)

Lemma ascending_keys {V} (l : list (Z * V)) :
  StronglySorted key_le l → NoDup l.*1 → StronglySorted Z.lt l.*1.
Proof.
  induction 1 as [|a l Hl IH Hk]; [constructor|].
  destruct a as [k v]. rewrite fmap_cons. simpl.
  intros [Hnotin Hnodup]%NoDup_cons. constructor; [by apply IH|].
  rewrite Forall_forall in Hk. rewrite Forall_forall. intros k' Hin.
  apply list_elem_of_fmap in Hin as ([k'' v'] & -> & Hin). simpl.
  specialize (Hk _ Hin). unfold key_le in Hk. simpl in Hk.
  destruct (decide (k = k'')) as [->|Hne]; [|lia].
  destruct Hnotin. apply list_elem_of_fmap. by exists (k'', v').
Qed.

Lemma getAllGroups_found w r w' :
  getAllGroups w = (r, w') →
  match r with
  | Resolved result =>
      ∃ found : list (Z * ImageGroup.t),
        result = found.*2
        ∧ NoDup found.*1
        ∧ StronglySorted key_le found
        ∧ length found = size (groupRecords w)
        ∧ ∀ k group, (k, group) ∈ found ↔ groupRecords w !! k = Some group
  | Rejected _ => True
  end.
Proof.
  run_cases w; intros [= <- <-]; cbn; try done.
  all: eexists; split; [done|];
    split; [apply NoDup_entries|];
    split; [apply entries_ascending|];
    split; [|intros k group; apply elem_of_entries].
  all: unfold entries; rewrite merge_sort_Permutation;
    apply length_map_to_list.
Qed.

(** [getAllGroups] (lines 185-200).  When it resolves, the result holds
    every group record, each once, in strictly ascending order of id, which
    is the order of creation; nothing is changed.  It resolves when the
    engine fails no request. *)
Theorem getAllGroups_lists_all (w : World) :
  World_wf w →
  (∀ all,
     result getAllGroups w = Resolved all →
     (∀ group, group ∈ all ↔ ∃ k, groupRecords w !! k = Some group)
     ∧ StronglySorted Z.lt (ImageGroup.id <$> all)
     ∧ length all = size (groupRecords w))
  ∧ groupRecords (run getAllGroups w) = groupRecords w
  ∧ imageRecords (run getAllGroups w) = imageRecords w
  ∧ (healthy w → ∃ all, result getAllGroups w = Resolved all).
Proof.
  intros Hwf. unfold result, run.
  destruct (getAllGroups w) as [r w'] eqn:Hrun. simpl.
  pose proof (getAllGroups_found _ _ _ Hrun) as Hfound.
  destruct (getAllGroups_spec _ _ _ Hrun) as (Hg & Hi & _ & _ & Hr).
  conj_split; [|done|done|].
  - intros all ->.
    destruct Hfound as (found & -> & Hnodup & Hsorted & Hlen & Hin).
    assert (ImageGroup.id <$> found.*2 = found.*1) as Hids.
    { apply fmap_key_of_entries. intros k v Hkv%Hin.
      by eapply World_wf_group_id. }
    conj_split.
    + done.
    + rewrite Hids. by apply ascending_keys.
    + by rewrite length_fmap.
  - intros Hw. apply (healthy_resolves r w Hw).
    destruct r; [done|]. by apply Hr.
Qed.

Lemma getAllGroups_lists_all_witness :
  ∃ all,
    result getAllGroups trip = Resolved all
    ∧ (∀ group, group ∈ all ↔ ∃ k, groupRecords trip !! k = Some group)
    ∧ StronglySorted Z.lt (ImageGroup.id <$> all)
    ∧ length all = size (groupRecords trip).
Proof.
  destruct (getAllGroups_lists_all trip World_wf_trip)
    as (Hall & _ & _ & Hresolves).
  destruct (Hresolves healthy_trip) as [all Hres].
  exists all. split; [exact Hres|]. exact (Hall all Hres).
Defined.

(** ** Identifiers *)

Lemma generators_monotone c w :
  nextGroupId w ≤ nextGroupId (perform c w)
  ∧ nextImageId w ≤ nextImageId (perform c w).
Proof.
  unfold nextGroupId, nextImageId.
  destruct c; cbn [perform]; run_cases w; rewrite ?lookup_empty; cbn;
    try by_lookup; by_outcomes; rewrite ?keyGenerator_delete_keys; cbn; lia.
Qed.

Lemma generators_monotone_all calls w :
  nextGroupId w ≤ nextGroupId (perform_all calls w)
  ∧ nextImageId w ≤ nextImageId (perform_all calls w).
Proof.
  revert w. induction calls as [|c calls IH]; intros w; [done|].
  simpl. destruct (generators_monotone c w), (IH (perform c w)). lia.
Qed.

Lemma createGroup_key name w key :
  result (createGroup name) w = Resolved key →
  key = nextGroupId w ∧ nextGroupId (run (createGroup name) w) = key + 1.
Proof.
  unfold nextGroupId.
  run_cases w; intros [= <-]; done.
Qed.

Lemma addImage_key groupId name blob w key :
  result (addImage groupId name blob) w = Resolved key →
  key = nextImageId w
  ∧ nextImageId (run (addImage groupId name blob) w) = key + 1.
Proof.
  unfold nextImageId.
  run_cases w; intros [= <-]; done.
Qed.

(** Identifiers are never reused (stores created with [autoIncrement],
    lines 98-113; [store.add], lines 159 and 365).  The id that
    [createGroup] returns is greater than the id returned by any earlier
    [createGroup], whatever calls were made in between, deletes of groups
    included; the same holds for [addImage]. *)
Theorem ids_never_reused (calls : list Call) (w : World) :
  (∀ name1 name2 key1 key2,
     result (createGroup name1) w = Resolved key1 →
     result (createGroup name2)
       (perform_all calls (run (createGroup name1) w)) = Resolved key2 →
     key1 < key2)
  ∧ (∀ groupId1 name1 blob1 groupId2 name2 blob2 key1 key2,
       result (addImage groupId1 name1 blob1) w = Resolved key1 →
       result (addImage groupId2 name2 blob2)
         (perform_all calls (run (addImage groupId1 name1 blob1) w))
       = Resolved key2 →
       key1 < key2).
Proof.
  split.
  - intros name1 name2 key1 key2 H1 H2.
    apply createGroup_key in H1 as [_ H1]. apply createGroup_key in H2 as [-> _].
    destruct (generators_monotone_all calls (run (createGroup name1) w)). lia.
  - intros groupId1 name1 blob1 groupId2 name2 blob2 key1 key2 H1 H2.
    apply addImage_key in H1 as [_ H1]. apply addImage_key in H2 as [-> _].
    destruct (generators_monotone_all calls
                (run (addImage groupId1 name1 blob1) w)). lia.
Qed.

(** Group 1 is created and deleted; the next group is group 2. *)
Lemma ids_never_reused_witness :
  1 < 2
  ∧ result (createGroup "A") fresh = Resolved 1
  ∧ result (createGroup "B")
      (perform_all [DeleteGroup 1] (run (createGroup "A") fresh))
    = Resolved 2.
Proof.
  assert (result (createGroup "A") fresh = Resolved 1) as H1
    by (vm_compute; reflexivity).
  assert (result (createGroup "B")
            (perform_all [DeleteGroup 1] (run (createGroup "A") fresh))
          = Resolved 2) as H2 by (vm_compute; reflexivity).
  split; [|by split].
  destruct (ids_never_reused [DeleteGroup 1] fresh) as [Hgroups _].
  exact (Hgroups "A" "B" 1 2 H1 H2).
Defined.

(** ** Creating and reading back *)

Lemma last_of_ascending {A} (f : A → Z) (l : list A) (x : A) :
  StronglySorted Z.lt (f <$> l) → x ∈ l → (∀ y, y ∈ l → f y ≤ f x) →
  last l = Some x.
Proof.
  induction l as [|a l IH]; [by intros _ ?%elem_of_nil|].
  rewrite fmap_cons. intros [Hl Ha]%StronglySorted_inv Hin Hmax.
  rewrite Forall_forall in Ha.
  destruct l as [|b l].
  - apply list_elem_of_singleton in Hin as ->. done.
  - change (last (a :: b :: l)) with (last (b :: l)). apply IH; [done| |].
    + apply elem_of_cons in Hin as [->|Hin]; [|done].
      assert (f b ≤ f a) by (apply Hmax; right; left).
      assert (f a < f b) by (apply Ha; left). lia.
    + intros y Hy. apply Hmax. by right.
Qed.

(** [createGroup] then [getGroup] and [getAllGroups] (lines 147-232).
    With an engine that fails no request, the id that [createGroup] returns
    reads back, through [getGroup], a group with that id and the given
    name, whose [createdAt] is not after its [updatedAt]; the groups that
    were there read back as before; [getAllGroups] lists the new group
    last. *)
Theorem createGroup_reads_back (name : string) (w : World) (key : Z) :
  World_wf w → healthy w →
  result (createGroup name) w = Resolved key →
  let w' := run (createGroup name) w in
  (∃ group,
     result (getGroup key) w' = Resolved (Some group)
     ∧ ImageGroup.id group = key
     ∧ ImageGroup.name group = name
     ∧ ImageGroup.createdAt group ≤ ImageGroup.updatedAt group
     ∧ ∃ all, result getAllGroups w' = Resolved all ∧ last all = Some group)
  ∧ ∀ id, id ≠ key → result (getGroup id) w' = result (getGroup id) w.
Proof.
  intros Hwf Hw Hres. cbv zeta. unfold result, run in *.
  destruct (createGroup name w) as [r w'] eqn:Hcreate. simpl in *. subst r.
  destruct (createGroup_spec _ _ _ _ Hcreate)
    as (_ & Hwf' & Hw' & Hg & Hfresh).
  specialize (Hwf' Hwf). specialize (Hw' Hw). specialize (Hfresh Hwf).
  assert (∀ id w0 r0 w1, getGroup id w0 = (r0, w1) → World_wf w0 →
            healthy w0 → r0 = Resolved (groupRecords w0 !! id)) as Hget.
  { intros id w0 r0 w1 Hrun Hwf0 Hw0.
    destruct (getGroup_spec _ _ _ _ Hrun) as (_ & _ & _ & _ & Hr).
    destruct (healthy_resolves r0 w0 Hw0) as [g ->]; [|by rewrite Hr].
    destruct r0; [done|]. by apply Hr. }
  split.
  - eexists. destruct (getGroup key w') as [rg wg] eqn:Hrun. simpl.
    rewrite (Hget _ _ _ _ Hrun Hwf' Hw'), Hg, lookup_insert_eq.
    conj_split; [done|done|done|simpl; lia|].
    destruct (getAllGroups w') as [ra wa] eqn:Hall. simpl.
    pose proof (getAllGroups_found _ _ _ Hall) as Hfound.
    destruct (getAllGroups_spec _ _ _ Hall) as (_ & _ & _ & _ & Hr).
    destruct (healthy_resolves ra w' Hw') as [all ->].
    { destruct ra; [done|]. by apply Hr. }
    exists all. split; [done|].
    destruct Hfound as (found & -> & Hnodup & Hsorted & _ & Hin).
    apply (last_of_ascending ImageGroup.id).
    + rewrite (fmap_key_of_entries ImageGroup.id).
      * by apply ascending_keys.
      * intros k v Hkv%Hin. by eapply World_wf_group_id.
    + apply Hr. exists key. by rewrite Hg, lookup_insert_eq.
    + intros group [k Hk]%Hr. simpl.
      rewrite (World_wf_group_id _ _ _ Hwf' Hk).
      rewrite Hg in Hk. destruct (decide (key = k)) as [->|Hne]; [lia|].
      rewrite lookup_insert_ne in Hk by done.
      assert (k < nextGroupId w) as Hlt.
      { revert Hwf Hk. clear. unfold World_wf, Database_wf, nextGroupId,
          groupRecords, stores.
        destruct (database w) as [[[gs|] [im|]]|]; simpl; try done.
        intros [Hgs _] Hk. unfold store_wf in Hgs.
        rewrite map_Forall_lookup in Hgs. by destruct (Hgs _ _ Hk). }
      assert (key = nextGroupId w) as ->; [|lia].
      apply (createGroup_key name). unfold result. by rewrite Hcreate.
  - intros id Hne.
    destruct (getGroup id w') as [r1 w1] eqn:Hrun1.
    destruct (getGroup id w) as [r0 w0] eqn:Hrun0. simpl.
    rewrite (Hget _ _ _ _ Hrun1 Hwf' Hw'), (Hget _ _ _ _ Hrun0 Hwf Hw).
    by rewrite Hg, lookup_insert_ne.
Qed.

Lemma createGroup_reads_back_witness :
  let w' := run (createGroup "Second") trip in
  (∃ group,
     result (getGroup 2) w' = Resolved (Some group)
     ∧ ImageGroup.id group = 2
     ∧ ImageGroup.name group = "Second"
     ∧ ImageGroup.createdAt group ≤ ImageGroup.updatedAt group
     ∧ ∃ all, result getAllGroups w' = Resolved all ∧ last all = Some group)
  ∧ ∀ id, id ≠ 2 → result (getGroup id) w' = result (getGroup id) trip.
Proof.
  apply (createGroup_reads_back "Second" trip 2).
  - exact World_wf_trip.
  - exact healthy_trip.
  - vm_compute. reflexivity.
Defined.

(** ** Opening the database *)

(** [openDB] (lines 88-125).  The upgrade handler creates a store only when
    the database has none of that name: an existing store is kept with its
    records, and running the handler again changes nothing.  The first
    successful open creates the database with two empty stores whose key
    generators are at 1; a failed open creates nothing; opening a database
    that exists leaves it as it is. *)
Theorem openDB_schema (w : World) :
  (∀ db, database w = Some db → database (run openDB w) = Some db)
  ∧ (database w = None →
     match result openDB w with
     | Resolved _ =>
         database (run openDB w)
         = Some (mkDatabase (Some createObjectStore) (Some createObjectStore))
     | Rejected _ => database (run openDB w) = None
     end)
  ∧ ∀ db,
      (∀ s, groups db = Some s → groups (onupgradeneeded db) = Some s)
      ∧ (∀ s, images db = Some s → images (onupgradeneeded db) = Some s)
      ∧ (groups db = None → groups (onupgradeneeded db) = Some createObjectStore)
      ∧ (images db = None → images (onupgradeneeded db) = Some createObjectStore)
      ∧ onupgradeneeded (onupgradeneeded db) = onupgradeneeded db.
Proof.
  conj_split.
  - intros db Hdb. unfold run, openDB, next_outcome, version, stores.
    destruct w as [d o l n t oc]. simpl in *. subst d. simpl.
    destruct (hd Success oc); by destruct db.
  - intros Hdb. unfold result, run, openDB, next_outcome, version, stores.
    destruct w as [d o l n t oc]. simpl in *. subst d. simpl.
    by destruct (hd Success oc).
  - intros [[gs|] [im|]]; unfold onupgradeneeded; simpl;
      conj_split; intros; simplify_eq; done.
Qed.

Lemma openDB_schema_witness :
  database (run openDB trip) = database trip
  ∧ database (run openDB fresh)
    = Some (mkDatabase (Some createObjectStore) (Some createObjectStore))
  ∧ database (run openDB (failing 0 fresh)) = None.
Proof.
  destruct (openDB_schema trip) as (Hkept & _ & _).
  destruct (openDB_schema fresh) as (_ & Hfresh & _).
  destruct (openDB_schema (failing 0 fresh)) as (_ & Hfailing & _).
  split; [|split].
  - destruct (database trip) as [db|] eqn:Hdb; [|discriminate Hdb].
    exact (Hkept db eq_refl).
  - exact (Hfresh eq_refl).
  - exact (Hfailing eq_refl).
Defined.

(** ** Errors *)

Ltac engine_failure here :=
  right; eexists _, _; split; [here|];
  split; [failure_scheduled | reflexivity].

Ltac normalised :=
  first
    [ left; reflexivity
    | engine_failure ltac:(apply list_elem_of_here)
    | engine_failure
        ltac:(apply list_elem_of_further, list_elem_of_here)
    | engine_failure
        ltac:(apply list_elem_of_further, list_elem_of_further,
                list_elem_of_here) ].

(** Error normalisation (every [onerror] handler of lines 120-526, and the
    two not-found branches).  In a well-formed store, a call that rejects
    rejects with a plain [Error]: either the not-found error of a rename whose
    record is missing, or a text of the call (or "Database failed to open: ")
    followed by the message of an engine failure that was in the schedule.
    The message part is never empty: it is "Unknown error" when the engine
    gives none. *)
Theorem rejections_normalised (c : Call) (w : World) (e : JsError) :
  World_wf w →
  rejection c w = Some e →
  (not_found c w = Some e
   ∨ ∃ prefix m,
       prefix ∈ "Database failed to open: " :: failure_prefixes c
       ∧ Failure m ∈ outcomes w
       ∧ e = Error (prefix +:+ error_message m))
  ∧ ∀ m, error_message m ≠ EmptyString.
Proof.
  intros Hwf Hrej. split.
  - revert Hwf Hrej. unfold rejection, reason_of, not_found.
    destruct c; cbn [failure_prefixes]; run_cases w; rewrite ?lookup_empty;
      cbn; try by_lookup; by_outcomes; try done;
      intros Hwf [= <-]; try (by destruct Hwf); normalised.
  - intros [s|]; [|done]. unfold error_message. by case_decide.
Qed.

Lemma rejections_normalised_witness :
  (not_found (DeleteGroup 1) (failing 5 trip)
   = Some (Error "Failed to delete images: Unknown error")
   ∨ ∃ prefix m,
       prefix ∈ "Database failed to open: " :: failure_prefixes (DeleteGroup 1)
       ∧ Failure m ∈ outcomes (failing 5 trip)
       ∧ Error "Failed to delete images: Unknown error"
         = Error (prefix +:+ error_message m))
  ∧ ∀ m, error_message m ≠ EmptyString.
Proof.
  apply (rejections_normalised (DeleteGroup 1) (failing 5 trip)).
  - exact World_wf_trip.
  - vm_compute. reflexivity.
Defined.

(** ** What a call leaves alone *)

Ltac logged :=
  let tx := fresh "tx" in
  let Hin := fresh "Hin" in
  intros tx Hin; cbn in Hin;
  repeat (apply elem_of_cons in Hin as [->|Hin]);
  [by right .. | by left].

(** The reading calls ([getAllGroups], [getGroup], [getImagesByGroup]:
    lines 185-232 and 396-412) change no record and no key generator,
    whatever the engine does, and start read-only transactions only. *)
Theorem reads_change_nothing (c : Call) (w : World) :
  reads_only c = true →
  let w' := perform c w in
  groupRecords w' = groupRecords w
  ∧ imageRecords w' = imageRecords w
  ∧ nextGroupId w' = nextGroupId w
  ∧ nextImageId w' = nextImageId w
  ∧ ∀ tx, tx ∈ txlog w' → tx ∈ txlog w ∨ mode tx = ReadOnly.
Proof.
  unfold nextGroupId, nextImageId.
  destruct c; try discriminate; intros _; cbn [perform]; run_cases w;
    conj_split; try done; logged.
Qed.

Lemma reads_change_nothing_witness :
  let w' := perform (GetImagesByGroup 1) trip in
  groupRecords w' = groupRecords trip
  ∧ imageRecords w' = imageRecords trip
  ∧ nextGroupId w' = nextGroupId trip
  ∧ nextImageId w' = nextImageId trip
  ∧ ∀ tx, tx ∈ txlog w' → tx ∈ txlog trip ∨ mode tx = ReadOnly.
Proof. apply (reads_change_nothing (GetImagesByGroup 1) trip). reflexivity. Defined.

(** Every call but [deleteGroup] works in one store: the image calls
    (lines 348-493) never change a group record or the groups' key
    generator and start transactions on "images" only; the other group calls
    (lines 147-285) never change an image record or the images' key
    generator and start transactions on "groups" only. *)
Theorem calls_keep_to_their_store (c : Call) (w : World) :
  let w' := perform c w in
  (on_images c = true →
     groupRecords w' = groupRecords w
     ∧ nextGroupId w' = nextGroupId w
     ∧ ∀ tx, tx ∈ txlog w' → tx ∈ txlog w ∨ scope tx = "images")
  ∧ (on_groups c = true →
       imageRecords w' = imageRecords w
       ∧ nextImageId w' = nextImageId w
       ∧ ∀ tx, tx ∈ txlog w' → tx ∈ txlog w ∨ scope tx = "groups").
Proof.
  unfold nextGroupId, nextImageId.
  destruct c; cbn [perform on_images on_groups];
    (split; [try discriminate | try discriminate]); intros _;
    run_cases w; rewrite ?lookup_empty; cbn; try by_lookup; by_outcomes;
    conj_split; try done; logged.
Qed.

Lemma calls_keep_to_their_store_witness :
  let w' := perform (AddImage 1 "c.jpg" jpeg) trip in
  groupRecords w' = groupRecords trip
  ∧ nextGroupId w' = nextGroupId trip
  ∧ ∀ tx, tx ∈ txlog w' → tx ∈ txlog trip ∨ scope tx = "images".
Proof.
  destruct (calls_keep_to_their_store (AddImage 1 "c.jpg" jpeg) trip)
    as [Himages _].
  apply Himages. reflexivity.
Defined.

(** A call that rejects has changed nothing, except for [deleteGroup]: no
    record and no key generator differs after a rejected create, read,
    rename, add or delete of an image. *)
Theorem rejected_calls_change_nothing (c : Call) (w : World) (e : JsError) :
  (∀ groupId, c ≠ DeleteGroup groupId) →
  rejection c w = Some e →
  let w' := perform c w in
  groupRecords w' = groupRecords w
  ∧ imageRecords w' = imageRecords w
  ∧ nextGroupId w' = nextGroupId w
  ∧ nextImageId w' = nextImageId w.
Proof.
  unfold nextGroupId, nextImageId, rejection, reason_of.
  intros Hc. destruct c; try (by destruct (Hc groupId)); clear Hc;
    cbn [perform]; run_cases w; rewrite ?lookup_empty; cbn; try by_lookup;
    by_outcomes; intros [= <-]; done.
Qed.

Lemma rejected_calls_change_nothing_witness :
  let w' := perform (RenameGroup 1 "Holiday") (failing 2 trip) in
  rejection (RenameGroup 1 "Holiday") (failing 2 trip)
  = Some (Error "Failed to rename group: Unknown error")
  ∧ groupRecords w' = groupRecords trip
  ∧ imageRecords w' = imageRecords trip
  ∧ nextGroupId w' = nextGroupId trip
  ∧ nextImageId w' = nextImageId trip.
Proof.
  assert (rejection (RenameGroup 1 "Holiday") (failing 2 trip)
          = Some (Error "Failed to rename group: Unknown error")) as Hrej
    by (vm_compute; reflexivity).
  split; [exact Hrej|].
  apply (rejected_calls_change_nothing (RenameGroup 1 "Holiday")
           (failing 2 trip) _ ltac:(discriminate) Hrej).
Defined.

(** The window of [deleteGroup] (lines 303-323: two transactions).  When
    [deleteGroup] rejects, the group records are as before.  The images are
    as before too, unless the error is that of the group's row delete
    ("Failed to delete group: ..."): then the images of the group are
    already deleted, and the group is still there. *)
Theorem deleteGroup_rejected (groupId : Z) (w : World) (e : JsError) :
  World_wf w →
  result (deleteGroup groupId) w = Rejected e →
  let w' := run (deleteGroup groupId) w in
  groupRecords w' = groupRecords w
  ∧ ((∃ m, e = Error ("Failed to delete group: " +:+ error_message m)
           ∧ imageRecords w'
             = filter (λ e, StoredImage.groupId e.2 ≠ groupId)
                 (imageRecords w))
     ∨ ((∀ m, e ≠ Error ("Failed to delete group: " +:+ error_message m))
        ∧ imageRecords w' = imageRecords w)).
Proof.
  run_cases w; try done; intros Hwf [= <-]; cbn; (split; [done|]);
    first
      [ left; eexists; split; [reflexivity | by eauto with engine]
      | right; split; [by intros m [=] | done] ].
Qed.

Lemma deleteGroup_rejected_witness :
  let w := failing 7 trip in
  let w' := run (deleteGroup 1) w in
  result (deleteGroup 1) w
  = Rejected (Error "Failed to delete group: Unknown error")
  ∧ groupRecords w' = groupRecords w
  ∧ imageRecords w' = ∅
  ∧ size (imageRecords w) = 2%nat.
Proof.
  cbv zeta.
  assert (result (deleteGroup 1) (failing 7 trip)
          = Rejected (Error "Failed to delete group: Unknown error")) as Hres
    by (vm_compute; reflexivity).
  destruct (deleteGroup_rejected 1 (failing 7 trip) _ World_wf_trip Hres)
    as [Hgroups _].
  split; [exact Hres|]. split; [exact Hgroups|].
  split; vm_compute; reflexivity.
Defined.

(** ** The order of a listing *)

Lemma NoDup_keys_inj {V} (l : list (Z * V)) k v1 v2 :
  NoDup l.*1 → (k, v1) ∈ l → (k, v2) ∈ l → v1 = v2.
Proof.
  induction l as [|[k' v'] l IH]; [by intros _ ?%elem_of_nil|].
  rewrite fmap_cons. simpl. intros [Hnotin Hnodup]%NoDup_cons H1 H2.
  apply elem_of_cons in H1 as [[= -> ->]|H1];
    apply elem_of_cons in H2 as [[= ->]|H2]; try done.
  - destruct Hnotin. apply list_elem_of_fmap. by exists (k', v2).
  - simplify_eq. destruct Hnotin. apply list_elem_of_fmap. by exists (k', v1).
  - by apply IH.
Qed.

(** Two ascending enumerations of the same entries are the same list. *)
Lemma ascending_unique {V} (l1 l2 : list (Z * V)) :
  StronglySorted key_le l1 → StronglySorted key_le l2 →
  NoDup l1.*1 → NoDup l2.*1 → (∀ e, e ∈ l1 ↔ e ∈ l2) → l1 = l2.
Proof.
  intros Hs1 Hs2 Hn1 Hn2 Hsame.
  apply (StronglySorted_unique_strong key_le); [|done|done|].
  - intros [k1 v1] [k2 v2] H1 H2. unfold key_le. simpl. intros Hle1 Hle2.
    assert (k1 = k2) as -> by lia. f_equal.
    apply Hsame in H1. by eapply NoDup_keys_inj.
  - apply NoDup_Permutation; [by eapply NoDup_fmap_1 ..|done].
Qed.

Section index_order.
Context {V : Type} (indexPath : V → Z).
Implicit Types (m : gmap Z V) (v : V) (k key : Z).

Lemma matching_insert_last key m g g' k v :
  (∀ k' v', m !! k' = Some v' → k' < k) → indexPath v = key →
  matching indexPath key (mkStore (<[k := v]> m) g')
  = matching indexPath key (mkStore m g) ++ [(k, v)].
Proof.
  intros Hlast Hv. apply ascending_unique.
  - apply matching_ascending.
  - apply StronglySorted_app_2.
    + intros [k1 v1] e2 [H1 _]%elem_of_matching ->%list_elem_of_singleton.
      unfold key_le. simpl in *. specialize (Hlast _ _ H1). lia.
    + apply matching_ascending.
    + repeat constructor.
  - apply NoDup_matching.
  - rewrite fmap_app. apply NoDup_app. split; [apply NoDup_matching|].
    split; [|apply NoDup_singleton].
    intros k1 ([k1' v1] & -> & [H1 _]%elem_of_matching)%list_elem_of_fmap.
    simpl in *. intros ->%list_elem_of_singleton.
    specialize (Hlast _ _ H1). lia.
  - intros [k1 v1]. rewrite elem_of_app, list_elem_of_singleton.
    rewrite !elem_of_matching. simpl.
    destruct (decide (k1 = k)) as [->|Hne].
    + rewrite lookup_insert_eq. split.
      * intros [[= ->] _]. by right.
      * intros [[H1 _]|[= ->]]; [|done].
        specialize (Hlast _ _ H1). lia.
    + rewrite lookup_insert_ne by done. split; [tauto|].
      intros [?|[= ? ?]]; [done|]. by simplify_eq.
Qed.

Lemma matching_insert_other key m g g' k v :
  m !! k = None → indexPath v ≠ key →
  matching indexPath key (mkStore (<[k := v]> m) g')
  = matching indexPath key (mkStore m g).
Proof.
  intros Hnone Hv. apply ascending_unique;
    try apply matching_ascending; try apply NoDup_matching.
  intros [k1 v1]. rewrite !elem_of_matching. simpl.
  destruct (decide (k1 = k)) as [->|Hne].
  - rewrite lookup_insert_eq, Hnone. split; [|by intros [? _]].
    intros [[= ->] ?]. done.
  - by rewrite lookup_insert_ne.
Qed.

Lemma matching_delete key m g g' k :
  matching indexPath key (mkStore (base.delete k m) g')
  = filter (λ e : Z * V, e.1 ≠ k) (matching indexPath key (mkStore m g)).
Proof.
  apply ascending_unique.
  - apply matching_ascending.
  - apply StronglySorted_filter, matching_ascending.
  - apply NoDup_matching.
  - apply (sublist_NoDup _ (matching indexPath key (mkStore m g)).*1).
    + apply NoDup_matching.
    + apply fmap_sublist, sublist_filter.
  - intros [k1 v1]. rewrite list_elem_of_filter, !elem_of_matching. simpl.
    rewrite lookup_delete_Some.
    split; [intros [[Hne Hk] Hv] | intros [Hne [Hk Hv]]];
      repeat split; congruence.
Qed.

Lemma matching_replace key m g g' k old new :
  m !! k = Some old → indexPath new = indexPath old →
  matching indexPath key (mkStore (<[k := new]> m) g')
  = (λ e : Z * V, if decide (e.1 = k) then (k, new) else e)
      <$> matching indexPath key (mkStore m g).
Proof.
  intros Hold Hsame.
  assert (∀ l : list (Z * V),
            ((λ e : Z * V, if decide (e.1 = k) then (k, new) else e) <$> l).*1
            = l.*1) as Hkeys.
  { intros l. rewrite <- list_fmap_compose. apply list_fmap_ext.
    intros i [k1 v1] _. simpl. by case_decide. }
  apply ascending_unique.
  - apply matching_ascending.
  - eapply StronglySorted_fmap; [|apply matching_ascending].
    intros [k1 v1] [k2 v2]. unfold key_le. simpl.
    repeat case_decide; simpl; lia.
  - apply NoDup_matching.
  - rewrite Hkeys. apply NoDup_matching.
  - intros [k1 v1]. rewrite list_elem_of_fmap, elem_of_matching. simpl.
    split.
    + intros [Hk Hv]. destruct (decide (k1 = k)) as [->|Hne].
      * rewrite lookup_insert_eq in Hk. simplify_eq.
        exists (k, old). rewrite decide_True by done. split; [done|].
        apply elem_of_matching. split; [done | congruence].
      * rewrite lookup_insert_ne in Hk by done.
        exists (k1, v1). rewrite decide_False by done. split; [done|].
        by apply elem_of_matching.
    + intros ([k2 v2] & Heq & [Hk Hv]%elem_of_matching). simpl in *.
      case_decide; simplify_eq.
      * rewrite lookup_insert_eq. split; [done | congruence].
      * by rewrite lookup_insert_ne.
Qed.
End index_order.

Lemma getImagesByGroup_listed groupId w :
  World_wf w → healthy w →
  result (getImagesByGroup groupId) w
  = Resolved (listed groupId (imageRecords w)).
Proof.
  intros Hwf Hw. unfold result, listed.
  destruct (getImagesByGroup groupId w) as [r w'] eqn:Hrun. simpl.
  destruct (getImagesByGroup_spec _ _ _ _ Hrun) as (_ & _ & _ & _ & Hr).
  destruct (healthy_resolves r w Hw) as [images ->].
  { destruct r; [done|]. by apply Hr. }
  destruct Hr as (found & -> & Hnodup & Hsorted & Hfound).
  f_equal. f_equal. apply ascending_unique;
    [done | apply matching_ascending | done | apply NoDup_matching |].
  intros [k v]. rewrite Hfound. symmetry. apply elem_of_matching.
Qed.

Lemma listed_elem_of groupId ims image :
  image ∈ listed groupId ims
  ↔ ∃ k, ims !! k = Some image ∧ StoredImage.groupId image = groupId.
Proof. apply (elem_of_index_getAll StoredImage.groupId). Qed.

Lemma filter_keys_values {V} (keyPath : V → Z) (l : list (Z * V)) k :
  (∀ k' v, (k', v) ∈ l → keyPath v = k') →
  (filter (λ e : Z * V, e.1 ≠ k) l).*2 = filter (λ v, keyPath v ≠ k) l.*2.
Proof.
  induction l as [|[k' v] l IH]; intros Hl; [done|].
  assert (keyPath v = k') as Hv by (apply Hl; left).
  rewrite fmap_cons, !filter_cons. simpl. rewrite Hv.
  case_decide; rewrite ?fmap_cons, IH; try done;
    intros k'' v' Hin; apply Hl; by right.
Qed.

(** [addImage] then [getImagesByGroup] (lines 348-412).  With an engine that
    fails no request, the listing of the group after an [addImage] is the
    listing before it followed by the new image, which has the id returned
    and the group, name and blob given: a group lists its images in the
    order they were added.  The listings of the other groups are the
    same. *)
Theorem addImage_listed_last (groupId : Z) (name : string) (blob : Blob.t)
    (w : World) (key : Z) :
  World_wf w → healthy w →
  result (addImage groupId name blob) w = Resolved key →
  let w' := run (addImage groupId name blob) w in
  (∃ createdAt,
     result (getImagesByGroup groupId) w'
     = Resolved (listed groupId (imageRecords w)
                 ++ [StoredImage.mk key groupId name blob createdAt]))
  ∧ ∀ other, other ≠ groupId →
             result (getImagesByGroup other) w'
             = Resolved (listed other (imageRecords w)).
Proof.
  intros Hwf Hw Hres. cbv zeta.
  pose proof (addImage_key _ _ _ _ _ Hres) as [Hkey _].
  unfold result, run in *.
  destruct (addImage groupId name blob w) as [r w'] eqn:Hadd. simpl in *.
  subst r.
  destruct (addImage_spec _ _ _ _ _ _ Hadd) as (_ & Hwf' & Hw' & Hi & Hfresh).
  specialize (Hwf' Hwf). specialize (Hw' Hw). specialize (Hfresh Hwf).
  assert (∀ k v, imageRecords w !! k = Some v → k < key) as Hlast.
  { rewrite Hkey. revert Hwf. clear. unfold World_wf, Database_wf,
      nextImageId, imageRecords, stores.
    destruct (database w) as [[[gs|] [im|]]|]; simpl; try done.
    intros [_ Him] k v Hk. unfold store_wf in Him.
    rewrite map_Forall_lookup in Him. by destruct (Him _ _ Hk). }
  split.
  - eexists. pose proof (getImagesByGroup_listed groupId w' Hwf' Hw') as Hl.
    unfold result in Hl. rewrite Hl, Hi. unfold listed. simpl.
    rewrite (matching_insert_last StoredImage.groupId groupId
               (imageRecords w) 1 1) by done.
    by rewrite fmap_app.
  - intros other Hother.
    pose proof (getImagesByGroup_listed other w' Hwf' Hw') as Hl.
    unfold result in Hl. rewrite Hl, Hi. unfold listed. simpl.
    by rewrite (matching_insert_other StoredImage.groupId other
                  (imageRecords w) 1 1).
Qed.

Lemma addImage_listed_last_witness :
  let w' := run (addImage 1 "c.jpg" jpeg) trip in
  (∃ createdAt,
     result (getImagesByGroup 1) w'
     = Resolved (listed 1 (imageRecords trip)
                 ++ [StoredImage.mk 3 1 "c.jpg" jpeg createdAt]))
  ∧ ∀ other, other ≠ 1 →
             result (getImagesByGroup other) w'
             = Resolved (listed other (imageRecords trip)).
Proof.
  apply (addImage_listed_last 1 "c.jpg" jpeg trip 3).
  - exact World_wf_trip.
  - exact healthy_trip.
  - vm_compute. reflexivity.
Defined.

(** [deleteImage] then [getImagesByGroup] (lines 396-412 and 478-493).  With
    an engine that fails no request, the listing of every group after a
    [deleteImage] is the listing before it without the image of that id; the
    other images keep their order. *)
Theorem deleteImage_unlisted (imageId : Z) (w : World) :
  World_wf w → healthy w →
  result (deleteImage imageId) w = Resolved tt
  ∧ ∀ groupId,
      result (getImagesByGroup groupId) (run (deleteImage imageId) w)
      = Resolved (filter (λ image, StoredImage.id image ≠ imageId)
                         (listed groupId (imageRecords w))).
Proof.
  intros Hwf Hw. unfold result, run.
  destruct (deleteImage imageId w) as [r w'] eqn:Hdel. simpl.
  destruct (deleteImage_spec _ _ _ _ Hdel) as (_ & Hwf' & Hw' & Hr).
  specialize (Hwf' Hwf). specialize (Hw' Hw).
  destruct (healthy_resolves r w Hw) as [[] ->].
  { destruct r; [done|]. by apply Hr. }
  split; [done|]. intros groupId.
  pose proof (getImagesByGroup_listed groupId w' Hwf' Hw') as Hl.
  unfold result in Hl. rewrite Hl, Hr. unfold listed. simpl.
  rewrite (matching_delete StoredImage.groupId groupId (imageRecords w) 1 1).
  f_equal. apply filter_keys_values.
  intros k v [Hk _]%elem_of_matching. simpl in Hk.
  exact (World_wf_image_id _ _ _ Hwf Hk).
Qed.

Lemma deleteImage_unlisted_witness :
  result (deleteImage 1) trip = Resolved tt
  ∧ ∀ groupId,
      result (getImagesByGroup groupId) (run (deleteImage 1) trip)
      = Resolved (filter (λ image, StoredImage.id image ≠ 1)
                         (listed groupId (imageRecords trip))).
Proof. exact (deleteImage_unlisted 1 trip World_wf_trip healthy_trip). Defined.

(** [renameImage] then [getImagesByGroup] (lines 396-463).  With an engine
    that fails no request, the listing of every group after a [renameImage]
    that resolved is the listing before it with the image of that id under
    its new name, at the same place. *)
Theorem renameImage_listed_in_place (imageId : Z) (newName : string)
    (w : World) :
  World_wf w → healthy w →
  result (renameImage imageId newName) w = Resolved tt →
  ∀ groupId,
    result (getImagesByGroup groupId) (run (renameImage imageId newName) w)
    = Resolved ((λ image, if decide (StoredImage.id image = imageId)
                          then renamed newName image else image)
                  <$> listed groupId (imageRecords w)).
Proof.
  intros Hwf Hw. unfold result, run.
  destruct (renameImage imageId newName w) as [r w'] eqn:Hren. simpl.
  intros ->.
  destruct (renameImage_spec _ _ _ _ _ Hren) as (_ & Hwf' & Hw' & Hr).
  specialize (Hwf' Hwf). specialize (Hw' Hw).
  destruct Hr as (image & Himage & Hi).
  pose proof (World_wf_image_id _ _ _ Hwf Himage) as Hid.
  intros groupId.
  pose proof (getImagesByGroup_listed groupId w' Hwf' Hw') as Hl.
  unfold result in Hl. rewrite Hl, Hi, Hid. unfold listed. simpl.
  rewrite (matching_replace StoredImage.groupId groupId (imageRecords w) 1 1
             imageId image) by done.
  f_equal. rewrite <- !list_fmap_compose. apply list_fmap_ext.
  intros i [k v] Hkv. simpl.
  apply list_elem_of_lookup_2, elem_of_matching in Hkv as [Hk _]. simpl in Hk.
  rewrite (World_wf_image_id _ _ _ Hwf Hk).
  destruct (decide (k = imageId)) as [Heq|Hne]; [|done].
  rewrite Heq in Hk. assert (v = image) as -> by congruence.
  unfold renamed. by rewrite Hid.
Qed.

Lemma renameImage_listed_in_place_witness :
  result (renameImage 1 "sea.jpg") trip = Resolved tt
  ∧ ∀ groupId,
      result (getImagesByGroup groupId) (run (renameImage 1 "sea.jpg") trip)
      = Resolved ((λ image, if decide (StoredImage.id image = 1)
                            then renamed "sea.jpg" image else image)
                    <$> listed groupId (imageRecords trip)).
Proof.
  assert (result (renameImage 1 "sea.jpg") trip = Resolved tt) as Hres
    by (vm_compute; reflexivity).
  split; [exact Hres|].
  exact (renameImage_listed_in_place 1 "sea.jpg" trip World_wf_trip
           healthy_trip Hres).
Defined.

(** ** Invariants along a sequence of calls *)

(** The cascade keeps the references valid (lines 303-323 and 506-528).
    Along any sequence of calls in which images are added under existing
    groups, and whatever requests the engine fails on the way, every image
    refers to an existing group after the last call: [deleteGroup] never
    leaves an image of a deleted group, not even when it fails between its
    two transactions. *)
Theorem references_stay_valid (calls : list Call) (w : World) :
  World_wf w → referential_integrity w → expected_calls w calls →
  World_wf (perform_all calls w)
  ∧ referential_integrity (perform_all calls w).
Proof.
  revert w. induction calls as [|c calls IH]; intros w Hwf Hri Hcalls;
    [done|].
  destruct Hcalls as [Hc Hcalls]. simpl. apply IH; [| |done].
  - by apply World_wf_perform.
  - by apply referential_integrity_perform.
Qed.

Lemma references_stay_valid_witness :
  let calls := [AddImage 1 "c.jpg" jpeg; DeleteGroup 1; GetAllGroups] in
  let w := failing 11 trip in
  result (deleteGroup 1) (perform (AddImage 1 "c.jpg" jpeg) w)
  = Rejected (Error "Failed to delete group: Unknown error")
  ∧ World_wf (perform_all calls w)
  ∧ referential_integrity (perform_all calls w).
Proof.
  cbv zeta. split; [vm_compute; reflexivity|].
  apply references_stay_valid.
  - exact World_wf_trip.
  - apply (bool_decide_unpack _). vm_compute. exact I.
  - split; [|done]. eexists. vm_compute. reflexivity.
Defined.

Lemma positive_ids_perform c w :
  World_wf w → positive_ids w → positive_ids (perform c w).
Proof.
  intros Hwf (Hng & Hni & Hg & Hi). unfold positive_ids.
  destruct (generators_monotone c w) as [Hmg Hmi].
  split; [lia|]. split; [lia|].
  destruct c; cbn [perform]; unfold run.
  - destruct (createGroup name w) as [[key|e] w'] eqn:E; simpl;
      destruct (createGroup_spec _ _ _ _ E) as (-> & _ & _ & Hr & _);
      rewrite Hr; [|done].
    split; [|done]. apply map_Forall_insert_2; [|done].
    assert (key = nextGroupId w) as ->; [|done].
    apply (createGroup_key name). unfold result. by rewrite E.
  - destruct (getAllGroups w) as [r w'] eqn:E; simpl.
    by destruct (getAllGroups_spec _ _ _ E) as (-> & -> & _).
  - destruct (getGroup id w) as [r w'] eqn:E; simpl.
    by destruct (getGroup_spec _ _ _ _ E) as (-> & -> & _).
  - destruct (renameGroup groupId newName w) as [[[]|e] w'] eqn:E; simpl;
      destruct (renameGroup_spec _ _ _ _ _ E) as (-> & _ & _ & Hr).
    + destruct Hr as (group & Hgroup & -> & _). split; [|done].
      apply map_Forall_insert_2; [|done].
      rewrite (World_wf_group_id _ _ _ Hwf Hgroup).
      rewrite map_Forall_lookup in Hg. by eapply Hg.
    + by destruct Hr as [-> _].
  - destruct (deleteGroup groupId w) as [[[]|e] w'] eqn:E; simpl;
      destruct (deleteGroup_spec _ _ _ _ E) as (_ & _ & Hr).
    + destruct Hr as [-> ->]. split; [by apply map_Forall_delete|].
      rewrite map_Forall_lookup in Hi. apply map_Forall_lookup.
      intros k v [Hk _]%map_lookup_filter_Some. by eapply Hi.
    + destruct Hr as (-> & [-> | ->] & _); [done|]. split; [done|].
      rewrite map_Forall_lookup in Hi. apply map_Forall_lookup.
      intros k v [Hk _]%map_lookup_filter_Some. by eapply Hi.
  - destruct (addImage groupId name blob w) as [[key|e] w'] eqn:E; simpl;
      destruct (addImage_spec _ _ _ _ _ _ E) as (-> & _ & _ & Hr & _);
      rewrite Hr; [|done].
    split; [done|]. apply map_Forall_insert_2; [|done].
    assert (key = nextImageId w) as ->; [|done].
    apply (addImage_key groupId name blob). unfold result. by rewrite E.
  - destruct (getImagesByGroup groupId w) as [r w'] eqn:E; simpl.
    by destruct (getImagesByGroup_spec _ _ _ _ E) as (-> & -> & _).
  - destruct (renameImage imageId newName w) as [[[]|e] w'] eqn:E; simpl;
      destruct (renameImage_spec _ _ _ _ _ E) as (-> & _ & _ & Hr).
    + destruct Hr as (image & Himage & ->). split; [done|].
      apply map_Forall_insert_2; [|done].
      rewrite (World_wf_image_id _ _ _ Hwf Himage).
      rewrite map_Forall_lookup in Hi. by eapply Hi.
    + by destruct Hr as [-> _].
  - destruct (deleteImage imageId w) as [[[]|e] w'] eqn:E; simpl;
      destruct (deleteImage_spec _ _ _ _ E) as (-> & _ & _ & Hr).
    + rewrite Hr. split; [done|]. by apply map_Forall_delete.
    + by destruct Hr as [-> _].
Qed.

Lemma reachable_positive_ids w : reachable w → positive_ids w.
Proof.
  induction 1 as [w Hnone|c w Hw IH|w w' Hw IH Hdb].
  - unfold positive_ids, nextGroupId, nextImageId, groupRecords,
      imageRecords, stores. rewrite Hnone. simpl.
    repeat split; try lia; apply map_Forall_empty.
  - apply positive_ids_perform; [by apply reachable_wf | done].
  - unfold positive_ids, nextGroupId, nextImageId, groupRecords,
      imageRecords, stores in *. by rewrite Hdb.
Qed.

(** What holds of the records in every world the service can be in, from a
    first start and through any calls and engine failures (key path 'id'
    with [autoIncrement], lines 98-113).  A group read by [getGroup id] has
    [id] in its [id] field; the images listed for a group have that
    [groupId] and distinct ids; every id in use is positive and below the
    next id; the id that [createGroup] returns is positive and not in
    use. *)
Theorem reachable_records (w : World) :
  reachable w →
  (∀ id group,
     result (getGroup id) w = Resolved (Some group) →
     ImageGroup.id group = id ∧ 1 ≤ id < nextGroupId w)
  ∧ (∀ groupId images,
       result (getImagesByGroup groupId) w = Resolved images →
       NoDup (StoredImage.id <$> images)
       ∧ ∀ image, image ∈ images →
                  StoredImage.groupId image = groupId
                  ∧ 1 ≤ StoredImage.id image < nextImageId w)
  ∧ (∀ name key,
       result (createGroup name) w = Resolved key →
       1 ≤ key ∧ groupRecords w !! key = None).
Proof.
  intros Hreach.
  pose proof (reachable_wf _ Hreach) as Hwf.
  destruct (reachable_positive_ids _ Hreach) as (Hng & Hni & Hg & Hi).
  rewrite map_Forall_lookup in Hg. rewrite map_Forall_lookup in Hi.
  assert (∀ k v, groupRecords w !! k = Some v → k < nextGroupId w) as Hgmax.
  { revert Hwf. clear. unfold World_wf, Database_wf, nextGroupId,
      groupRecords, stores.
    destruct (database w) as [[[gs|] [im|]]|]; simpl; try done.
    intros [Hgs _] k v Hk. unfold store_wf in Hgs.
    rewrite map_Forall_lookup in Hgs. by destruct (Hgs _ _ Hk). }
  assert (∀ k v, imageRecords w !! k = Some v → k < nextImageId w) as Himax.
  { revert Hwf. clear. unfold World_wf, Database_wf, nextImageId,
      imageRecords, stores.
    destruct (database w) as [[[gs|] [im|]]|]; simpl; try done.
    intros [_ Him] k v Hk. unfold store_wf in Him.
    rewrite map_Forall_lookup in Him. by destruct (Him _ _ Hk). }
  conj_split.
  - intros id group. unfold result.
    destruct (getGroup id w) as [r w'] eqn:E. simpl. intros ->.
    destruct (getGroup_spec _ _ _ _ E) as (_ & _ & _ & _ & Hr).
    symmetry in Hr. split; [by eapply World_wf_group_id|].
    split; [by eapply Hg | by eapply Hgmax].
  - intros groupId images. unfold result.
    destruct (getImagesByGroup groupId w) as [r w'] eqn:E. simpl. intros ->.
    destruct (getImagesByGroup_spec _ _ _ _ E) as (_ & _ & _ & _ & Hr).
    destruct Hr as (found & -> & Hnodup & _ & Hfound).
    split.
    + rewrite (fmap_key_of_entries StoredImage.id); [done|].
      intros k v [Hk _]%Hfound. by eapply World_wf_image_id.
    + intros image ([k v] & -> & [Hk HG]%Hfound)%list_elem_of_fmap. simpl.
      split; [done|]. rewrite (World_wf_image_id _ _ _ Hwf Hk).
      split; [by eapply Hi | by eapply Himax].
  - intros name key Hres.
    destruct (createGroup_key _ _ _ Hres) as [-> _]. split; [done|].
    destruct (groupRecords w !! nextGroupId w) as [v|] eqn:Hk; [|done].
    specialize (Hgmax _ _ Hk). lia.
Qed.

Lemma reachable_trip : reachable trip.
Proof.
  assert (trip
          = perform (AddImage 1 "b.jpg" jpeg)
              (perform (AddImage 1 "a.jpg" jpeg)
                 (perform (CreateGroup "Trip") fresh))) as ->
    by (vm_compute; reflexivity).
  do 3 apply reachable_call. by apply reachable_start.
Defined.

Lemma reachable_records_witness :
  (∀ id group,
     result (getGroup id) trip = Resolved (Some group) →
     ImageGroup.id group = id ∧ 1 ≤ id < nextGroupId trip)
  ∧ (∀ groupId images,
       result (getImagesByGroup groupId) trip = Resolved images →
       NoDup (StoredImage.id <$> images)
       ∧ ∀ image, image ∈ images →
                  StoredImage.groupId image = groupId
                  ∧ 1 ≤ StoredImage.id image < nextImageId trip)
  ∧ (∀ name key,
       result (createGroup name) trip = Resolved key →
       1 ≤ key ∧ groupRecords trip !! key = None).
Proof. exact (reachable_records trip reachable_trip). Defined.

(** * The context provider *)

(** ** The service with an engine that fails nothing *)

Lemma getAllGroups_healthy w :
  World_wf w → healthy w →
  ∃ w', getAllGroups w = (Resolved (listedGroups (groupRecords w)), w')
        ∧ World_wf w' ∧ healthy w'
        ∧ groupRecords w' = groupRecords w
        ∧ imageRecords w' = imageRecords w.
Proof.
  intros Hwf Hw. destruct (getAllGroups w) as [r w'] eqn:Hrun.
  pose proof (getAllGroups_found _ _ _ Hrun) as Hfound.
  destruct (getAllGroups_spec _ _ _ Hrun) as (Hg & Hi & Hwf' & Hw' & Hr).
  destruct (healthy_resolves r w Hw) as [all ->].
  { destruct r; [done|]. by apply Hr. }
  exists w'. conj_split; auto.
  destruct Hfound as (found & -> & Hnodup & Hsorted & _ & Hin).
  do 2 f_equal. unfold listedGroups. simpl. f_equal.
  apply ascending_unique;
    [done | apply entries_ascending | done | apply NoDup_entries |].
  intros [k v]. rewrite Hin. symmetry. apply elem_of_entries.
Qed.

Lemma getImagesByGroup_healthy groupId w :
  World_wf w → healthy w →
  ∃ w', getImagesByGroup groupId w
        = (Resolved (listed groupId (imageRecords w)), w')
        ∧ World_wf w' ∧ healthy w'
        ∧ groupRecords w' = groupRecords w
        ∧ imageRecords w' = imageRecords w.
Proof.
  intros Hwf Hw. pose proof (getImagesByGroup_listed groupId w Hwf Hw) as Hl.
  unfold result in Hl.
  destruct (getImagesByGroup groupId w) as [r w'] eqn:Hrun. simpl in Hl.
  subst r.
  destruct (getImagesByGroup_spec _ _ _ _ Hrun) as (Hg & Hi & Hwf' & Hw' & _).
  exists w'. conj_split; auto.
Qed.

Lemma createGroup_healthy name w :
  World_wf w → healthy w →
  ∃ key group w',
    createGroup name w = (Resolved key, w')
    ∧ World_wf w' ∧ healthy w'
    ∧ key = nextGroupId w
    ∧ ImageGroup.id group = key ∧ ImageGroup.name group = name
    ∧ groupRecords w' = <[key := group]> (groupRecords w)
    ∧ imageRecords w' = imageRecords w.
Proof.
  intros Hwf Hw. destruct (createGroup name w) as [r w'] eqn:Hrun.
  destruct (createGroup_spec _ _ _ _ Hrun) as (Hi & Hwf' & Hw' & Hr).
  destruct (healthy_resolves r w Hw) as [key ->].
  { destruct r; [done|]. by apply Hr. }
  destruct Hr as [Hg _]. eexists key, _, w'.
  split; [done|]. split; [auto|]. split; [auto|]. split.
  { apply (createGroup_key name). unfold result. by rewrite Hrun. }
  split; [|split; [|split; [exact Hg|exact Hi]]]; done.
Qed.

Lemma deleteGroup_healthy groupId w :
  World_wf w → healthy w →
  ∃ w', deleteGroup groupId w = (Resolved tt, w')
        ∧ World_wf w' ∧ healthy w'
        ∧ groupRecords w' = base.delete groupId (groupRecords w)
        ∧ imageRecords w'
          = filter (λ e, StoredImage.groupId e.2 ≠ groupId) (imageRecords w).
Proof.
  intros Hwf Hw. destruct (deleteGroup groupId w) as [r w'] eqn:Hrun.
  destruct (deleteGroup_spec _ _ _ _ Hrun) as (Hwf' & Hw' & Hr).
  destruct (healthy_resolves r w Hw) as [[] ->].
  { destruct r; [done|]. by apply Hr. }
  destruct Hr as [Hg Hi]. exists w'. conj_split; auto.
Qed.

Lemma addImage_healthy groupId name blob w :
  World_wf w → healthy w →
  ∃ key image w',
    addImage groupId name blob w = (Resolved key, w')
    ∧ World_wf w' ∧ healthy w'
    ∧ key = nextImageId w
    ∧ image = StoredImage.mk key groupId name blob
                (now w + Z.of_nat (hd 0%nat (ticks w)))
    ∧ imageRecords w' = <[key := image]> (imageRecords w)
    ∧ groupRecords w' = groupRecords w.
Proof.
  intros Hwf Hw. destruct (addImage groupId name blob w) as [r w'] eqn:Hrun.
  destruct (addImage_spec _ _ _ _ _ _ Hrun) as (Hg & Hwf' & Hw' & Hr).
  destruct (healthy_resolves r w Hw) as [key ->].
  { destruct r; [done|]. by apply Hr. }
  destruct Hr as [Hi _]. eexists key, _, w'.
  split; [done|]. split; [auto|]. split; [auto|]. split.
  { apply (addImage_key groupId name blob). unfold result. by rewrite Hrun. }
  split; [reflexivity|]. split; [exact Hi|exact Hg].
Qed.

Lemma deleteImage_healthy imageId w :
  World_wf w → healthy w →
  ∃ w', deleteImage imageId w = (Resolved tt, w')
        ∧ World_wf w' ∧ healthy w'
        ∧ imageRecords w' = base.delete imageId (imageRecords w)
        ∧ groupRecords w' = groupRecords w.
Proof.
  intros Hwf Hw. destruct (deleteImage imageId w) as [r w'] eqn:Hrun.
  destruct (deleteImage_spec _ _ _ _ Hrun) as (Hg & Hwf' & Hw' & Hr).
  destruct (healthy_resolves r w Hw) as [[] ->].
  { destruct r; [done|]. by apply Hr. }
  exists w'. conj_split; auto.
Qed.

(** A rename resolves or rejects; either way the other store is untouched,
    and a rejected rename has changed nothing. *)
Lemma renameGroup_settled groupId newName w :
  World_wf w → healthy w →
  ∃ r w', renameGroup groupId newName w = (r, w')
          ∧ World_wf w' ∧ healthy w'
          ∧ imageRecords w' = imageRecords w
          ∧ match r with
            | Resolved _ => True
            | Rejected e =>
                groupRecords w' = groupRecords w
                ∧ e = Error ("Group with ID " +:+ pretty groupId
                             +:+ " not found")
            end.
Proof.
  intros Hwf Hw. destruct (renameGroup groupId newName w) as [r w'] eqn:Hrun.
  destruct (renameGroup_spec _ _ _ _ _ Hrun) as (Hi & Hwf' & Hw' & Hr).
  exists r, w'. conj_split; auto. destruct r as [[]|e]; [done|].
  destruct Hr as [Hg Hr]. split; [done|].
  destruct (Hr Hwf) as [[_ ->]|[m Hm]]; [done|].
  by destruct (healthy_no_Failure m _ Hw).
Qed.

Lemma renameImage_settled imageId newName w :
  World_wf w → healthy w →
  ∃ r w', renameImage imageId newName w = (r, w')
          ∧ World_wf w' ∧ healthy w'
          ∧ groupRecords w' = groupRecords w
          ∧ match r with
            | Resolved _ => True
            | Rejected e =>
                imageRecords w' = imageRecords w
                ∧ e = Error ("Image with ID " +:+ pretty imageId
                             +:+ " not found")
            end.
Proof.
  intros Hwf Hw. destruct (renameImage imageId newName w) as [r w'] eqn:Hrun.
  destruct (renameImage_spec _ _ _ _ _ Hrun) as (Hg & Hwf' & Hw' & Hr).
  exists r, w'. conj_split; auto. destruct r as [[]|e]; [done|].
  destruct Hr as [Hi Hr]. split; [done|].
  destruct (Hr Hwf) as [[_ ->]|[m Hm]]; [done|].
  by destruct (healthy_no_Failure m _ Hw).
Qed.

(** The listing of a group is not changed by the cascade of another. *)
Lemma listed_after_cascade groupId other ims :
  other ≠ groupId →
  listed other
    (filter (λ e : Z * StoredImage.t, StoredImage.groupId e.2 ≠ groupId) ims)
  = listed other ims.
Proof.
  intros Hne. unfold listed. simpl. f_equal.
  apply ascending_unique;
    try apply matching_ascending; try apply NoDup_matching.
  intros [k v]. rewrite !elem_of_matching. simpl.
  rewrite map_lookup_filter_Some. simpl. split; [tauto|].
  intros [Hk Hv]. repeat split; try done. congruence.
Qed.

Lemma listed_of_cascaded groupId ims :
  listed groupId
    (filter (λ e : Z * StoredImage.t, StoredImage.groupId e.2 ≠ groupId) ims)
  = [].
Proof.
  apply (index_getAll_nil StoredImage.groupId). simpl.
  intros k v [_ Hv]%map_lookup_filter_Some. done.
Qed.

(** ** The two loads *)

Ltac unfold_actions :=
  unfold loadGroups, loadImages, andAfter, try_finally, try_catch, service,
    update, throw, pure.

Lemma loadGroups_settles em st w :
  ∃ st' w',
    loadGroups em st w = (Resolved tt, st', w')
    ∧ groupRecords w' = groupRecords w
    ∧ imageRecords w' = imageRecords w
    ∧ (World_wf w → World_wf w') ∧ (healthy w → healthy w')
    ∧ Context.selectedGroupId st' = Context.selectedGroupId st
    ∧ Context.images st' = Context.images st
    ∧ Context.isLoadingGroups st' = false
    ∧ Context.isLoadingImages st' = Context.isLoadingImages st
    ∧ match result getAllGroups w with
      | Resolved allGroups =>
          Context.groups st' = allGroups ∧ Context.error st' = None
      | Rejected err =>
          Context.groups st' = Context.groups st
          ∧ Context.error st' = Some (errorMessage em err EmptyString)
      end.
Proof.
  unfold_actions. unfold result.
  destruct (getAllGroups w) as [r w'] eqn:Hrun.
  destruct (getAllGroups_spec _ _ _ Hrun) as (Hg & Hi & Hwf & Hw & _).
  destruct r as [allGroups|err]; eexists _, _; (split; [reflexivity|]);
    simpl; conj_split; auto.
Qed.

Lemma loadImages_settles em groupId st w :
  ∃ st' w',
    loadImages em groupId st w = (Resolved tt, st', w')
    ∧ groupRecords w' = groupRecords w
    ∧ imageRecords w' = imageRecords w
    ∧ (World_wf w → World_wf w') ∧ (healthy w → healthy w')
    ∧ Context.selectedGroupId st' = Context.selectedGroupId st
    ∧ Context.groups st' = Context.groups st
    ∧ Context.isLoadingGroups st' = Context.isLoadingGroups st
    ∧ Context.isLoadingImages st' = false
    ∧ match result (getImagesByGroup groupId) w with
      | Resolved groupImages =>
          Context.images st' = groupImages ∧ Context.error st' = None
      | Rejected err =>
          Context.images st' = Context.images st
          ∧ Context.error st' = Some (errorMessage em err EmptyString)
      end.
Proof.
  unfold_actions. unfold result.
  destruct (getImagesByGroup groupId w) as [r w'] eqn:Hrun.
  destruct (getImagesByGroup_spec _ _ _ _ Hrun) as (Hg & Hi & Hwf & Hw & _).
  destruct r as [groupImages|err]; eexists _, _; (split; [reflexivity|]);
    simpl; conj_split; auto.
Qed.

(** ** The provider with an engine that fails nothing *)

Lemma loadGroups_healthy em st w :
  World_wf w → healthy w →
  ∃ st' w',
    loadGroups em st w = (Resolved tt, st', w')
    ∧ World_wf w' ∧ healthy w'
    ∧ groupRecords w' = groupRecords w
    ∧ imageRecords w' = imageRecords w
    ∧ Context.selectedGroupId st' = Context.selectedGroupId st
    ∧ Context.images st' = Context.images st
    ∧ Context.groups st' = listedGroups (groupRecords w)
    ∧ Context.error st' = None.
Proof.
  intros Hwf Hw.
  destruct (loadGroups_settles em st w)
    as (st' & w' & Hrun & Hg & Hi & Hwf' & Hw' & Hsel & Hims & _ & _ & Hr).
  destruct (getAllGroups_healthy w Hwf Hw) as (w1 & Hall & _).
  unfold result in Hr. rewrite Hall in Hr. destruct Hr as [Hgroups Herr].
  exists st', w'. conj_split; auto.
Qed.

Lemma loadImages_healthy em groupId st w :
  World_wf w → healthy w →
  ∃ st' w',
    loadImages em groupId st w = (Resolved tt, st', w')
    ∧ World_wf w' ∧ healthy w'
    ∧ groupRecords w' = groupRecords w
    ∧ imageRecords w' = imageRecords w
    ∧ Context.selectedGroupId st' = Context.selectedGroupId st
    ∧ Context.groups st' = Context.groups st
    ∧ Context.images st' = listed groupId (imageRecords w)
    ∧ Context.error st' = None.
Proof.
  intros Hwf Hw.
  destruct (loadImages_settles em groupId st w)
    as (st' & w' & Hrun & Hg & Hi & Hwf' & Hw' & Hsel & Hgs & _ & _ & Hr).
  destruct (getImagesByGroup_healthy groupId w Hwf Hw) as (w1 & Hall & _).
  unfold result in Hr. rewrite Hall in Hr. destruct Hr as [Himages Herr].
  exists st', w'. conj_split; auto.
Qed.

Lemma selectionEffect_healthy em st w :
  World_wf w → healthy w →
  Context.groups st = listedGroups (groupRecords w) →
  ∃ r st' w',
    selectionEffect em st w = (r, st', w')
    ∧ World_wf w' ∧ healthy w'
    ∧ groupRecords w' = groupRecords w
    ∧ imageRecords w' = imageRecords w
    ∧ Context.selectedGroupId st' = Context.selectedGroupId st
    ∧ mirrors st' w'.
Proof.
  intros Hwf Hw Hgroups. unfold selectionEffect, mirrors.
  destruct (Context.selectedGroupId st) as [selectedGroupId|] eqn:Hsel.
  - destruct (loadImages_healthy em selectedGroupId st w Hwf Hw)
      as (st' & w' & -> & Hwf' & Hw' & Hg & Hi & Hsel' & Hgs & Hims & _).
    exists (Resolved tt), st', w'. rewrite Hsel', Hsel, Hg, Hi.
    conj_split; auto. congruence.
  - exists (Resolved tt), (setImages [] st), w. simpl. rewrite Hsel.
    conj_split; auto.
Qed.

Ltac unfold_action :=
  unfold action, selectGroup, createNewGroup, renameExistingGroup,
    deleteExistingGroup, addImageToGroup, renameExistingImage,
    deleteExistingImage, andAfter, try_catch, service, update, throw, pure;
  cbn beta zeta.


Lemma action_healthy em ev st w :
  World_wf w → healthy w → mirrors st w → adds_to_selection ev st →
  ∃ r st1 w1,
    action em ev st w = (r, st1, w1)
    ∧ World_wf w1 ∧ healthy w1
    ∧ Context.groups st1 = listedGroups (groupRecords w1)
    ∧ (Context.selectedGroupId st1 = Context.selectedGroupId st →
       Context.images st1
       = match Context.selectedGroupId st1 with
         | Some selectedGroupId => listed selectedGroupId (imageRecords w1)
         | None => []
         end).
Proof.
  intros Hwf Hw [Hgroups Himages] Hadd.
  destruct ev; unfold_action.
  - eexists _, _, _. split; [reflexivity|]. simpl. conj_split; auto.
    by intros ->.
  - destruct (createGroup_healthy name w Hwf Hw)
      as (key & group & w2 & -> & Hwf2 & Hw2 & Hkey & _ & _ & Hg2 & Hi2).
    destruct (loadGroups_healthy em (setError None st) w2 Hwf2 Hw2)
      as (st3 & w3 & -> & Hwf3 & Hw3 & Hg3 & Hi3 & Hsel3 & Hims3 & Hgs3 & _).
    simpl in Hsel3, Hims3, Hgs3.
    eexists _, _, _. split; [reflexivity|]. simpl. conj_split; auto.
    + congruence.
    + intros Hs. rewrite <- Hs in Himages. rewrite Hims3, Hi3, Hi2.
      exact Himages.
  - destruct (renameGroup_settled groupId newName w Hwf Hw)
      as (r & w2 & -> & Hwf2 & Hw2 & Hi2 & Hr).
    destruct r as [[]|err].
    + destruct (loadGroups_healthy em (setError None st) w2 Hwf2 Hw2)
        as (st3 & w3 & -> & Hwf3 & Hw3 & Hg3 & Hi3 & Hsel3 & Hims3 & Hgs3 & _).
    simpl in Hsel3, Hims3, Hgs3.
      eexists _, _, _. split; [reflexivity|]. conj_split; auto.
      * congruence.
      * intros _. rewrite Hims3, Hsel3, Hi3, Hi2. exact Himages.
    + destruct Hr as [Hg2 _].
      eexists _, _, _. split; [reflexivity|]. simpl. conj_split; auto.
      * congruence.
      * intros _. rewrite Hi2. exact Himages.
  - destruct (deleteGroup_healthy groupId w Hwf Hw)
      as (w2 & -> & Hwf2 & Hw2 & Hg2 & Hi2).
    destruct (loadGroups_healthy em (setError None st) w2 Hwf2 Hw2)
      as (st3 & w3 & -> & Hwf3 & Hw3 & Hg3 & Hi3 & Hsel3 & Hims3 & Hgs3 & _).
    simpl in Hsel3, Hims3, Hgs3.
    case_decide as Hsel.
    + eexists _, _, _. split; [reflexivity|]. simpl. conj_split; auto.
      * congruence.
      * rewrite Hsel. done.
    + eexists _, _, _. split; [reflexivity|]. simpl. conj_split; auto.
      * congruence.
      * intros _. rewrite Hims3, Hsel3, Hi3, Hi2, Himages. simpl.
        destruct (Context.selectedGroupId st) as [selected|]; [|done].
        symmetry. apply listed_after_cascade. congruence.
  - simpl in Hadd.
    destruct (addImage_healthy groupId name blob w Hwf Hw)
      as (key & image & w2 & -> & Hwf2 & Hw2 & _ & _ & Hi2 & Hg2).
    destruct (loadImages_healthy em groupId (setError None st) w2 Hwf2 Hw2)
      as (st3 & w3 & -> & Hwf3 & Hw3 & Hg3 & Hi3 & Hsel3 & Hgs3 & Hims3 & _).
    simpl in Hsel3, Hims3, Hgs3.
    eexists _, _, _. split; [reflexivity|]. conj_split; auto.
    + rewrite Hgs3, Hg3, Hg2. exact Hgroups.
    + intros _. rewrite Hsel3. simpl. rewrite Hadd, Hims3, Hi3. done.
  - destruct (renameImage_settled imageId newName w Hwf Hw)
      as (r & w2 & -> & Hwf2 & Hw2 & Hg2 & Hr).
    destruct r as [[]|err].
    + destruct (Context.selectedGroupId st) as [selected|] eqn:Hsel.
      * destruct (loadImages_healthy em selected (setError None st) w2 Hwf2 Hw2)
          as (st3 & w3 & -> & Hwf3 & Hw3 & Hg3 & Hi3 & Hsel3 & Hgs3 & Hims3 & _).
    simpl in Hsel3, Hims3, Hgs3.
        eexists _, _, _. split; [reflexivity|]. conj_split; auto.
        -- rewrite Hgs3, Hg3, Hg2. exact Hgroups.
        -- intros _. rewrite Hsel3. simpl. rewrite Hsel, Hims3, Hi3. done.
      * eexists _, _, _. split; [reflexivity|]. simpl. conj_split; auto.
        -- congruence.
        -- rewrite Hsel. done.
    + destruct Hr as [Hi2 _].
      eexists _, _, _. split; [reflexivity|]. simpl. conj_split; auto.
      * congruence.
      * intros _. rewrite Hi2. exact Himages.
  - destruct (deleteImage_healthy imageId w Hwf Hw)
      as (w2 & -> & Hwf2 & Hw2 & Hi2 & Hg2).
    destruct (Context.selectedGroupId st) as [selected|] eqn:Hsel.
    + destruct (loadImages_healthy em selected (setError None st) w2 Hwf2 Hw2)
        as (st3 & w3 & -> & Hwf3 & Hw3 & Hg3 & Hi3 & Hsel3 & Hgs3 & Hims3 & _).
    simpl in Hsel3, Hims3, Hgs3.
      eexists _, _, _. split; [reflexivity|]. conj_split; auto.
      * rewrite Hgs3, Hg3, Hg2. exact Hgroups.
      * intros _. rewrite Hsel3. simpl. rewrite Hsel, Hims3, Hi3. done.
    + eexists _, _, _. split; [reflexivity|]. simpl. conj_split; auto.
      * congruence.
      * rewrite Hsel. done.
Qed.

Lemma dispatch_mirrors em ev st w :
  World_wf w → healthy w → mirrors st w → adds_to_selection ev st →
  mirrors (dispatch em ev st w).1 (dispatch em ev st w).2
  ∧ World_wf (dispatch em ev st w).2 ∧ healthy (dispatch em ev st w).2.
Proof.
  intros Hwf Hw Hm Hadd.
  destruct (action_healthy em ev st w Hwf Hw Hm Hadd)
    as (r & st1 & w1 & Hrun & Hwf1 & Hw1 & Hgroups & Himages).
  unfold dispatch, withEffects. rewrite Hrun. case_decide as Hsel.
  - simpl. split; [split; [done|by apply Himages]|done].
  - destruct (selectionEffect_healthy em st1 w1 Hwf1 Hw1 Hgroups)
      as (r2 & st2 & w2 & -> & Hwf2 & Hw2 & _ & _ & _ & Hm2).
    simpl. auto.
Qed.

(** ** Actions that reject *)

Lemma rejection_is_Error (c : Call) (w : World) (e : JsError) :
  World_wf w → rejection c w = Some e → ∃ message, e = Error message.
Proof.
  unfold rejection, reason_of.
  destruct c; run_cases w; rewrite ?lookup_empty;
    cbn; try by_lookup; by_outcomes; try done;
    intros Hwf [= <-]; try (by destruct Hwf); eauto.
Qed.

Ltac rejected_by c Hop :=
  match goal with
  | Hwf : World_wf ?w |- ∃ message, ?e = Error message ∧ _ =>
      destruct (rejection_is_Error c w e Hwf) as [? ->];
      [ unfold rejection, result; rewrite Hop; reflexivity |]
  end.

Lemma action_rejected em ev st w err st1 w1 :
  World_wf w →
  action em ev st w = (Rejected err, st1, w1) →
  ∃ message,
    err = Error message
    ∧ st1 = setError (Some message) st
    ∧ groupRecords w1 = groupRecords w
    ∧ ((∀ groupId, ev ≠ DeleteExistingGroup groupId) →
       imageRecords w1 = imageRecords w).
Proof.
  intros Hwf. destruct ev; unfold_action.
  - done.
  - destruct (createGroup name w) as [[key|e] w2] eqn:Hop.
    + destruct (loadGroups_settles em (setError None st) w2)
        as (st3 & w3 & -> & _). done.
    + intros [= <- <- <-].
      destruct (createGroup_spec _ _ _ _ Hop) as (Hi & _ & _ & Hg & _).
      rejected_by (CreateGroup name) Hop. eauto.
  - destruct (renameGroup groupId newName w) as [[[]|e] w2] eqn:Hop.
    + destruct (loadGroups_settles em (setError None st) w2)
        as (st3 & w3 & -> & _). done.
    + intros [= <- <- <-].
      destruct (renameGroup_spec _ _ _ _ _ Hop) as (Hi & _ & _ & Hg & _).
      rejected_by (RenameGroup groupId newName) Hop. eauto.
  - destruct (deleteGroup groupId w) as [[[]|e] w2] eqn:Hop.
    + destruct (loadGroups_settles em (setError None st) w2)
        as (st3 & w3 & -> & _). by case_decide.
    + intros [= <- <- <-].
      destruct (deleteGroup_spec _ _ _ _ Hop) as (_ & _ & Hg & _).
      rejected_by (DeleteGroup groupId) Hop.
      eexists. conj_split; eauto. intros Hne. by destruct (Hne groupId).
  - destruct (addImage groupId name blob w) as [[key|e] w2] eqn:Hop.
    + destruct (loadImages_settles em groupId (setError None st) w2)
        as (st3 & w3 & -> & _). done.
    + intros [= <- <- <-].
      destruct (addImage_spec _ _ _ _ _ _ Hop) as (Hg & _ & _ & Hi & _).
      rejected_by (AddImage groupId name blob) Hop. eauto.
  - destruct (renameImage imageId newName w) as [[[]|e] w2] eqn:Hop.
    + destruct (Context.selectedGroupId st) as [selected|]; [|done].
      destruct (loadImages_settles em selected (setError None st) w2)
        as (st3 & w3 & -> & _). done.
    + intros [= <- <- <-].
      destruct (renameImage_spec _ _ _ _ _ Hop) as (Hg & _ & _ & Hi & _).
      rejected_by (RenameImage imageId newName) Hop. eauto.
  - destruct (deleteImage imageId w) as [[[]|e] w2] eqn:Hop.
    + destruct (Context.selectedGroupId st) as [selected|]; [|done].
      destruct (loadImages_settles em selected (setError None st) w2)
        as (st3 & w3 & -> & _). done.
    + intros [= <- <- <-].
      destruct (deleteImage_spec _ _ _ _ Hop) as (Hg & _ & _ & Hi & _).
      rejected_by (DeleteImage imageId) Hop. eauto.
Qed.

(** ** The state and the database *)

Lemma mounted_mirrors em w :
  World_wf w → healthy w →
  mirrors (mounted em w).1 (mounted em w).2
  ∧ World_wf (mounted em w).2 ∧ healthy (mounted em w).2.
Proof.
  intros Hwf Hw. unfold mounted, mountEffect.
  destruct (loadGroups_healthy em initialState w Hwf Hw)
    as (st1 & w1 & -> & Hwf1 & Hw1 & Hg1 & Hi1 & Hsel1 & Hims1 & Hgs1 & _).
  rewrite <- Hg1 in Hgs1.
  destruct (selectionEffect_healthy em st1 w1 Hwf1 Hw1 Hgs1)
    as (r2 & st2 & w2 & -> & Hwf2 & Hw2 & _ & _ & _ & Hm2).
  simpl. auto.
Qed.

(** The provider shows what the database holds (provider, lines 601-768).
    With an engine that fails no request, once the provider is mounted and
    after any sequence of its actions, each one over with its effect before
    the next starts, in which every image is added to the group selected at
    the time: [groups] is the list of all the groups of the database in
    ascending order of id, and [images] is the listing of the selected
    group, or empty when no group is selected.  A rename of a record that is
    missing rejects and is covered. *)
Theorem provider_mirrors_database (em : string → string) (evs : list Event)
    (w : World) :
  World_wf w → healthy w →
  adds_to_selected em evs (mounted em w) →
  mirrors (dispatch_all em evs (mounted em w)).1
          (dispatch_all em evs (mounted em w)).2.
Proof.
  intros Hwf Hw.
  destruct (mounted_mirrors em w Hwf Hw) as (Hm & Hwf0 & Hw0).
  revert Hm Hwf0 Hw0. generalize (mounted em w). clear.
  induction evs as [|ev evs IH]; intros [st w] Hm Hwf Hw Hadd; [done|].
  destruct Hadd as [Hev Hadd]. simpl in *.
  destruct (dispatch_mirrors em ev st w Hwf Hw Hm Hev) as (Hm' & Hwf' & Hw').
  destruct (dispatch em ev st w) as [st' w'] eqn:Hd. by apply IH.
Qed.

Lemma provider_mirrors_database_witness :
  let evs := [CreateNewGroup "Second"; AddImageToGroup 2 "c.jpg" jpeg;
              SelectGroup (Some 1); RenameExistingImage 1 "sea.jpg";
              DeleteExistingGroup 1; RenameExistingGroup 7 "None"] in
  mirrors (dispatch_all browserMessage evs (mounted browserMessage trip)).1
          (dispatch_all browserMessage evs (mounted browserMessage trip)).2.
Proof.
  cbv zeta. apply provider_mirrors_database.
  - exact World_wf_trip.
  - exact healthy_trip.
  - vm_compute. repeat split.
Defined.

(** An action that rejects (lines 665-768).  Whatever requests the engine
    fails, an action of the provider that rejects rethrows a plain [Error]
    and leaves the provider's state as it was, except that [error] is the
    message of that error: no list, selection or loading flag has changed,
    and no effect runs.  The groups of the database are as before, and so
    are the images unless the action was [deleteExistingGroup], whose first
    phase may have committed. *)
Theorem rejected_action_reports (em : string → string) (ev : Event)
    (st : Context.State) (w : World) (err : JsError) (st' : Context.State)
    (w' : World) :
  World_wf w →
  withEffects em (action em ev) st w = (Rejected err, st', w') →
  ∃ message,
    err = Error message
    ∧ st' = setError (Some message) st
    ∧ groupRecords w' = groupRecords w
    ∧ ((∀ groupId, ev ≠ DeleteExistingGroup groupId) →
       imageRecords w' = imageRecords w).
Proof.
  intros Hwf. unfold withEffects.
  destruct (action em ev st w) as [[[[]|e] st1] w1] eqn:Hrun.
  - case_decide; [done|]. by destruct (selectionEffect em st1 w1) as [[? ?] ?].
  - destruct (action_rejected em ev st w e st1 w1 Hwf Hrun)
      as (message & -> & -> & Hg & Hi).
    rewrite decide_True by done. intros [= <- <- <-]. eauto.
Qed.

Lemma rejected_action_reports_witness :
  ∃ message,
    Error "Failed to delete group: Unknown error" = Error message
    ∧ Context.mkState [] None [] false false
        (Some "Failed to delete group: Unknown error")
      = setError (Some message) initialState
    ∧ groupRecords (run (deleteGroup 1) (failing 7 trip))
      = groupRecords (failing 7 trip)
    ∧ ((∀ groupId, DeleteExistingGroup 1 ≠ DeleteExistingGroup groupId) →
       imageRecords (run (deleteGroup 1) (failing 7 trip))
       = imageRecords (failing 7 trip)).
Proof.
  apply (rejected_action_reports browserMessage (DeleteExistingGroup 1)
           initialState (failing 7 trip)).
  - exact World_wf_trip.
  - vm_compute. reflexivity.
Defined.

Lemma World_wf_next_group w k g :
  World_wf w → groupRecords w !! k = Some g → k < nextGroupId w.
Proof.
  unfold World_wf, Database_wf, nextGroupId, groupRecords, stores.
  destruct (database w) as [[[gs|] [im|]]|]; simpl; try done.
  intros [Hgs _] Hk. unfold store_wf in Hgs.
  rewrite map_Forall_lookup in Hgs. by destruct (Hgs _ _ Hk).
Qed.

Lemma World_wf_next_image w k i :
  World_wf w → imageRecords w !! k = Some i → k < nextImageId w.
Proof.
  unfold World_wf, Database_wf, nextImageId, imageRecords, stores.
  destruct (database w) as [[[gs|] [im|]]|]; simpl; try done.
  intros [_ Him] Hk. unfold store_wf in Him.
  rewrite map_Forall_lookup in Him. by destruct (Him _ _ Hk).
Qed.

Lemma matching_all {V} (s : IDB.ObjectStore V) :
  IDB.matching (λ _, 0) 0 s = IDB.entries s.
Proof.
  unfold IDB.matching. induction (IDB.entries s) as [|e l IH]; [done|].
  by rewrite filter_cons_True, IH.
Qed.

Lemma listedGroups_insert_last gs key group :
  (∀ k g, gs !! k = Some g → k < key) →
  listedGroups (<[key := group]> gs) = listedGroups gs ++ [group].
Proof.
  intros Hlast. unfold listedGroups. simpl. rewrite <- !matching_all.
  rewrite (matching_insert_last (λ _, 0) 0 gs 1 1) by done.
  by rewrite fmap_app.
Qed.

Lemma listedGroups_delete gs key :
  (∀ k g, gs !! k = Some g → ImageGroup.id g = k) →
  listedGroups (base.delete key gs)
  = filter (λ group, ImageGroup.id group ≠ key) (listedGroups gs).
Proof.
  intros Hid. unfold listedGroups. simpl. rewrite <- !matching_all.
  rewrite (matching_delete (λ _, 0) 0 gs 1 1).
  apply filter_keys_values.
  intros k v [Hk _]%elem_of_matching. by apply Hid.
Qed.

Lemma listed_insert_last ims groupId key image :
  (∀ k i, ims !! k = Some i → k < key) →
  StoredImage.groupId image = groupId →
  listed groupId (<[key := image]> ims) = listed groupId ims ++ [image].
Proof.
  intros Hlast Hg. unfold listed. simpl.
  rewrite (matching_insert_last StoredImage.groupId groupId ims 1 1) by done.
  by rewrite fmap_app.
Qed.

(** [createNewGroup] (lines 672-684).  With an engine that fails no request,
    after [createNewGroup name] the list of groups is the list of the
    database before the call followed by a new group with the given name
    and the next id, that group is the selected one, and [error] is
    clear. *)
Theorem createNewGroup_selects (em : string → string) (name : string)
    (st : Context.State) (w : World) :
  World_wf w → healthy w →
  let st' := (dispatch em (CreateNewGroup name) st w).1 in
  ∃ group,
    ImageGroup.id group = nextGroupId w
    ∧ ImageGroup.name group = name
    ∧ Context.groups st' = listedGroups (groupRecords w) ++ [group]
    ∧ Context.selectedGroupId st' = Some (nextGroupId w)
    ∧ Context.error st' = None.
Proof.
  intros Hwf Hw. cbv zeta. unfold dispatch, withEffects. unfold_action.
  destruct (createGroup_healthy name w Hwf Hw)
    as (key & group & w2 & -> & Hwf2 & Hw2 & Hkey & Hid & Hname & Hg2 & Hi2).
  destruct (loadGroups_healthy em (setError None st) w2 Hwf2 Hw2)
    as (st3 & w3 & -> & Hwf3 & Hw3 & Hg3 & Hi3 & Hsel3 & Hims3 & Hgs3 & He3).
  assert (Context.groups st3 = listedGroups (groupRecords w) ++ [group])
    as Hlisted.
  { rewrite Hgs3, Hg2. apply listedGroups_insert_last.
    intros k g Hk. rewrite Hkey. by eapply World_wf_next_group. }
  exists group. rewrite <- Hkey. case_decide as Hsel.
  - simpl. conj_split; auto.
  - assert (World_wf w3 ∧ healthy w3) as [Hwf3' Hw3'] by done.
    unfold selectionEffect. simpl.
    destruct (loadImages_healthy em key (setSelectedGroupId (Some key) st3)
                w3 Hwf3 Hw3)
      as (st4 & w4 & -> & _ & _ & _ & _ & Hsel4 & Hgs4 & _ & He4).
    simpl. rewrite Hsel4, Hgs4. simpl. conj_split; auto.
Qed.

Lemma createNewGroup_selects_witness :
  let st' := (dispatch browserMessage (CreateNewGroup "Second")
                (mounted browserMessage trip).1
                (mounted browserMessage trip).2).1 in
  ∃ group,
    ImageGroup.id group = nextGroupId (mounted browserMessage trip).2
    ∧ ImageGroup.name group = "Second"
    ∧ Context.groups st'
      = listedGroups (groupRecords (mounted browserMessage trip).2) ++ [group]
    ∧ Context.selectedGroupId st'
      = Some (nextGroupId (mounted browserMessage trip).2)
    ∧ Context.error st' = None.
Proof.
  apply createNewGroup_selects.
  - apply (bool_decide_unpack _). vm_compute. exact I.
  - apply (bool_decide_unpack _). vm_compute. exact I.
Defined.

(** [deleteExistingGroup] (lines 704-719).  With an engine that fails no
    request and a state that shows the database, after
    [deleteExistingGroup groupId] the list of groups is the former list
    without the group of that id; when that group was the selected one, the
    selection and the images are cleared; otherwise the selection and the
    images shown are kept. *)
Theorem deleteExistingGroup_clears_selection (em : string → string)
    (groupId : Z) (st : Context.State) (w : World) :
  World_wf w → healthy w → mirrors st w →
  let st' := (dispatch em (DeleteExistingGroup groupId) st w).1 in
  Context.groups st'
  = filter (λ group, ImageGroup.id group ≠ groupId) (Context.groups st)
  ∧ (Context.selectedGroupId st = Some groupId →
     Context.selectedGroupId st' = None ∧ Context.images st' = [])
  ∧ (Context.selectedGroupId st ≠ Some groupId →
     Context.selectedGroupId st' = Context.selectedGroupId st
     ∧ Context.images st' = Context.images st).
Proof.
  intros Hwf Hw [Hgroups Himages]. cbv zeta.
  unfold dispatch, withEffects. unfold_action.
  destruct (deleteGroup_healthy groupId w Hwf Hw)
    as (w2 & -> & Hwf2 & Hw2 & Hg2 & Hi2).
  destruct (loadGroups_healthy em (setError None st) w2 Hwf2 Hw2)
    as (st3 & w3 & -> & Hwf3 & Hw3 & Hg3 & Hi3 & Hsel3 & Hims3 & Hgs3 & He3).
  simpl in Hsel3, Hims3.
  assert (Context.groups st3
          = filter (λ group, ImageGroup.id group ≠ groupId)
                   (Context.groups st)) as Hlisted.
  { rewrite Hgs3, Hg2, Hgroups. apply listedGroups_delete.
    intros k g. by apply World_wf_group_id. }
  destruct (decide (Context.selectedGroupId st = Some groupId)) as [Hsel|Hsel].
  - simpl. rewrite decide_False by (rewrite Hsel; done).
    unfold selectionEffect. simpl. conj_split; done.
  - simpl. rewrite decide_True by done. simpl. conj_split; done.
Qed.

Lemma deleteExistingGroup_clears_selection_witness :
  let st := (dispatch browserMessage (SelectGroup (Some 1))
               (mounted browserMessage trip).1
               (mounted browserMessage trip).2).1 in
  let w := (dispatch browserMessage (SelectGroup (Some 1))
              (mounted browserMessage trip).1
              (mounted browserMessage trip).2).2 in
  let st' := (dispatch browserMessage (DeleteExistingGroup 1) st w).1 in
  Context.selectedGroupId st = Some 1
  ∧ Context.groups st'
    = filter (λ group, ImageGroup.id group ≠ 1) (Context.groups st)
  ∧ (Context.selectedGroupId st = Some 1 →
     Context.selectedGroupId st' = None ∧ Context.images st' = [])
  ∧ (Context.selectedGroupId st ≠ Some 1 →
     Context.selectedGroupId st' = Context.selectedGroupId st
     ∧ Context.images st' = Context.images st).
Proof.
  cbv zeta. split; [vm_compute; reflexivity|].
  apply deleteExistingGroup_clears_selection.
  - apply (bool_decide_unpack _). vm_compute. exact I.
  - apply (bool_decide_unpack _). vm_compute. exact I.
  - split; vm_compute; reflexivity.
Defined.

(** [addImageToGroup] (lines 724-734).  With an engine that fails no
    request, after [addImageToGroup groupId name blob] the images shown are
    those of [groupId], the new image last, whichever group is selected: the
    selection is not changed, so that adding to a group other than the
    selected one shows the images of a group that is not selected. *)
Theorem addImageToGroup_shows_its_group (em : string → string) (groupId : Z)
    (name : string) (blob : Blob.t) (st : Context.State) (w : World) :
  World_wf w → healthy w →
  let st' := (dispatch em (AddImageToGroup groupId name blob) st w).1 in
  let w' := (dispatch em (AddImageToGroup groupId name blob) st w).2 in
  ∃ createdAt,
    Context.images st'
    = listed groupId (imageRecords w)
      ++ [StoredImage.mk (nextImageId w) groupId name blob createdAt]
    ∧ Context.images st' = listed groupId (imageRecords w')
    ∧ Context.selectedGroupId st' = Context.selectedGroupId st
    ∧ Context.groups st' = Context.groups st.
Proof.
  intros Hwf Hw. cbv zeta. unfold dispatch, withEffects. unfold_action.
  destruct (addImage_healthy groupId name blob w Hwf Hw)
    as (key & image & w2 & -> & Hwf2 & Hw2 & Hkey & Himage & Hi2 & Hg2).
  destruct (loadImages_healthy em groupId (setError None st) w2 Hwf2 Hw2)
    as (st3 & w3 & -> & Hwf3 & Hw3 & Hg3 & Hi3 & Hsel3 & Hgs3 & Hims3 & He3).
  simpl in Hsel3, Hgs3. rewrite decide_True by done. simpl.
  eexists. rewrite Hims3, Hi3, Hi2, <- Hkey. conj_split; [|done..].
  rewrite Himage. apply listed_insert_last; [|done].
  intros k i Hk. rewrite Hkey. by eapply World_wf_next_image.
Qed.

Lemma addImageToGroup_shows_its_group_witness :
  let st := (mounted browserMessage trip).1 in
  let w := (mounted browserMessage trip).2 in
  let st' := (dispatch browserMessage (AddImageToGroup 1 "c.jpg" jpeg)
                st w).1 in
  let w' := (dispatch browserMessage (AddImageToGroup 1 "c.jpg" jpeg)
               st w).2 in
  Context.selectedGroupId st = None
  ∧ ∃ createdAt,
      Context.images st'
      = listed 1 (imageRecords w)
        ++ [StoredImage.mk (nextImageId w) 1 "c.jpg" jpeg createdAt]
      ∧ Context.images st' = listed 1 (imageRecords w')
      ∧ Context.selectedGroupId st' = Context.selectedGroupId st
      ∧ Context.groups st' = Context.groups st.
Proof.
  cbv zeta. split; [vm_compute; reflexivity|].
  apply addImageToGroup_shows_its_group.
  - apply (bool_decide_unpack _). vm_compute. exact I.
  - apply (bool_decide_unpack _). vm_compute. exact I.
Defined.

(** [loadGroups] and [loadImages] (lines 611-642).  Whatever requests the
    engine fails, neither load rejects, and each ends with its loading flag
    down.  When the service resolved, the list loaded replaces the one shown
    and [error] is clear; when it rejected, the list shown is kept and
    [error] is the message of the error.  A load changes neither the
    selection nor the other list. *)
Theorem loads_never_reject (em : string → string) (st : Context.State)
    (w : World) :
  (∃ st' w',
     loadGroups em st w = (Resolved tt, st', w')
     ∧ Context.isLoadingGroups st' = false
     ∧ Context.images st' = Context.images st
     ∧ Context.selectedGroupId st' = Context.selectedGroupId st
     ∧ match result getAllGroups w with
       | Resolved allGroups =>
           Context.groups st' = allGroups ∧ Context.error st' = None
       | Rejected err =>
           Context.groups st' = Context.groups st
           ∧ ∃ fallback,
               Context.error st' = Some (errorMessage em err fallback)
       end)
  ∧ ∀ groupId,
      ∃ st' w',
        loadImages em groupId st w = (Resolved tt, st', w')
        ∧ Context.isLoadingImages st' = false
        ∧ Context.groups st' = Context.groups st
        ∧ Context.selectedGroupId st' = Context.selectedGroupId st
        ∧ match result (getImagesByGroup groupId) w with
          | Resolved groupImages =>
              Context.images st' = groupImages ∧ Context.error st' = None
          | Rejected err =>
              Context.images st' = Context.images st
              ∧ ∃ fallback,
                  Context.error st' = Some (errorMessage em err fallback)
          end.
Proof.
  split.
  - destruct (loadGroups_settles em st w)
      as (st' & w' & Hrun & _ & _ & _ & _ & Hsel & Hims & Hload & _ & Hr).
    exists st', w'. conj_split; auto.
    destruct (result getAllGroups w); [done|].
    destruct Hr. eauto.
  - intros groupId.
    destruct (loadImages_settles em groupId st w)
      as (st' & w' & Hrun & _ & _ & _ & _ & Hsel & Hgs & _ & Hload & Hr).
    exists st', w'. conj_split; auto.
    destruct (result (getImagesByGroup groupId) w); [done|].
    destruct Hr. eauto.
Qed.

(** ** The components *)

Lemma selectionEffect_records em st w :
  groupRecords (selectionEffect em st w).2 = groupRecords w
  ∧ imageRecords (selectionEffect em st w).2 = imageRecords w.
Proof.
  unfold selectionEffect.
  destruct (Context.selectedGroupId st) as [selectedGroupId|]; [|done].
  destruct (loadImages_settles em selectedGroupId st w)
    as (st' & w' & -> & Hg & Hi & _). done.
Qed.

Lemma withEffects_records {A} em (a : Action A) st w :
  groupRecords (withEffects em a st w).2 = groupRecords (a st w).2
  ∧ imageRecords (withEffects em a st w).2 = imageRecords (a st w).2.
Proof.
  unfold withEffects. destruct (a st w) as [[r st1] w1]. case_decide; [done|].
  pose proof (selectionEffect_records em st1 w1) as Hrec.
  by destruct (selectionEffect em st1 w1) as [[r2 st2] w2].
Qed.

Lemma action_named em ev st w :
  named w → names_given ev → named (action em ev st w).2.
Proof.
  intros Hn Hev. destruct ev; unfold_action; simpl in Hev.
  - done.
  - destruct (createGroup name w) as [[key|e] w2] eqn:Hop;
      destruct (createGroup_spec _ _ _ _ Hop) as (_ & _ & _ & Hr).
    + destruct (loadGroups_settles em (setError None st) w2)
        as (st3 & w3 & -> & Hg3 & _). simpl. unfold named.
      destruct Hr as [Hg2 _]. rewrite Hg3, Hg2.
      by apply map_Forall_insert_2.
    + simpl. unfold named. destruct Hr as [-> _]. done.
  - destruct (renameGroup groupId newName w) as [[[]|e] w2] eqn:Hop;
      destruct (renameGroup_spec _ _ _ _ _ Hop) as (_ & _ & _ & Hr).
    + destruct (loadGroups_settles em (setError None st) w2)
        as (st3 & w3 & -> & Hg3 & _). simpl. unfold named.
      destruct Hr as (group & _ & Hg2 & _). rewrite Hg3, Hg2.
      by apply map_Forall_insert_2.
    + simpl. unfold named. destruct Hr as [-> _]. done.
  - destruct (deleteGroup groupId w) as [[[]|e] w2] eqn:Hop;
      destruct (deleteGroup_spec _ _ _ _ Hop) as (_ & _ & Hr).
    + destruct (loadGroups_settles em (setError None st) w2)
        as (st3 & w3 & -> & Hg3 & _).
      assert (named w3) as Hn3.
      { unfold named. destruct Hr as [Hg2 _]. rewrite Hg3, Hg2.
        by apply map_Forall_delete. }
      by case_decide.
    + simpl. unfold named. destruct Hr as [-> _]. done.
  - destruct (addImage groupId name blob w) as [[key|e] w2] eqn:Hop;
      destruct (addImage_spec _ _ _ _ _ _ Hop) as (Hg2 & _).
    + destruct (loadImages_settles em groupId (setError None st) w2)
        as (st3 & w3 & -> & Hg3 & _). simpl. unfold named.
      by rewrite Hg3, Hg2.
    + simpl. unfold named. by rewrite Hg2.
  - destruct (renameImage imageId newName w) as [[[]|e] w2] eqn:Hop;
      destruct (renameImage_spec _ _ _ _ _ Hop) as (Hg2 & _).
    + destruct (Context.selectedGroupId st) as [selected|].
      * destruct (loadImages_settles em selected (setError None st) w2)
          as (st3 & w3 & -> & Hg3 & _). simpl. unfold named.
        by rewrite Hg3, Hg2.
      * simpl. unfold named. by rewrite Hg2.
    + simpl. unfold named. by rewrite Hg2.
  - destruct (deleteImage imageId w) as [[[]|e] w2] eqn:Hop;
      destruct (deleteImage_spec _ _ _ _ Hop) as (Hg2 & _).
    + destruct (Context.selectedGroupId st) as [selected|].
      * destruct (loadImages_settles em selected (setError None st) w2)
          as (st3 & w3 & -> & Hg3 & _). simpl. unfold named.
        by rewrite Hg3, Hg2.
      * simpl. unfold named. by rewrite Hg2.
    + simpl. unfold named. by rewrite Hg2.
Qed.

Lemma withEffects_named em ev st w :
  named w → names_given ev →
  named (withEffects em (action em ev) st w).2.
Proof.
  intros Hn Hev. unfold named.
  destruct (withEffects_records em (action em ev) st w) as [-> _].
  by apply action_named.
Qed.

(** Names given through the group list (GroupList.tsx, [handleCreateGroup],
    lines 55-71, and [handleRename] of [GroupCard], lines 300-322).  Whatever [trim] does and whatever
    requests the engine fails: if every group of the database has a name
    that is not empty, the same holds after [handleCreateGroup] and after
    [handleRename], whatever was typed.  The check that the service leaves
    out is made by the two handlers. *)
Theorem group_names_never_empty (em : string → string)
    (trim : string → string) (st : Context.State) (w : World) :
  named w →
  (∀ list, named (handleCreateGroup em trim list st w).2)
  ∧ (∀ group card, named (handleRename em trim group card st w).2).
Proof.
  intros Hn. split.
  - intros c. unfold handleCreateGroup. cbv zeta. case_decide as Hname; [done|].
    pose proof (withEffects_named em
                  (CreateNewGroup (trim (GroupList.newGroupName c))) st w
                  Hn Hname) as Hn'.
    simpl in Hn'.
    by destruct (withEffects em _ st w) as [[[[]|e] st'] w'].
  - intros group c. unfold handleRename. cbv zeta.
    case_decide as Hname; [done|]. case_decide; [done|].
    pose proof (withEffects_named em
                  (RenameExistingGroup (ImageGroup.id group)
                     (trim (GroupCard.newName c))) st w Hn Hname) as Hn'.
    simpl in Hn'.
    by destruct (withEffects em _ st w) as [[[[]|e] st'] w'].
Qed.

(** [handleImageFile] (ImageGallery.tsx, lines 81-99).  With an engine that fails no
    request and a state that shows the database, after [handleImageFile]
    the state still shows the database and the selection is the same; the
    groups are untouched, and an image that was not there before holds the
    file given, whose type starts with "image/", under the selected
    group. *)
Theorem handleImageFile_adds_to_selection (em : string → string)
    (file : Blob.t) (fileName customName : option string)
    (st : Context.State) (w : World) :
  World_wf w → healthy w → mirrors st w →
  let st' := (handleImageFile em file fileName customName st w).1.2 in
  let w' := (handleImageFile em file fileName customName st w).2 in
  mirrors st' w'
  ∧ Context.selectedGroupId st' = Context.selectedGroupId st
  ∧ groupRecords w' = groupRecords w
  ∧ ∀ k image,
      imageRecords w' !! k = Some image →
      imageRecords w !! k = Some image
      ∨ (Context.selectedGroupId st = Some (StoredImage.groupId image)
         ∧ StoredImage.blob image = file
         ∧ String.prefix "image/" (Blob.type file) = true).
Proof.
  intros Hwf Hw Hm. cbv zeta. unfold handleImageFile.
  destruct (Context.selectedGroupId st) as [groupId|] eqn:Hsel;
    [|simpl; rewrite Hsel; auto].
  case_decide; [simpl; rewrite Hsel; auto|].
  destruct (String.prefix "image/" (Blob.type file)) eqn:Htype;
    [|simpl; rewrite Hsel; auto].
  cbv zeta. simpl negb. cbv iota.
  set (name := match customName with
               | Some custom =>
                   if decide (custom = EmptyString)
                   then default "image.jpg" fileName
                   else custom
               | None => default "image.jpg" fileName
               end).
  pose proof (dispatch_mirrors em (AddImageToGroup groupId name file) st w
                Hwf Hw Hm Hsel) as (Hm' & _ & _).
  revert Hm'. unfold dispatch, withEffects. unfold_action.
  destruct (addImage_healthy groupId name file w Hwf Hw)
    as (key & image & w2 & -> & Hwf2 & Hw2 & Hkey & Himage & Hi2 & Hg2).
  destruct (loadImages_healthy em groupId (setError None st) w2 Hwf2 Hw2)
    as (st3 & w3 & -> & Hwf3 & Hw3 & Hg3 & Hi3 & Hsel3 & Hgs3 & Hims3 & He3).
  simpl in Hsel3. rewrite decide_True by done. simpl. intros Hm'.
  conj_split; [done|congruence|congruence|].
  intros k i. rewrite Hi3, Hi2.
  destruct (decide (k = key)) as [->|Hne].
  - rewrite lookup_insert_eq. intros [= <-]. right. by rewrite Himage.
  - rewrite lookup_insert_ne by done. auto.
Qed.

Lemma group_names_never_empty_witness :
  let list := GroupList.mkState true "   " true None [] in
  let card := GroupCard.mkState true " Holiday " in
  let group := ImageGroup.mk 1 "Trip" 0 0 in
  named (handleCreateGroup browserMessage trimBlanks list initialState trip).2
  ∧ named (handleRename browserMessage trimBlanks group card initialState
             trip).2
  ∧ ImageGroup.name
      <$> groupRecords (handleRename browserMessage trimBlanks group card
                          initialState trip).2 !! 1
    = Some "Holiday".
Proof.
  cbv zeta.
  assert (named trip) as Hn by (apply (bool_decide_unpack _); vm_compute;
                                exact I).
  destruct (group_names_never_empty browserMessage trimBlanks initialState
              trip Hn) as [Hcreate Hrename].
  split; [apply Hcreate|]. split; [apply Hrename|].
  vm_compute. reflexivity.
Defined.

Lemma handleImageFile_adds_to_selection_witness :
  let st := (dispatch browserMessage (SelectGroup (Some 1))
               (mounted browserMessage trip).1
               (mounted browserMessage trip).2).1 in
  let w := (dispatch browserMessage (SelectGroup (Some 1))
              (mounted browserMessage trip).1
              (mounted browserMessage trip).2).2 in
  let st' := (handleImageFile browserMessage jpeg (Some "c.jpg") None
                st w).1.2 in
  let w' := (handleImageFile browserMessage jpeg (Some "c.jpg") None
               st w).2 in
  StoredImage.name <$> imageRecords w' !! 3 = Some "c.jpg"
  ∧ mirrors st' w'
  ∧ Context.selectedGroupId st' = Context.selectedGroupId st
  ∧ groupRecords w' = groupRecords w
  ∧ ∀ k image,
      imageRecords w' !! k = Some image →
      imageRecords w !! k = Some image
      ∨ (Context.selectedGroupId st = Some (StoredImage.groupId image)
         ∧ StoredImage.blob image = jpeg
         ∧ String.prefix "image/" (Blob.type jpeg) = true).
Proof.
  cbv zeta. split; [vm_compute; reflexivity|].
  apply handleImageFile_adds_to_selection.
  - apply (bool_decide_unpack _). vm_compute. exact I.
  - apply (bool_decide_unpack _). vm_compute. exact I.
  - split; vm_compute; reflexivity.
Defined.
